(** * The catalyst load balancer (package catabalancer)

    A shallow embedding of the cluster load balancer: the event codec
    ([SetStreams], [GetStreams], [GetIngestStreams]), the node registry
    ([UpdateMembers]), the stats store adapter ([RefreshNodes]), staleness
    ([isStale]) and the selection engine ([createScoredNodes],
    [GetLoadScore], [selectTopNodes], [SelectNode], [GetBestNode],
    [MistUtilLoadSource]).

    Go strings are byte strings ([string]), Go maps are finite maps
    ([gmap]), [float64] is an IEEE 754 binary64 value ([spec_float]),
    [time.Time] and [time.Duration] are counts of nanoseconds ([Z]). *)

From Stdlib Require Import ZArith Ascii String SpecFloat.
From stdpp Require Import base option list gmap strings sorting.

Local Open Scope Z_scope.

(** ** Package strings *)

Module strings.

(** [strings.Join(elems, sep)]. *)
Fixpoint Join (elems : list string) (sep : string) : string :=
  match elems with
  | [] => ""
  | [x] => x
  | x :: rest => x +:+ sep +:+ Join rest sep
  end.

(** [strings.Cut(s, sep)] at a one-byte separator: the text before and
    after the first [sep], and whether [sep] was found. *)
Fixpoint Cut (s : string) (sep : ascii) : string * string * bool :=
  match s with
  | EmptyString => ("", "", false)
  | String c s' =>
      if Ascii.eqb c sep then ("", s', true)
      else let '(before, after, found) := Cut s' sep in
           (String c before, after, found)
  end.

(** [strings.Split(s, sep)] at a one-byte separator: the pieces of [s]
    between the occurrences of [sep]; never the empty list. *)
Fixpoint Split (s : string) (sep : ascii) : list string :=
  match s with
  | EmptyString => [""]
  | String c s' =>
      if Ascii.eqb c sep then "" :: Split s' sep
      else match Split s' sep with
           | piece :: pieces => String c piece :: pieces
           | [] => [String c ""]
           end
  end.

(** [strings.Contains(s, sep)] at a one-byte separator. *)
Fixpoint Contains (s : string) (sep : ascii) : bool :=
  match s with
  | EmptyString => false
  | String c s' => Ascii.eqb c sep || Contains s' sep
  end.

End strings.

(** The two reserved separators of the stream encoding, and the prefix
    separator of a stream name. *)
Definition pipe : ascii := "|"%char.
Definition tilde : ascii := "~"%char.
Definition plus : ascii := "+"%char.

(** ** Time *)

(** An instant, in nanoseconds. *)
Definition Time := Z.
(** [time.Duration]: a signed 64-bit count of nanoseconds. *)
Definition Duration := Z.

Definition minDuration : Duration := - 2 ^ 63.
Definition maxDuration : Duration := 2 ^ 63 - 1.

(** [t.Sub(u)]: the duration [t - u], saturated to the range of
    [Duration]. *)
Definition time_Sub (t u : Time) : Duration :=
  if t - u <? minDuration then minDuration
  else if maxDuration <? t - u then maxDuration
  else t - u.

(** [time.Since(t)] when the clock reads [now]. *)
Definition time_Since (now t : Time) : Duration := time_Sub now t.

(** ** Numbers *)

Definition float64 := spec_float.

(** The binary64 value of a small integer literal. *)
Definition float64_of_Z (n : Z) : float64 := binary_normalize 53 1024 n 0 false.

(** [x > y] and [x <= y] on [float64]: false when either side is NaN. *)
Definition float64_gt (x y : float64) : bool := SFltb y x.
Definition float64_le (x y : float64) : bool := SFleb x y.

(** A value as an [int64]: wrapped around at 64 bits. *)
Definition int64 (x : Z) : Z := (x + 2 ^ 63) `mod` 2 ^ 64 - 2 ^ 63.

(** ** Errors *)

(** A Go [error]: a plain message ([errors.New], [fmt.Errorf] without
    [%w]) or a message wrapping another error ([fmt.Errorf] with [%w]). *)
Inductive error :=
| errorString (msg : string)
| wrapError (msg : string) (err : error).

(** [err.Error()]. *)
Definition Error (err : error) : string :=
  match err with
  | errorString msg => msg
  | wrapError msg _ => msg
  end.

(** [fmt.Errorf(prefix + "%w", err)]. *)
Definition Errorf_w (prefix : string) (err : error) : error :=
  wrapError (prefix +:+ Error err) err.

(** [errors.Unwrap(err)]. *)
Definition Unwrap (err : error) : option error :=
  match err with
  | errorString _ => None
  | wrapError _ inner => Some inner
  end.

Inductive result (A : Type) :=
| Ok (a : A)
| Err (err : error).
Arguments Ok {A} a.
Arguments Err {A} err.

(** ** Data model *)

Record Node := mkNode {
  Name : string;
  DTSC : string;
}.

Record Stream := mkStream {
  ID : string;
  PlaybackID : string;
  Stream_Timestamp : Time;
}.

(** Stream ID -> Stream. *)
Abbreviation Streams := (gmap string Stream).

Record NodeMetrics := mkNodeMetrics {
  CPUUsagePercentage : float64;
  RAMUsagePercentage : float64;
  BandwidthUsagePercentage : float64;
  LoadAvg : float64;
  GeoLatitude : float64;
  GeoLongitude : float64;
  Timestamp : Time;
}.

Record stats := mkStats {
  stats_Streams : gmap string Streams;
  stats_IngestStreams : gmap string Streams;
  stats_NodeMetrics : gmap string NodeMetrics;
}.

Record ScoredNode := mkScoredNode {
  Score : Z;
  GeoScore : Z;
  StreamScore : Z;
  GeoDistance : float64;
  sn_Node : Node;
  sn_Streams : Streams;
  sn_IngestStreams : Streams;
  sn_NodeMetrics : NodeMetrics;
}.

Record NodeUpdateEvent := mkNodeUpdateEvent {
  Resource : string;
  NodeID : string;
  ev_NodeMetrics : NodeMetrics;
  ev_Streams : string;
}.

(** [cluster.Member]: a cluster member and its tags. *)
Record Member := mkMember {
  Member_Name : string;
  Tags : gmap string string;
}.

(** Reading a Go map of strings: the empty string when the key is absent. *)
Definition index (m : gmap string string) (key : string) : string :=
  default "" (m !! key).

(** Reading a Go map of maps: the nil map, which ranges over nothing,
    when the key is absent. *)
Definition streamsOf (m : gmap string Streams) (key : string) : Streams :=
  default ∅ (m !! key).

(** *** The node stats store *)

(** One row of the result set, by what [rows.Scan] and [json.Unmarshal]
    make of it. *)
Inductive Row :=
| ScanFails (err : error)
| Undecodable (err : error)
| Decoded (event : NodeUpdateEvent).

(** The result set of a query: its rows, and the error [rows.Err()]
    reports once [rows.Next()] has returned false. *)
Record sql_Rows := mkRows {
  rows : list Row;
  rows_Err : option error;
}.

(** [*sql.DB], by what [Query] answers. *)
Definition sql_DB := string → result sql_Rows.

Record CataBalancer := mkCataBalancer {
  NodeName : string;
  Nodes : gmap string Node;
  metricTimeout : Duration;
  ingestStreamTimeout : Duration;
  NodeStatsDB : option sql_DB;
}.

(** ** Event codec *)

Definition SetStreams (n : NodeUpdateEvent) (streamIDs ingestStreamIDs : list string)
  : NodeUpdateEvent :=
  mkNodeUpdateEvent (Resource n) (NodeID n) (ev_NodeMetrics n)
    (strings.Join streamIDs "|" +:+ "~" +:+ strings.Join ingestStreamIDs "|").

Definition GetStreams (n : NodeUpdateEvent) : list string :=
  let '(before, _, _) := strings.Cut (ev_Streams n) tilde in
  if (0 <? String.length before)%nat then strings.Split before pipe else [].

Definition GetIngestStreams (n : NodeUpdateEvent) : list string :=
  let '(_, after, _) := strings.Cut (ev_Streams n) tilde in
  if (0 <? String.length after)%nat then strings.Split after pipe else [].

Definition getPlaybackID (streamID : string) : string :=
  match strings.Split streamID plus with
  | [_; playbackID] => playbackID
  | _ => streamID
  end.

(** ** Node registry *)

Definition NewBalancer (nodeName : string) (metricTimeout ingestStreamTimeout : Duration)
    (nodeStatsDB : option sql_DB) : CataBalancer :=
  mkCataBalancer nodeName ∅ metricTimeout ingestStreamTimeout nodeStatsDB.

(** The loop of [UpdateMembers]. *)
Fixpoint collectMembers (members : list Member) (latestNodes : gmap string Node)
  : gmap string Node :=
  match members with
  | [] => latestNodes
  | member :: rest =>
      if negb (String.eqb (index (Tags member) "node") "media")
      then collectMembers rest latestNodes
      else collectMembers rest
             (<[Member_Name member :=
                  mkNode (Member_Name member) (index (Tags member) "dtsc")]> latestNodes)
  end.

Definition UpdateMembers (c : CataBalancer) (members : list Member)
  : CataBalancer * option error :=
  let latestNodes := collectMembers members ∅ in
  (mkCataBalancer (NodeName c) latestNodes (metricTimeout c) (ingestStreamTimeout c)
     (NodeStatsDB c), None).

(** ** Load score *)

Definition GetLoadScore (n : ScoredNode) : Z :=
  let m := sn_NodeMetrics n in
  if float64_gt (CPUUsagePercentage m) (float64_of_Z 85)
     || float64_gt (BandwidthUsagePercentage m) (float64_of_Z 85)
     || float64_gt (RAMUsagePercentage m) (float64_of_Z 85)
  then 0
  else if float64_gt (CPUUsagePercentage m) (float64_of_Z 50)
          || float64_gt (BandwidthUsagePercentage m) (float64_of_Z 50)
          || float64_gt (RAMUsagePercentage m) (float64_of_Z 50)
  then 1
  else 2.

Definition HasStream (n : ScoredNode) (streamID : string) : bool :=
  bool_decide (is_Some (sn_Streams n !! streamID)).

(** ** The world outside the package *)

(** What the Go runtime and the standard library decide: the readings of
    the system clock, the numbers drawn from [math/rand]'s shared source,
    the order in which a map is ranged over, the permutation [sort.Slice]
    settles on, and [strconv.ParseFloat]. *)
Class Runtime := {
  clock : nat → Time;
  draw : nat → nat;
  rangeOrder : ∀ {A : Type}, gmap string A → list (string * A);
  sort_Slice : (ScoredNode → ScoredNode → bool) → list ScoredNode → list ScoredNode;
  ParseFloat : string → result float64;
}.

(** Modelled from the spec: [geoScores] is called by [selectTopNodes] and
    is not part of the sources at hand. It computes [GeoScore] and
    [GeoDistance] for every candidate relative to the request's latitude
    and longitude. *)
Class GeoScoring := {
  geoScores : list ScoredNode → float64 → float64 → list ScoredNode;
}.

(** How far a call has got: the clock readings taken, the random numbers
    drawn and the queries sent to the stats store so far. *)
Record World := mkWorld {
  clockReads : nat;
  randDraws : nat;
  storeQueries : nat;
}.

(** A computation that reads the clock, draws random numbers or queries
    the store. Log lines are not modelled. *)
Definition M (A : Type) : Type := World → A * World.

Global Instance M_ret : MRet M := λ A a w, (a, w).
Global Instance M_bind : MBind M := λ A B f m w, let '(a, w') := m w in f a w'.

Section Balancer.
Context `{Runtime} `{GeoScoring}.

(** [time.Now()]. *)
Definition time_Now : M Time :=
  λ w, (clock (clockReads w), mkWorld (S (clockReads w)) (randDraws w) (storeQueries w)).

(** [rand.Intn(n)]. *)
Definition rand_Intn (n : nat) : M nat :=
  λ w, ((draw (randDraws w) `mod` n)%nat,
        mkWorld (clockReads w) (S (randDraws w)) (storeQueries w)).

(** [db.Query(query)]. *)
Definition sql_Query (db : sql_DB) (query : string) : M (result sql_Rows) :=
  λ w, (db query, mkWorld (clockReads w) (randDraws w) (S (storeQueries w))).

(** ** Staleness *)

Definition isStale (timestamp : Time) (stale : Duration) : M bool :=
  now ← time_Now;
  mret (stale <=? time_Since now timestamp).

(** ** Stats store adapter *)

(** [m[nodeID][key] = stream]. *)
Definition putStream (m : gmap string Streams) (nodeID key : string) (stream : Stream)
  : gmap string Streams :=
  <[nodeID := <[key := stream]> (streamsOf m nodeID)]> m.

(** The loop over [event.GetStreams()]. *)
Fixpoint addStreams (nodeID : string) (streamIDs : list string) (s : stats) : M stats :=
  match streamIDs with
  | [] => mret s
  | stream :: rest =>
      let playbackID := getPlaybackID stream in
      now ← time_Now;
      addStreams nodeID rest
        (mkStats
           (putStream (stats_Streams s) nodeID playbackID (mkStream stream playbackID now))
           (stats_IngestStreams s) (stats_NodeMetrics s))
  end.

(** The loop over [event.GetIngestStreams()]. *)
Fixpoint addIngestStreams (nodeID : string) (streamIDs : list string) (s : stats) : M stats :=
  match streamIDs with
  | [] => mret s
  | stream :: rest =>
      let playbackID := getPlaybackID stream in
      now ← time_Now;
      let streams :=
        putStream (stats_Streams s) nodeID playbackID (mkStream stream playbackID now) in
      now' ← time_Now;
      let ingestStreams :=
        putStream (stats_IngestStreams s) nodeID stream (mkStream stream playbackID now') in
      addIngestStreams nodeID rest (mkStats streams ingestStreams (stats_NodeMetrics s))
  end.

(** One turn of the loop over the rows, for a row that decoded to
    [event] and is not stale. *)
Definition recordEvent (event : NodeUpdateEvent) (s : stats) : M stats :=
  let s := mkStats (<[NodeID event := ∅]> (stats_Streams s))
                   (<[NodeID event := ∅]> (stats_IngestStreams s))
                   (<[NodeID event := ev_NodeMetrics event]> (stats_NodeMetrics s)) in
  s ← addStreams (NodeID event) (GetStreams event) s;
  addIngestStreams (NodeID event) (GetIngestStreams event) s.

(** The loop over the rows of the result set: the stats gathered, and the
    error that ended the loop early. *)
Fixpoint refreshRows (c : CataBalancer) (rs : list Row) (s : stats)
  : M (stats * option error) :=
  match rs with
  | [] => mret (s, None)
  | ScanFails err :: _ =>
      mret (s, Some (Errorf_w "failed to scan node stats row: " err))
  | Undecodable err :: _ =>
      mret (s, Some (Errorf_w "failed to unmarshal node update event: " err))
  | Decoded event :: rest =>
      stale ← isStale (Timestamp (ev_NodeMetrics event)) (metricTimeout c);
      if stale : bool then refreshRows c rest s
      else s ← recordEvent event s; refreshRows c rest s
  end.

Definition RefreshNodes (c : CataBalancer) : M (stats * option error) :=
  let s := mkStats ∅ ∅ ∅ in
  match NodeStatsDB c with
  | None => mret (s, Some (errorString "node stats DB was nil"))
  | Some db =>
      let query := "SELECT stats FROM node_stats" in
      answer ← sql_Query db query;
      match answer with
      | Err err => mret (s, Some (Errorf_w "failed to query node stats: " err))
      | Ok result_set =>
          '(s, err) ← refreshRows c (rows result_set) s;
          match err with
          | Some err => mret (s, Some err)
          | None =>
              match rows_Err result_set with
              | Some err => mret (s, Some err)
              | None => mret (s, None)
              end
          end
      end
  end.

(** ** Scored candidates *)

(** The loop that copies the streams of one node, leaving out stale ones. *)
Fixpoint copyFreshStreams (c : CataBalancer) (entries : list (string * Stream))
    (streams : Streams) : M Streams :=
  match entries with
  | [] => mret streams
  | (streamID, stream) :: rest =>
      stale ← isStale (Stream_Timestamp stream) (metricTimeout c);
      if stale : bool then copyFreshStreams c rest streams
      else copyFreshStreams c rest (<[streamID := stream]> streams)
  end.

(** The loop over the registry. *)
Fixpoint scoreNodes (c : CataBalancer) (s : stats) (entries : list (string * Node))
    (nodesList : list ScoredNode) : M (list ScoredNode) :=
  match entries with
  | [] => mret nodesList
  | (nodeName, node) :: rest =>
      match stats_NodeMetrics s !! nodeName with
      | None => scoreNodes c s rest nodesList
      | Some metrics =>
          stale ← isStale (Timestamp metrics) (metricTimeout c);
          if stale : bool then scoreNodes c s rest nodesList
          else
            streams ← copyFreshStreams c
                        (rangeOrder (streamsOf (stats_Streams s) nodeName)) ∅;
            scoreNodes c s rest
              (nodesList ++ [mkScoredNode 0 0 0 (S754_zero false) node streams ∅ metrics])
      end
  end.

Definition createScoredNodes (c : CataBalancer) (s : stats) : M (list ScoredNode) :=
  scoreNodes c s (rangeOrder (Nodes c)) [].

(** ** Selection *)

Definition truncateReturned (scoredNodes : list ScoredNode) (numNodes : nat)
  : list ScoredNode :=
  if (length scoredNodes <? numNodes)%nat then scoredNodes
  else take numNodes scoredNodes.

(** [l[i], l[j] = l[j], l[i]]. *)
Definition swap (l : list ScoredNode) (i j : nat) : list ScoredNode :=
  match l !! i, l !! j with
  | Some x, Some y => <[i := y]> (<[j := x]> l)
  | _, _ => l
  end.

(** The loop of [rand.Shuffle]: for [i] down to 1, swap the element at
    [i] with the one at a random index of [0..i]. *)
Fixpoint shuffleFrom (i : nat) (scoredNodes : list ScoredNode) : M (list ScoredNode) :=
  match i with
  | O => mret scoredNodes
  | S i' =>
      j ← rand_Intn (S i);
      shuffleFrom i' (swap scoredNodes i j)
  end.

Definition shuffle (scoredNodes : list ScoredNode) : M (list ScoredNode) :=
  shuffleFrom (length scoredNodes - 1) scoredNodes.

Definition withStreamScore (node : ScoredNode) (streamScore : Z) : ScoredNode :=
  mkScoredNode (Score node) (GeoScore node) streamScore (GeoDistance node)
    (sn_Node node) (sn_Streams node) (sn_IngestStreams node) (sn_NodeMetrics node).

Definition withScore (node : ScoredNode) (score : Z) : ScoredNode :=
  mkScoredNode score (GeoScore node) (StreamScore node) (GeoDistance node)
    (sn_Node node) (sn_Streams node) (sn_IngestStreams node) (sn_NodeMetrics node).

(** One turn of the "weighted least-bad option" loop. *)
Definition weigh (streamID : string) (node : ScoredNode) : ScoredNode :=
  let node := withScore node (int64 (Score node + GeoScore node)) in
  let node := withScore node (int64 (Score node + GetLoadScore node)) in
  if HasStream node streamID
  then withScore (withStreamScore node 2) (int64 (Score node + 2))
  else node.

Definition selectTopNodes (scoredNodes : list ScoredNode) (streamID : string)
    (requestLatitude requestLongitude : float64) (numNodes : nat) : M (list ScoredNode) :=
  let scoredNodes := geoScores scoredNodes requestLatitude requestLongitude in
  (* 1. Has Stream and Is Local and Isn't Overloaded *)
  let localHasStreamNotOverloaded :=
    omap (λ node,
            if (GeoScore node =? 2) && HasStream node streamID && (GetLoadScore node =? 2)
            then Some (withStreamScore node 2) else None) scoredNodes in
  if (0 <? length localHasStreamNotOverloaded)%nat then
    shuffled ← shuffle localHasStreamNotOverloaded;
    mret (truncateReturned shuffled numNodes)
  else
  (* 2. Is Local and Isn't Overloaded *)
  let localNotOverloaded :=
    List.filter (λ node, (GeoScore node =? 2) && (GetLoadScore node =? 2)) scoredNodes in
  if (0 <? length localNotOverloaded)%nat then
    shuffled ← shuffle localNotOverloaded;
    mret (truncateReturned shuffled numNodes)
  else
  (* 3. Weighted least-bad option *)
  let scoredNodes := map (weigh streamID) scoredNodes in
  let scoredNodes := sort_Slice (λ a b, Score b <? Score a) scoredNodes in
  mret (truncateReturned scoredNodes numNodes).

Definition SelectNode (nodes : list ScoredNode) (streamID : string)
    (requestLatitude requestLongitude : float64) : M (Node * option error) :=
  if (length nodes =? 0)%nat
  then mret (mkNode "" "", Some (errorString "no nodes to select from"))
  else
    topNodes ← selectTopNodes nodes streamID requestLatitude requestLongitude 3;
    if (length topNodes =? 0)%nat
    then mret (mkNode "" "", Some (errorString "selectTopNodes returned no nodes"))
    else
      i ← rand_Intn (length topNodes);
      match topNodes !! i with
      | Some chosen => mret (sn_Node chosen, None)
      | None => mret (mkNode "" "", None)
      end.

(** The coordinate a request string stands for: 0.0 when it is empty. *)
Definition parseCoordinate (text : string) : result float64 :=
  if String.eqb text "" then Ok (S754_zero false) else ParseFloat text.

Definition GetBestNode (c : CataBalancer) (redirectPrefixes : list string)
    (playbackID lat lon fallbackPrefix : string) (isStudioReq : bool)
  : M (string * string * option error) :=
  '(s, err) ← RefreshNodes c;
  match err with
  | Some err => mret ("", "", Some (Errorf_w "error refreshing nodes: " err))
  | None =>
  match parseCoordinate lat with
  | Err err => mret ("", "", Some err)
  | Ok latf =>
  match parseCoordinate lon with
  | Err err => mret ("", "", Some err)
  | Ok lonf =>
      (* default to ourself if there are no other nodes *)
      let nodeName := NodeName c in
      scoredNodes ← createScoredNodes c s;
      '(nodeName, err) ←
        (if (0 <? length scoredNodes)%nat then
           '(node, err) ← SelectNode scoredNodes playbackID latf lonf;
           mret (Name node, err)
         else mret (nodeName, None));
      match err with
      | Some err => mret ("", "", Some err)
      | None =>
          let prefix := match redirectPrefixes with
                        | first :: _ => first
                        | [] => "video"
                        end in
          mret (nodeName, prefix +:+ "+" +:+ playbackID, None)
      end
  end end end.

(** ** Ingest source lookup *)

(** The loop over the registry: what the first node that holds the stream
    makes the function return, if any node holds it. *)
Fixpoint findIngestNode (c : CataBalancer) (s : stats) (streamID : string)
    (nodeNames : list string) : M (option (string * option error)) :=
  match nodeNames with
  | [] => mret None
  | nodeName :: rest =>
      match streamsOf (stats_IngestStreams s) nodeName !! streamID with
      | Some stream =>
          stale ← isStale (Stream_Timestamp stream) (ingestStreamTimeout c);
          if stale : bool then
            mret (Some ("", Some (errorString
              ("catabalancer no node found for ingest stream: " +:+ streamID
               +:+ " stale: true"))))
          else
            let dtsc := "dtsc://" +:+ nodeName in
            mret (Some (dtsc, None))
      | None => findIngestNode c s streamID rest
      end
  end.

Definition MistUtilLoadSource (c : CataBalancer) (streamID lat lon : string)
  : M (string * option error) :=
  '(s, err) ← RefreshNodes c;
  match err with
  | Some err => mret ("", Some (Errorf_w "error refreshing nodes: " err))
  | None =>
      found ← findIngestNode c s streamID (rangeOrder (Nodes c)).*1;
      match found with
      | Some answer => mret answer
      | None =>
          mret ("", Some (errorString
            ("catabalancer no node found for ingest stream: " +:+ streamID
             +:+ " stale: false")))
      end
  end.

End Balancer.

(** ** Vocabulary of the properties *)

(** A stream ID free of the two reserved separators. *)
Definition noSeparator (s : string) : Prop :=
  strings.Contains s pipe = false ∧ strings.Contains s tilde = false.

(** A member tagged as a media-serving node, and the registry entry
    [UpdateMembers] makes of it. *)
Definition isMedia (member : Member) : Prop := index (Tags member) "node" = "media".

Definition toNode (member : Member) : Node :=
  mkNode (Member_Name member) (index (Tags member) "dtsc").

(** Every entry of the registry is stored under its own name. *)
Definition wellKeyed (nodes : gmap string Node) : Prop :=
  ∀ key node, nodes !! key = Some node → Name node = key.

(** An entry last seen at [timestamp] is stale when the clock reads [now]:
    its timestamp is [now - timeout] or older. *)
Definition staleAt (now timestamp : Time) (timeout : Duration) : Prop :=
  timestamp ≤ now - timeout.

(** A timeout that is a [Duration] other than the most negative one. *)
Definition validTimeout (timeout : Duration) : Prop :=
  minDuration < timeout ≤ maxDuration.

(** The [k]-th reading of the clock is taken between the worlds [w] and [w']. *)
Definition readDuring (w w' : World) (k : nat) : Prop :=
  (clockReads w ≤ k < clockReads w')%nat.


Definition missingIngestError (streamID : string) : error :=
  errorString ("catabalancer no node found for ingest stream: " +:+ streamID
               +:+ " stale: false").

(** A row that [rows.Scan] or [json.Unmarshal] rejects. *)
Definition failingRow (row : Row) : Prop :=
  match row with
  | ScanFails _ | Undecodable _ => True
  | Decoded _ => False
  end.

(** The prefix [GetBestNode] puts before the playback ID. *)
Definition redirectPrefix (redirectPrefixes : list string) : string :=
  match redirectPrefixes with
  | first :: _ => first
  | [] => "video"
  end.

(** What [isStale] answers for an entry last seen at [timestamp] when the
    clock reads [now]. *)
Definition expired (now timestamp : Time) (timeout : Duration) : bool :=
  timeout <=? time_Since now timestamp.

(** The world after one more reading of the clock. *)
Definition afterReading (w : World) : World :=
  mkWorld (S (clockReads w)) (randDraws w) (storeQueries w).

Section Laws.
Context `{Runtime} `{GeoScoring}.

(** Ranging over a map visits each of its entries once, in some order. *)
Definition rangeLaw : Prop :=
  ∀ (A : Type) (m : gmap string A), rangeOrder m ≡ₚ map_to_list m.

(** [sort.Slice] permutes the slice. *)
Definition sortLaw : Prop :=
  ∀ less l, sort_Slice less l ≡ₚ l.

(** Every candidate [geoScores] returns is one of the candidates it was
    given, as far as the node it stands for goes. *)
Definition geoLaw : Prop :=
  ∀ l lat lon x, x ∈ geoScores l lat lon → ∃ y, y ∈ l ∧ sn_Node x = sn_Node y.

(** [sort.Slice] by a descending key leaves no element before one of a
    greater key. *)
Definition sortedLaw : Prop :=
  ∀ (key : ScoredNode → Z) l,
    StronglySorted (λ a b, key b ≤ key a) (sort_Slice (λ a b, key b <? key a) l).

(** What the loop appends for the node stored under [name]: the node, its
    metrics, and a copy of its streams, each found fresh by some reading
    of the clock between [w] and [w']. *)
Definition scoredBetween (c : CataBalancer) (s : stats) (w w' : World) (name : string)
    (node : Node)
    (scored : ScoredNode) : Prop :=
  ∃ metrics,
    stats_NodeMetrics s !! name = Some metrics
    ∧ sn_Node scored = node
    ∧ sn_NodeMetrics scored = metrics
    ∧ sn_IngestStreams scored = ∅
    ∧ Score scored = 0 ∧ GeoScore scored = 0 ∧ StreamScore scored = 0
    ∧ (∃ k, readDuring w w' k
            ∧ expired (clock k) (Timestamp metrics) (metricTimeout c) = false)
    ∧ (∀ streamID stream, sn_Streams scored !! streamID = Some stream →
         (streamID, stream) ∈ rangeOrder (streamsOf (stats_Streams s) name)
         ∧ ∃ k, readDuring w w' k
                ∧ expired (clock k) (Stream_Timestamp stream) (metricTimeout c) = false)
    ∧ (NoDup (rangeOrder (streamsOf (stats_Streams s) name)).*1 →
       ∀ streamID stream,
         (streamID, stream) ∈ rangeOrder (streamsOf (stats_Streams s) name) →
         (∀ k, readDuring w w' k →
               expired (clock k) (Stream_Timestamp stream) (metricTimeout c) = false) →
         sn_Streams scored !! streamID = Some stream).

(** A snapshot entry made for [streamID] with the reading of the clock
    taken at some point between [w] and [w']. *)
Definition stamped (w w' : World) (streamID : string) (stream : Stream) : Prop :=
  ID stream = streamID
  ∧ PlaybackID stream = getPlaybackID streamID
  ∧ ∃ k, readDuring w w' k ∧ Stream_Timestamp stream = clock k.

End Laws.

(** *** Invariants of the stats *)

Section Invariants.
Context `{Runtime}.

(** Every entry of the two snapshot maps was made for a stream ID with a
    reading of the clock taken between [w] and [w']: a playback entry is
    kept under the playback ID of its stream ID, an ingest entry under
    the stream ID itself. *)
Definition stampedStats (w w' : World) (s : stats) : Prop :=
  (∀ name key stream,
     streamsOf (stats_Streams s) name !! key = Some stream →
     ∃ id, key = getPlaybackID id ∧ stamped w w' id stream)
  ∧ (∀ name key stream,
       streamsOf (stats_IngestStreams s) name !! key = Some stream →
       stamped w w' key stream).

End Invariants.

(** The three maps of the stats know the same nodes, and a node that
    ingests a stream also serves it. *)
Definition alignedStats (s : stats) : Prop :=
  ∀ name,
    (is_Some (stats_Streams s !! name) ↔ is_Some (stats_NodeMetrics s !! name))
    ∧ (is_Some (stats_IngestStreams s !! name) ↔ is_Some (stats_NodeMetrics s !! name))
    ∧ ∀ key, is_Some (streamsOf (stats_IngestStreams s) name !! key) →
             is_Some (streamsOf (stats_Streams s) name !! getPlaybackID key).

(** ** A sample world *)

(** A clock that advances by one millisecond per reading. *)
Definition sampleClock (k : nat) : Time :=
  1700000000000000000 + Z.of_nat k * 1000000.

(** A clock that stands still. *)
Definition frozenClock (k : nat) : Time := 1700000000000000000.

Definition dquote : string := String "034"%char "".

(** [strconv.ParseFloat] on the request strings of the examples. *)
Definition sampleParseFloat (text : string) : result float64 :=
  if String.eqb text "0" then Ok (S754_zero false)
  else if String.eqb text "52" then Ok (float64_of_Z 52)
  else Err (errorString ("strconv.ParseFloat: parsing " +:+ dquote +:+ text +:+ dquote
                         +:+ ": invalid syntax")).

(** The insertion sort [sort.Slice] runs on a slice of at most 12
    elements: each element moves left while it is less than its left
    neighbour. [sorted] holds the sorted prefix, last element first. *)
Fixpoint sink (less : ScoredNode → ScoredNode → bool) (x : ScoredNode)
    (sorted : list ScoredNode) : list ScoredNode :=
  match sorted with
  | [] => [x]
  | y :: rest => if less x y then y :: sink less x rest else x :: y :: rest
  end.

Definition insertionSort (less : ScoredNode → ScoredNode → bool) (l : list ScoredNode)
  : list ScoredNode :=
  reverse (foldl (λ sorted x, sink less x sorted) [] l).

Definition sampleRuntimeWith (clk : nat → Time) : Runtime := {|
  clock := clk;
  draw := λ k, k;
  rangeOrder := λ A m, map_to_list m;
  sort_Slice := insertionSort;
  ParseFloat := sampleParseFloat;
|}.

Definition sampleRuntime : Runtime := sampleRuntimeWith sampleClock.
Definition frozenRuntime : Runtime := sampleRuntimeWith frozenClock.

(** A geography with two bands: a node at the request's coordinates
    scores 2, every other node 0. *)
Definition sampleGeoScoring : GeoScoring := {|
  geoScores := λ nodes lat lon,
    map (λ node,
           mkScoredNode (Score node)
             (if SFeqb (GeoLatitude (sn_NodeMetrics node)) lat
                 && SFeqb (GeoLongitude (sn_NodeMetrics node)) lon then 2 else 0)
             (StreamScore node) (GeoDistance node) (sn_Node node) (sn_Streams node)
             (sn_IngestStreams node) (sn_NodeMetrics node)) nodes;
|}.

Definition world0 : World := mkWorld 0 0 0.

Definition second : Duration := 1000000000.

(** Metrics of an idle node at the origin, last updated at [timestamp]. *)
Definition idleMetrics (timestamp : Time) : NodeMetrics :=
  mkNodeMetrics (float64_of_Z 10) (float64_of_Z 20) (float64_of_Z 30) (S754_zero false)
    (S754_zero false) (S754_zero false) timestamp.

Definition zeroEvent : NodeUpdateEvent :=
  mkNodeUpdateEvent "" "" (idleMetrics 0) "".

(** A store that answers every query with the given rows. *)
Definition storeOf (rs : list Row) : sql_DB := λ _, Ok (mkRows rs None).

(** A store that cannot be reached. *)
Definition brokenStore : sql_DB := λ _, Err (errorString "connection refused").

(** *** A sample fleet *)

Definition memberA : Member :=
  mkMember "node-a" {[ "node" := "media"; "dtsc" := "dtsc://node-a:4200" ]}.
Definition memberB : Member :=
  mkMember "node-b" {[ "node" := "media"; "dtsc" := "dtsc://node-b:4200" ]}.
Definition memberTest : Member :=
  mkMember "node-test" {[ "node" := "test"; "dtsc" := "dtsc://node-test:4200" ]}.

(** The balancer of node-a after the three members have joined, reading
    from the given store. *)
Definition balancerWith (db : option sql_DB) : CataBalancer :=
  (UpdateMembers (NewBalancer "node-a" (5 * second) (5 * second) db)
     [memberA; memberB; memberTest]).1.

(** What node-a and node-b published one second before the first reading
    of the sample clock. *)
Definition eventA : NodeUpdateEvent :=
  SetStreams (mkNodeUpdateEvent "nodeStats" "node-a" (idleMetrics (sampleClock 0 - second)) "")
    ["video+abc"] ["video+live"].
Definition eventB : NodeUpdateEvent :=
  SetStreams (mkNodeUpdateEvent "nodeStats" "node-b" (idleMetrics (sampleClock 0 - second)) "")
    [] [].

Definition sampleRows : list Row := [Decoded eventA; Decoded eventB].

(** Stats in which node-a has fresh metrics, a fresh stream and a stream
    that is exactly [timeout] old, and node-b metrics exactly [timeout]
    old, for the frozen clock and a timeout of five seconds. *)
Definition boundaryStats : stats :=
  mkStats
    {[ "node-a" := {[ "abc" := mkStream "video+abc" "abc" (frozenClock 0 - second);
                      "old" := mkStream "video+old" "old" (frozenClock 0 - 5 * second) ]} ]}
    ∅
    {[ "node-a" := idleMetrics (frozenClock 0 - second);
       "node-b" := idleMetrics (frozenClock 0 - 5 * second) ]}.

(** A balancer running on a node that is not itself a media node of the
    fleet. *)
Definition outsider (db : option sql_DB) : CataBalancer :=
  (UpdateMembers (NewBalancer "self" (5 * second) (5 * second) db)
     [memberA; memberB; memberTest]).1.

(** Rows of which the second is not the JSON of an event. *)
Definition undecodableRows : list Row :=
  [Decoded eventA; Undecodable (errorString "unexpected end of JSON input")].

(** The balancer of node-a reading the two sample rows, and what one
    refresh at the start of the sample clock leaves it with. *)
Definition sampleBalancer : CataBalancer := balancerWith (Some (storeOf sampleRows)).

Definition sampleStats : stats := (@RefreshNodes sampleRuntime sampleBalancer world0).1.1.

Definition sampleRefreshed : World := (@RefreshNodes sampleRuntime sampleBalancer world0).2.

(** A store whose result set breaks off after the two sample rows. *)
Definition interruptedStore : sql_DB :=
  λ _, Ok (mkRows sampleRows (Some (errorString "driver: bad connection"))).

(** Rows that are exactly five seconds old for the frozen clock. *)
Definition staleRows : list Row :=
  [Decoded (SetStreams (mkNodeUpdateEvent "nodeStats" "node-a"
                          (idleMetrics (frozenClock 0 - 5 * second)) "")
              ["video+abc"] []);
   Decoded (SetStreams (mkNodeUpdateEvent "nodeStats" "node-b"
                          (idleMetrics (frozenClock 0 - 6 * second)) "")
              [] ["video+live"])].

(** The candidates of the sample balancer after its refresh, and what
    the sample geography makes of them for a request from the origin. *)
Definition sampleCandidates : list ScoredNode :=
  (@createScoredNodes sampleRuntime sampleBalancer sampleStats sampleRefreshed).1.

Definition sampleScored : list ScoredNode :=
  @geoScores sampleGeoScoring sampleCandidates (S754_zero false) (S754_zero false).

Definition sampleBest : ScoredNode :=
  default (mkScoredNode 0 0 0 (S754_zero false) (mkNode "" "") ∅ ∅ (idleMetrics 0))
    (head sampleScored).

(** *** Two nodes ingesting the same stream *)




(** *** A row older than the ingest timeout *)



(** *** Several rows about one node *)





(** * Properties *)

(** ** Event codec *)

Section StringLemmas.
Implicit Types (s x y : string) (c sep : ascii) (l : list string).

Lemma Contains_app x y sep :
  strings.Contains (x +:+ y) sep = strings.Contains x sep || strings.Contains y sep.
Proof.
  induction x as [|c x IH]; simpl; [done|].
  rewrite IH. by destruct (Ascii.eqb c sep).
Qed.

Lemma Cut_app x y sep :
  strings.Contains x sep = false →
  strings.Cut (x +:+ String sep y) sep = (x, y, true).
Proof.
  induction x as [|c x IH]; simpl; intros Hx.
  - by rewrite Ascii.eqb_refl.
  - apply orb_false_iff in Hx as [Hc Hx]. rewrite Hc, (IH Hx). done.
Qed.

Lemma Split_nonempty s sep : strings.Split s sep ≠ [].
Proof.
  induction s as [|c s IH]; simpl; [done|].
  destruct (Ascii.eqb c sep); [done|]. by destruct (strings.Split s sep).
Qed.

Lemma Split_without_sep s sep :
  strings.Contains s sep = false → strings.Split s sep = [s].
Proof.
  induction s as [|c s IH]; simpl; [done|]. intros Hs.
  apply orb_false_iff in Hs as [Hc Hs]. by rewrite Hc, (IH Hs).
Qed.

Lemma Split_app x y sep :
  strings.Contains x sep = false →
  strings.Split (x +:+ String sep y) sep = x :: strings.Split y sep.
Proof.
  induction x as [|c x IH]; simpl; intros Hx.
  - by rewrite Ascii.eqb_refl.
  - apply orb_false_iff in Hx as [Hc Hx]. by rewrite Hc, (IH Hx).
Qed.

Lemma Join_cons2 x y l (sep : string) :
  strings.Join (x :: y :: l) sep = x +:+ sep +:+ strings.Join (y :: l) sep.
Proof. done. Qed.

Lemma Contains_Join l c :
  c ≠ pipe →
  Forall (λ s, strings.Contains s c = false) l →
  strings.Contains (strings.Join l "|") c = false.
Proof.
  intros Hc. induction 1 as [|x l Hx Hl IH]; [done|].
  destruct l as [|y l]; [done|].
  assert (strings.Contains "|" c = false) as Hsep.
  { cbn [strings.Contains]. rewrite orb_false_r. apply Ascii.eqb_neq. by intros <-. }
  by rewrite Join_cons2, !Contains_app, Hx, IH, Hsep.
Qed.

Lemma Split_Join l :
  Forall (λ s, strings.Contains s pipe = false) l → l ≠ [] →
  strings.Split (strings.Join l "|") pipe = l.
Proof.
  induction 1 as [|x l Hx Hl IH]; [done|]. intros _.
  destruct l as [|y l].
  - by apply Split_without_sep.
  - rewrite Join_cons2. change ("|" +:+ ?z) with (String pipe z).
    rewrite Split_app by done. f_equal. by apply IH.
Qed.

Lemma Join_empty l : strings.Join l "|" = "" → l = [] ∨ l = [""].
Proof.
  destruct l as [|x [|y l]]; [by left| |].
  - simpl. intros ->. by right.
  - rewrite Join_cons2. by destruct x.
Qed.

(** Decoding one side of the encoding. *)
Lemma decode_Join l :
  Forall (λ s, strings.Contains s pipe = false) l → l ≠ [""] →
  (if (0 <? String.length (strings.Join l "|"))%nat
   then strings.Split (strings.Join l "|") pipe else []) = l.
Proof.
  intros Hl Hne. destruct (strings.Join l "|") eqn:E.
  - simpl. by destruct (Join_empty l E).
  - change (0 <? String.length (String a s))%nat with true. cbv iota.
    rewrite <- E. apply Split_Join; [done|]. by intros ->.
Qed.

End StringLemmas.

(** C1 (as amended). Encoding two lists of stream IDs that are free of the
    separators "|" and "~" and decoding them again gives the two lists
    back, the empty list included, unless a list is the one-element list
    holding the empty string (which decodes as the empty list). *)
Theorem streams_roundtrip (n : NodeUpdateEvent) (a b : list string) :
  Forall noSeparator a → Forall noSeparator b → a ≠ [""] → b ≠ [""] →
  GetStreams (SetStreams n a b) = a ∧ GetIngestStreams (SetStreams n a b) = b.
Proof.
  intros Ha Hb Hna Hnb.
  assert (Hcut : strings.Cut (ev_Streams (SetStreams n a b)) tilde
                 = (strings.Join a "|", strings.Join b "|", true)).
  { simpl. apply Cut_app, Contains_Join; [done|].
    eapply Forall_impl; [exact Ha|]. by intros s [_ ?]. }
  unfold GetStreams, GetIngestStreams. rewrite Hcut.
  split; apply decode_Join; try done.
  - eapply Forall_impl; [exact Ha|]. by intros s [? _].
  - eapply Forall_impl; [exact Hb|]. by intros s [? _].
Qed.

Lemma streams_roundtrip_witness :
  GetStreams (SetStreams zeroEvent ["video+abc"; "def"] []) = ["video+abc"; "def"]
  ∧ GetIngestStreams (SetStreams zeroEvent ["video+abc"; "def"] []) = [].
Proof.
  apply (streams_roundtrip zeroEvent ["video+abc"; "def"] []).
  - repeat constructor.
  - constructor.
  - discriminate.
  - discriminate.
Defined.

(** C1 fails as stated: the list holding just the empty string has no
    separator in it, is encoded as the empty segment and decoded as the
    empty list. *)
Lemma roundtrip_loses_single_empty_id :
  Forall noSeparator [""]
  ∧ GetStreams (SetStreams zeroEvent [""] []) = []
  ∧ GetStreams (SetStreams zeroEvent [""] []) ≠ [""]
  ∧ GetIngestStreams (SetStreams zeroEvent [] [""]) ≠ [""].
Proof. repeat split; try done. repeat constructor. Qed.

(** ** Load score *)

Section Float64.
Implicit Types x y : float64.

Lemma SFcompare_antisym x y :
  SFcompare y x = CompOpp <$> SFcompare x y.
Proof.
  destruct x as [sx|sx| |sx mx ex], y as [sy|sy| |sy my ey]; simpl;
    try done; try (by destruct sx, sy); try (by destruct sx); try (by destruct sy).
  destruct sx, sy; simpl; try done; f_equal.
  all: rewrite (Z.compare_antisym ey ex);
    destruct (ey ?= ex); simpl; try done;
    by rewrite (Pos.compare_cont_antisym mx my Eq).
Qed.

(** A value that is at most [y] does not exceed [y]. *)
Lemma float64_le_not_gt x y : float64_le x y = true → float64_gt x y = false.
Proof.
  unfold float64_le, float64_gt, SFleb, SFltb.
  rewrite (SFcompare_antisym x y).
  by destruct (SFcompare x y) as [[]|].
Qed.

Lemma float64_of_50 : float64_of_Z 50 = S754_finite false 7036874417766400 (-47).
Proof. vm_compute. reflexivity. Qed.

Lemma float64_of_85 : float64_of_Z 85 = S754_finite false 5981343255101440 (-46).
Proof. vm_compute. reflexivity. Qed.

Lemma float64_86_gt_85 : float64_gt (float64_of_Z 86) (float64_of_Z 85) = true.
Proof. vm_compute. reflexivity. Qed.

(** A value that is at most 50 does not exceed 85. *)
Lemma float64_le_50_not_gt_85 x :
  float64_le x (float64_of_Z 50) = true → float64_gt x (float64_of_Z 85) = false.
Proof.
  rewrite float64_of_50, float64_of_85.
  destruct x as [[]|[]| |[] m e]; try done.
  cbv [float64_le float64_gt SFleb SFltb SFcompare].
  destruct (e ?= -47) eqn:E; try done.
  - apply Z.compare_eq in E as ->. done.
  - assert (e < -47) as Hlt by (by apply Z.compare_lt_iff).
    assert (((-46) ?= e) = Gt) as -> by (apply Z.compare_gt_iff; lia). done.
Qed.

End Float64.

(** C9. The load score is 0 as soon as the CPU, RAM or bandwidth usage
    exceeds 85, else 1 as soon as one of them exceeds 50, else 2. With
    all three at most 50 it is 2, and with exactly 86 on one axis it is 0. *)
Theorem GetLoadScore_thresholds (n : ScoredNode) :
  let cpu := CPUUsagePercentage (sn_NodeMetrics n) in
  let ram := RAMUsagePercentage (sn_NodeMetrics n) in
  let bw := BandwidthUsagePercentage (sn_NodeMetrics n) in
  let exceeds (x : float64) (limit : Z) := float64_gt x (float64_of_Z limit) = true in
  let over limit := exceeds cpu limit ∨ exceeds ram limit ∨ exceeds bw limit in
  (over 85 → GetLoadScore n = 0)
  ∧ (¬ over 85 → over 50 → GetLoadScore n = 1)
  ∧ (¬ over 85 → ¬ over 50 → GetLoadScore n = 2)
  ∧ (float64_le cpu (float64_of_Z 50) = true → float64_le ram (float64_of_Z 50) = true →
     float64_le bw (float64_of_Z 50) = true → GetLoadScore n = 2)
  ∧ (cpu = float64_of_Z 86 ∨ ram = float64_of_Z 86 ∨ bw = float64_of_Z 86 →
     GetLoadScore n = 0).
Proof.
  intros cpu ram bw exceeds over.
  assert (Hover : ∀ limit,
    float64_gt cpu (float64_of_Z limit) || float64_gt bw (float64_of_Z limit)
      || float64_gt ram (float64_of_Z limit) = true ↔ over limit).
  { intros limit. unfold over, exceeds. rewrite !orb_true_iff. tauto. }
  assert (H85 : over 85 → GetLoadScore n = 0).
  { intros Ho. apply Hover in Ho. unfold GetLoadScore. fold cpu bw ram. by rewrite Ho. }
  assert (Hnot : ∀ limit, ¬ over limit →
    float64_gt cpu (float64_of_Z limit) || float64_gt bw (float64_of_Z limit)
      || float64_gt ram (float64_of_Z limit) = false).
  { intros limit Hn. apply not_true_is_false. by rewrite Hover. }
  assert (H2 : ¬ over 85 → ¬ over 50 → GetLoadScore n = 2).
  { intros Hn85 Hn50. unfold GetLoadScore. fold cpu bw ram.
    by rewrite (Hnot 85 Hn85), (Hnot 50 Hn50). }
  assert (Hmono : ∀ x, float64_le x (float64_of_Z 50) = true →
                       ¬ exceeds x 85 ∧ ¬ exceeds x 50).
  { intros x Hx. unfold exceeds. split; apply not_true_iff_false.
    - by apply float64_le_50_not_gt_85.
    - by apply float64_le_not_gt. }
  repeat split; try done.
  - intros Hn85 Ho. apply Hover in Ho. unfold GetLoadScore. fold cpu bw ram.
    by rewrite (Hnot 85 Hn85), Ho.
  - intros Hc Hr Hb. apply Hmono in Hc as [??], Hr as [??], Hb as [??].
    apply H2; unfold over; tauto.
  - intros Heq. apply H85. unfold over, exceeds.
    destruct Heq as [-> | [-> | ->]]; [left|right; left|right; right];
      apply float64_86_gt_85.
Qed.

Example load_score_of_idle_node :
  GetLoadScore (mkScoredNode 0 0 0 (S754_zero false) (mkNode "a" "") ∅ ∅ (idleMetrics 0)) = 2.
Proof. vm_compute. reflexivity. Qed.

(** ** Node registry *)

Section Registry.
Implicit Types (members : list Member) (nodes : gmap string Node) (name : string).

Lemma isMedia_eqb member :
  negb (String.eqb (index (Tags member) "node") "media") = false ↔ isMedia member.
Proof.
  unfold isMedia. rewrite negb_false_iff. apply String.eqb_eq.
Qed.

(** What the loop leaves under a name: the entry of the last media member
    of that name, or what was there before when there is none. *)
Lemma collectMembers_lookup members nodes name :
  collectMembers members nodes !! name =
    match last (filter (λ m, isMedia m ∧ Member_Name m = name) members) with
    | Some member => Some (toNode member)
    | None => nodes !! name
    end.
Proof.
  revert nodes. induction members as [|m members IH]; intros nodes; [done|].
  cbn [collectMembers]. rewrite filter_cons.
  destruct (negb _) eqn:Hm.
  - rewrite IH. rewrite decide_False; [done|].
    intros [Hmedia _]. apply isMedia_eqb in Hmedia. congruence.
  - apply isMedia_eqb in Hm. rewrite IH.
    destruct (decide (Member_Name m = name)) as [<-|Hne].
    + rewrite decide_True by (by split). rewrite last_cons.
      destruct (last _); [done|]. by rewrite lookup_insert_eq.
    + rewrite decide_False by (intros [_ ?]; done).
      destruct (last _); [done|]. by rewrite lookup_insert_ne.
Qed.

Lemma last_filter_elem {A} (P : A → Prop) `{!∀ x, Decision (P x)} (l : list A) x :
  last (filter P l) = Some x → x ∈ l ∧ P x.
Proof.
  intros Hlast. apply last_Some_elem_of in Hlast.
  by apply list_elem_of_filter in Hlast as [??].
Qed.

Lemma last_filter_is_Some {A} (P : A → Prop) `{!∀ x, Decision (P x)} (l : list A) x :
  x ∈ l → P x → is_Some (last (filter P l)).
Proof.
  intros Hx HP. assert (x ∈ filter P l) as Hin by by apply list_elem_of_filter.
  destruct (filter P l) as [|y l'] eqn:E using rev_ind.
  - by apply elem_of_nil in Hin.
  - rewrite last_snoc. by eexists.
Qed.

Lemma NoDup_fmap_elem_inj {A B} (f : A → B) (l : list A) x y :
  NoDup (f <$> l) → x ∈ l → y ∈ l → f x = f y → x = y.
Proof.
  induction l as [|z l IH]; intros Hnd Hx Hy Hf; [by apply elem_of_nil in Hx|].
  rewrite fmap_cons in Hnd. apply NoDup_cons in Hnd as [Hz Hnd].
  apply elem_of_cons in Hx as [->|Hx], Hy as [->|Hy]; try done.
  - destruct Hz. rewrite Hf. by apply list_elem_of_fmap_2.
  - destruct Hz. rewrite <- Hf. by apply list_elem_of_fmap_2.
  - by apply IH.
Qed.

End Registry.

(** C7. [UpdateMembers] replaces the node set by exactly the members
    tagged "node" = "media", each under its name with its "dtsc" tag as
    address (the last one when several share a name): a member without
    that tag value brings no entry, and nothing of the previous set
    survives. *)
Theorem UpdateMembers_replaces_registry (c : CataBalancer) (members : list Member) :
  let c' := (UpdateMembers c members).1 in
  (UpdateMembers c members).2 = None
  ∧ NodeName c' = NodeName c
  ∧ metricTimeout c' = metricTimeout c
  ∧ ingestStreamTimeout c' = ingestStreamTimeout c
  ∧ (∀ name, Nodes c' !! name =
       toNode <$> last (filter (λ m, isMedia m ∧ Member_Name m = name) members))
  ∧ (∀ name node, Nodes c' !! name = Some node →
       Name node = name
       ∧ ∃ member, member ∈ members ∧ isMedia member ∧ node = toNode member)
  ∧ (∀ member, member ∈ members → isMedia member →
       ∃ node, Nodes c' !! Member_Name member = Some node ∧ Name node = Member_Name member)
  ∧ (∀ name, (∀ member, member ∈ members → isMedia member → Member_Name member ≠ name) →
       Nodes c' !! name = None)
  ∧ (NoDup (Member_Name <$> members) → ∀ member, member ∈ members → isMedia member →
       Nodes c' !! Member_Name member = Some (toNode member)).
Proof.
  intros c'.
  assert (Hlookup : ∀ name, Nodes c' !! name =
    toNode <$> last (filter (λ m, isMedia m ∧ Member_Name m = name) members)).
  { intros name. unfold c', UpdateMembers. cbn [fst Nodes].
    rewrite collectMembers_lookup. by destruct (last _). }
  assert (Hsome : ∀ name node, Nodes c' !! name = Some node →
    Name node = name ∧ ∃ member, member ∈ members ∧ isMedia member ∧ node = toNode member).
  { intros name node. rewrite Hlookup.
    destruct (last _) as [m|] eqn:E; [|done]. intros [= <-].
    apply last_filter_elem in E as [Hin [Hmedia Hname]]. split; [done|]. by exists m. }
  assert (Hpresent : ∀ member, member ∈ members → isMedia member →
    ∃ node, Nodes c' !! Member_Name member = Some node ∧ Name node = Member_Name member).
  { intros m Hin Hmedia.
    destruct (last_filter_is_Some (λ m', isMedia m' ∧ Member_Name m' = Member_Name m)
                members m Hin (conj Hmedia eq_refl)) as [m' E].
    exists (toNode m'). rewrite Hlookup, E. split; [done|].
    by apply last_filter_elem in E as [_ [_ ?]]. }
  split_and!; try done.
  - intros name Hnone. rewrite Hlookup.
    destruct (last _) as [m|] eqn:E; [|done].
    apply last_filter_elem in E as [Hin [Hmedia Hname]]. by destruct (Hnone m).
  - intros Hnodup m Hin Hmedia. rewrite Hlookup.
    destruct (last_filter_is_Some (λ m', isMedia m' ∧ Member_Name m' = Member_Name m)
                members m Hin (conj Hmedia eq_refl)) as [m' E].
    rewrite E. cbn. do 2 f_equal.
    apply last_filter_elem in E as [Hin' [_ Hname]].
    by apply (NoDup_fmap_elem_inj Member_Name members).
Qed.

(** ** Clock, staleness and the loops over maps *)

Section Staleness.
Context `{Runtime} `{GeoScoring}.
Implicit Types (w : World) (c : CataBalancer) (s : stats) (k : nat).

Lemma isStale_run timestamp timeout w :
  isStale timestamp timeout w
  = (expired (clock (clockReads w)) timestamp timeout, afterReading w).
Proof. reflexivity. Qed.

(** [time.Since] against the subtraction it saturates. *)
Lemma time_Since_cases now timestamp :
  (now - timestamp < minDuration ∧ time_Since now timestamp = minDuration)
  ∨ (maxDuration < now - timestamp ∧ time_Since now timestamp = maxDuration)
  ∨ (minDuration ≤ now - timestamp ≤ maxDuration
     ∧ time_Since now timestamp = now - timestamp).
Proof.
  unfold time_Since, time_Sub.
  destruct (Z.ltb_spec (now - timestamp) minDuration); [by left|].
  destruct (Z.ltb_spec maxDuration (now - timestamp)); [right; by left|].
  right; right. lia.
Qed.

Lemma expired_iff now timestamp timeout :
  validTimeout timeout →
  expired now timestamp timeout = true ↔ staleAt now timestamp timeout.
Proof.
  unfold validTimeout, expired, staleAt. intros [Hmin Hmax].
  rewrite Z.leb_le.
  destruct (time_Since_cases now timestamp) as [[? ->]|[[? ->]|[[??] ->]]]; lia.
Qed.

Lemma not_expired_iff now timestamp timeout :
  validTimeout timeout →
  expired now timestamp timeout = false ↔ now - timeout < timestamp.
Proof.
  intros Hv. rewrite <- not_true_iff_false, (expired_iff _ _ _ Hv).
  unfold staleAt. lia.
Qed.

Lemma readDuring_widen w0 w1 w2 w3 k :
  (clockReads w0 ≤ clockReads w1)%nat → (clockReads w2 ≤ clockReads w3)%nat →
  readDuring w1 w2 k → readDuring w0 w3 k.
Proof. unfold readDuring. lia. Qed.

Lemma readDuring_first w w' :
  (clockReads (afterReading w) ≤ clockReads w')%nat → readDuring w w' (clockReads w).
Proof. unfold readDuring. cbn. lia. Qed.

(** *** The copy of one node's streams *)

Lemma copyFreshStreams_cons c streamID stream rest streams w :
  copyFreshStreams c ((streamID, stream) :: rest) streams w
  = copyFreshStreams c rest
      (if expired (clock (clockReads w)) (Stream_Timestamp stream) (metricTimeout c)
       then streams else <[streamID := stream]> streams)
      (afterReading w).
Proof.
  cbn [copyFreshStreams]. unfold mbind, M_bind. rewrite isStale_run.
  by destruct (expired _ _ _).
Qed.

Lemma copyFreshStreams_world c entries streams w :
  (copyFreshStreams c entries streams w).2
  = mkWorld (clockReads w + length entries) (randDraws w) (storeQueries w).
Proof.
  revert streams w. induction entries as [|[streamID stream] rest IH]; intros streams w.
  - destruct w. cbn. f_equal. lia.
  - rewrite copyFreshStreams_cons, IH. cbn. f_equal. lia.
Qed.

(** Every stream of the copy was there before or is an entry that some
    reading of the clock found fresh. *)
Lemma copyFreshStreams_sound c entries streams w streamID stream :
  (copyFreshStreams c entries streams w).1 !! streamID = Some stream →
  streams !! streamID = Some stream
  ∨ ((streamID, stream) ∈ entries
     ∧ ∃ k, readDuring w (copyFreshStreams c entries streams w).2 k
            ∧ expired (clock k) (Stream_Timestamp stream) (metricTimeout c) = false).
Proof.
  revert streams w. induction entries as [|[id st] rest IH]; intros streams w; [by left|].
  rewrite copyFreshStreams_cons. intros Hlookup.
  apply IH in Hlookup as [Hbefore|[Hin (k & Hk & Hfresh)]].
  - destruct (expired _ _ _) eqn:E; [by left|].
    destruct (decide (id = streamID)) as [->|Hne].
    + rewrite lookup_insert_eq in Hbefore. injection Hbefore as ->.
      right. split; [by left|]. exists (clockReads w). split; [|done].
      apply readDuring_first. rewrite copyFreshStreams_world. cbn. lia.
    + rewrite lookup_insert_ne in Hbefore by done. by left.
  - right. split; [by right|]. exists k. split; [|done].
    eapply readDuring_widen; [| |exact Hk]; cbn; lia.
Qed.

(** A key that is not ranged over keeps what it had. *)
Lemma copyFreshStreams_other c entries streams w streamID :
  streamID ∉ entries.*1 →
  (copyFreshStreams c entries streams w).1 !! streamID = streams !! streamID.
Proof.
  revert streams w. induction entries as [|[id st] rest IH]; intros streams w Hnot; [done|].
  rewrite copyFreshStreams_cons. cbn in Hnot. apply not_elem_of_cons in Hnot as [Hne Hnot].
  rewrite IH by done. destruct (expired _ _ _); [done|]. by rewrite lookup_insert_ne.
Qed.

(** An entry that every reading of the clock finds fresh is copied. *)
Lemma copyFreshStreams_complete c entries streams w streamID stream :
  NoDup entries.*1 → (streamID, stream) ∈ entries →
  (∀ k, readDuring w (copyFreshStreams c entries streams w).2 k →
        expired (clock k) (Stream_Timestamp stream) (metricTimeout c) = false) →
  (copyFreshStreams c entries streams w).1 !! streamID = Some stream.
Proof.
  revert streams w. induction entries as [|[id st] rest IH]; intros streams w Hnd Hin Hfresh.
  { by apply elem_of_nil in Hin. }
  cbn in Hnd. apply NoDup_cons in Hnd as [Hnotin Hnd].
  rewrite copyFreshStreams_cons in *.
  apply elem_of_cons in Hin as [[= <- <-]|Hin].
  - rewrite copyFreshStreams_other by done.
    rewrite Hfresh; [by rewrite lookup_insert_eq|].
    apply readDuring_first. rewrite copyFreshStreams_world. cbn. lia.
  - apply IH; [done..|]. intros k Hk. apply Hfresh.
    eapply readDuring_widen; [| |exact Hk]; cbn; lia.
Qed.


(** *** The loop over the registry *)

Lemma scoreNodes_cons c s nodeName node rest nodesList w :
  scoreNodes c s ((nodeName, node) :: rest) nodesList w
  = match stats_NodeMetrics s !! nodeName with
    | None => scoreNodes c s rest nodesList w
    | Some metrics =>
        if expired (clock (clockReads w)) (Timestamp metrics) (metricTimeout c)
        then scoreNodes c s rest nodesList (afterReading w)
        else
          let copied := copyFreshStreams c
                          (rangeOrder (streamsOf (stats_Streams s) nodeName)) ∅
                          (afterReading w) in
          scoreNodes c s rest
            (nodesList ++ [mkScoredNode 0 0 0 (S754_zero false) node copied.1 ∅ metrics])
            copied.2
    end.
Proof.
  cbn [scoreNodes]. destruct (stats_NodeMetrics s !! nodeName) as [metrics|]; [|done].
  unfold mbind, M_bind. rewrite isStale_run.
  destruct (expired _ _ _); [done|].
  by destruct (copyFreshStreams _ _ _ _).
Qed.

Lemma scoreNodes_world c s entries nodesList w :
  (clockReads w ≤ clockReads (scoreNodes c s entries nodesList w).2)%nat
  ∧ randDraws (scoreNodes c s entries nodesList w).2 = randDraws w
  ∧ storeQueries (scoreNodes c s entries nodesList w).2 = storeQueries w.
Proof.
  revert nodesList w. induction entries as [|[name node] rest IH]; intros nodesList w.
  { cbn. lia. }
  rewrite scoreNodes_cons.
  destruct (stats_NodeMetrics s !! name) as [metrics|]; [|apply IH].
  destruct (expired _ _ _).
  - destruct (IH nodesList (afterReading w)) as (? & -> & ->). cbn in *. lia.
  - cbv zeta. match goal with |- context [scoreNodes c s rest ?l ?w'] =>
      destruct (IH l w') as (Hreads & -> & ->) end.
    rewrite copyFreshStreams_world in *. cbn in *. lia.
Qed.

Lemma scoredBetween_widen c s w0 w1 w2 w3 name node scored :
  (clockReads w0 ≤ clockReads w1)%nat → (clockReads w2 ≤ clockReads w3)%nat →
  scoredBetween c s w1 w2 name node scored → scoredBetween c s w0 w3 name node scored.
Proof.
  intros H01 H23 (metrics & Hm & Hn & Hnm & Hi & Hs & Hg & Hss & Hfresh & Hsound & Hcompl).
  exists metrics. split_and!; try done.
  - destruct Hfresh as (k & Hk & ?). exists k. split; [|done].
    by eapply readDuring_widen.
  - intros id st Hst. destruct (Hsound id st Hst) as (Hin & k & Hk & ?).
    split; [done|]. exists k. split; [|done]. by eapply readDuring_widen.
  - intros Hnd id st Hin Hall. apply Hcompl; [done..|].
    intros k Hk. apply Hall. by eapply readDuring_widen.
Qed.

(** Every candidate of the result was there before or stands for an
    entry of the registry. *)
Lemma scoreNodes_sound c s entries nodesList w scored :
  scored ∈ (scoreNodes c s entries nodesList w).1 →
  scored ∈ nodesList
  ∨ ∃ name node, (name, node) ∈ entries
      ∧ scoredBetween c s w (scoreNodes c s entries nodesList w).2 name node scored.
Proof.
  revert nodesList w. induction entries as [|[name node] rest IH]; intros nodesList w.
  { intros ?. by left. }
  rewrite scoreNodes_cons.
  destruct (stats_NodeMetrics s !! name) as [metrics|] eqn:Hm.
  2:{ intros Hin. apply IH in Hin as [?|(n & nd & ? & ?)]; [by left|].
      right. exists n, nd. split; [by right|done]. }
  destruct (expired _ _ _) eqn:Hexp.
  { intros Hin. apply IH in Hin as [?|(n & nd & ? & Hsb)]; [by left|].
    right. exists n, nd. split; [by right|].
    eapply scoredBetween_widen; [| |exact Hsb]; cbn; lia. }
  cbv zeta. set (entriesOf := rangeOrder (streamsOf (stats_Streams s) name)).
  set (copied := copyFreshStreams c entriesOf ∅ (afterReading w)).
  intros Hin. pose proof (scoreNodes_world c s rest
    (nodesList ++ [mkScoredNode 0 0 0 (S754_zero false) node copied.1 ∅ metrics])
    copied.2) as (Hreads & _ & _).
  assert (Hcopied : clockReads copied.2 = (S (clockReads w) + length entriesOf)%nat).
  { unfold copied. by rewrite copyFreshStreams_world. }
  apply IH in Hin as [Hin|(n & nd & ? & Hsb)].
  - apply elem_of_app in Hin as [?|Hin]; [by left|].
    apply list_elem_of_singleton in Hin as ->.
    right. exists name, node. split; [by left|].
    exists metrics. cbn. split_and!; try done.
    + exists (clockReads w). split; [|done]. unfold readDuring. lia.
    + intros id st Hst.
      apply copyFreshStreams_sound in Hst as [Hst|(Hst & k & Hk & Hfresh)]; [done|].
      split; [done|]. exists k. split; [|done].
      eapply readDuring_widen; [| |exact Hk]; [cbn; lia|exact Hreads].
    + intros Hnd id st Hst Hall. apply copyFreshStreams_complete; [done..|].
      intros k Hk. apply Hall.
      eapply readDuring_widen; [| |exact Hk]; [cbn; lia|exact Hreads].
  - right. exists n, nd. split; [by right|].
    eapply scoredBetween_widen; [| |exact Hsb]; [|lia]. rewrite Hcopied. lia.
Qed.

(** The candidates that were there stay, in front. *)
Lemma scoreNodes_prefix c s entries nodesList w :
  nodesList `prefix_of` (scoreNodes c s entries nodesList w).1.
Proof.
  revert nodesList w. induction entries as [|[name node] rest IH]; intros nodesList w; [done|].
  rewrite scoreNodes_cons.
  destruct (stats_NodeMetrics s !! name) as [metrics|]; [|apply IH].
  destruct (expired _ _ _); [apply IH|]. cbv zeta.
  etrans; [|apply IH]. by apply prefix_app_r.
Qed.

(** An entry whose metrics every reading of the clock finds fresh gets a
    candidate. *)
Lemma scoreNodes_complete c s entries nodesList w name node metrics :
  (name, node) ∈ entries →
  stats_NodeMetrics s !! name = Some metrics →
  (∀ k, readDuring w (scoreNodes c s entries nodesList w).2 k →
        expired (clock k) (Timestamp metrics) (metricTimeout c) = false) →
  ∃ scored, scored ∈ (scoreNodes c s entries nodesList w).1
    ∧ scoredBetween c s w (scoreNodes c s entries nodesList w).2 name node scored.
Proof.
  revert nodesList w. induction entries as [|[n nd] rest IH]; intros nodesList w Hin Hm Hfresh.
  { by apply elem_of_nil in Hin. }
  rewrite scoreNodes_cons in *.
  apply elem_of_cons in Hin as [[= <- <-]|Hin].
  - rewrite Hm in *.
    assert (expired (clock (clockReads w)) (Timestamp metrics) (metricTimeout c) = false)
      as Hnow.
    { apply Hfresh. destruct (expired _ _ _).
      - pose proof (scoreNodes_world c s rest nodesList (afterReading w)) as (? & _ & _).
        unfold readDuring. cbn in *. lia.
      - cbv zeta. match goal with |- context [scoreNodes c s rest ?l ?w'] =>
          pose proof (scoreNodes_world c s rest l w') as (? & _ & _) end.
        rewrite copyFreshStreams_world in *. unfold readDuring. cbn in *. lia. }
    rewrite Hnow in *. cbv zeta in *.
    set (entriesOf := rangeOrder (streamsOf (stats_Streams s) name)) in *.
    set (copied := copyFreshStreams c entriesOf ∅ (afterReading w)) in *.
    set (scored := mkScoredNode 0 0 0 (S754_zero false) node copied.1 ∅ metrics) in *.
    pose proof (scoreNodes_world c s rest (nodesList ++ [scored]) copied.2) as (Hreads & _ & _).
    assert (Hcopied : clockReads copied.2 = (S (clockReads w) + length entriesOf)%nat).
    { unfold copied. by rewrite copyFreshStreams_world. }
    exists scored. split.
    + eapply elem_of_prefix; [|apply scoreNodes_prefix].
      apply elem_of_app. right. by apply list_elem_of_singleton.
    + exists metrics. cbn. split_and!; try done.
      * exists (clockReads w). split; [|done]. unfold readDuring. lia.
      * intros id st Hst.
        apply copyFreshStreams_sound in Hst as [Hst|(Hst & k & Hk & Hf)]; [done|].
        split; [done|]. exists k. split; [|done].
        eapply readDuring_widen; [| |exact Hk]; [cbn; lia|exact Hreads].
      * intros Hnd id st Hst Hall. apply copyFreshStreams_complete; [done..|].
        intros k Hk. apply Hall.
        eapply readDuring_widen; [| |exact Hk]; [cbn; lia|exact Hreads].
  - destruct (stats_NodeMetrics s !! n) as [m|] eqn:Hn; [|by apply IH].
    destruct (expired (clock (clockReads w)) (Timestamp m) (metricTimeout c)).
    + destruct (IH nodesList (afterReading w) Hin Hm) as (scored & ? & Hsb).
      { intros k Hk. apply Hfresh. eapply readDuring_widen; [| |exact Hk]; cbn; lia. }
      exists scored. split; [done|].
      eapply scoredBetween_widen; [| |exact Hsb]; cbn; lia.
    + cbv zeta in *.
      set (copied := copyFreshStreams c _ ∅ (afterReading w)) in *.
      assert (Hcopied : (clockReads w ≤ clockReads copied.2)%nat).
      { unfold copied. rewrite copyFreshStreams_world. cbn. lia. }
      match goal with |- context [scoreNodes c s rest ?l copied.2] =>
        destruct (IH l copied.2 Hin Hm) as (scored & ? & Hsb) end.
      { intros k Hk. apply Hfresh. eapply readDuring_widen; [| |exact Hk]; [done|lia]. }
      exists scored. split; [done|].
      eapply scoredBetween_widen; [| |exact Hsb]; [done|lia].
Qed.

End Staleness.

(** ** Staleness in scoring *)

Section Scoring.
Context `{Runtime} `{GeoScoring}.
Implicit Types (w : World) (c : CataBalancer) (s : stats) (k : nat).

Lemma rangeOrder_elem {A} (m : gmap string A) key x :
  rangeLaw → (key, x) ∈ rangeOrder m ↔ m !! key = Some x.
Proof. intros Hlaw. rewrite (Hlaw A m). apply elem_of_map_to_list. Qed.

Lemma rangeOrder_NoDup {A} (m : gmap string A) :
  rangeLaw → NoDup (rangeOrder m).*1.
Proof. intros Hlaw. rewrite (Hlaw A m). apply NoDup_fst_map_to_list. Qed.

Lemma rangeOrder_empty {A} (m : gmap string A) :
  rangeLaw → m = ∅ → rangeOrder m = [].
Proof.
  intros Hlaw ->. apply Permutation_nil_r. by rewrite (Hlaw A ∅), map_to_list_empty.
Qed.

(** The candidates of [createScoredNodes] are the registry entries with
    metrics, as far as the readings of the clock decide. *)
Lemma createScoredNodes_sound c s w scored :
  rangeLaw →
  scored ∈ (createScoredNodes c s w).1 →
  ∃ name, Nodes c !! name = Some (sn_Node scored)
    ∧ scoredBetween c s w (createScoredNodes c s w).2 name (sn_Node scored) scored.
Proof.
  intros Hlaw Hin. apply scoreNodes_sound in Hin as [Hin|(name & node & Hin & Hsb)].
  { by apply elem_of_nil in Hin. }
  exists name. apply rangeOrder_elem in Hin; [|done].
  destruct Hsb as (metrics & Hm & <- & Hrest). split; [done|].
  exists metrics. split; [done|]. split; [done|]. exact Hrest.
Qed.

Lemma createScoredNodes_complete c s w name node metrics :
  rangeLaw →
  Nodes c !! name = Some node →
  stats_NodeMetrics s !! name = Some metrics →
  (∀ k, readDuring w (createScoredNodes c s w).2 k →
        expired (clock k) (Timestamp metrics) (metricTimeout c) = false) →
  ∃ scored, scored ∈ (createScoredNodes c s w).1
    ∧ scoredBetween c s w (createScoredNodes c s w).2 name node scored.
Proof.
  intros Hlaw Hnode Hm Hfresh.
  apply scoreNodes_complete with (metrics := metrics); [|done..].
  by apply rangeOrder_elem.
Qed.

End Scoring.

(** C8. [isStale] answers true exactly when the timestamp is [now -
    timeout] or older, [now] being the clock reading it takes. In
    [createScoredNodes], a registered node whose metrics are stale at
    every reading of the clock taken during the call gets no candidate,
    and a stream that is stale at every such reading is in no candidate's
    streams; a node whose metrics are younger than the timeout at every
    such reading gets a candidate, which holds each of its streams that
    is younger than the timeout at every such reading. *)
Theorem staleness_is_inclusive_at_the_boundary `{Runtime} `{GeoScoring}
    (c : CataBalancer) (s : stats) (w : World) :
  rangeLaw →
  validTimeout (metricTimeout c) →
  let timeout := metricTimeout c in
  let scoredNodes := (createScoredNodes c s w).1 in
  let during k := readDuring w (createScoredNodes c s w).2 k in
  (∀ timestamp w0, (isStale timestamp timeout w0).1 = true
                   ↔ timestamp ≤ clock (clockReads w0) - timeout)
  ∧ (∀ timestamp w0, timestamp = clock (clockReads w0) - timeout →
                     (isStale timestamp timeout w0).1 = true)
  ∧ (∀ scored, scored ∈ scoredNodes →
       ∃ name, Nodes c !! name = Some (sn_Node scored)
         ∧ stats_NodeMetrics s !! name = Some (sn_NodeMetrics scored)
         ∧ (∃ k, during k ∧ ¬ staleAt (clock k) (Timestamp (sn_NodeMetrics scored)) timeout)
         ∧ ∀ streamID stream, sn_Streams scored !! streamID = Some stream →
             streamsOf (stats_Streams s) name !! streamID = Some stream
             ∧ ∃ k, during k ∧ ¬ staleAt (clock k) (Stream_Timestamp stream) timeout)
  ∧ (wellKeyed (Nodes c) → ∀ name node metrics,
       Nodes c !! name = Some node → stats_NodeMetrics s !! name = Some metrics →
       (∀ k, during k → staleAt (clock k) (Timestamp metrics) timeout) →
       ∀ scored, scored ∈ scoredNodes → Name (sn_Node scored) ≠ name)
  ∧ (∀ scored streamID stream, scored ∈ scoredNodes →
       (∀ k, during k → staleAt (clock k) (Stream_Timestamp stream) timeout) →
       sn_Streams scored !! streamID ≠ Some stream)
  ∧ (∀ name node metrics,
       Nodes c !! name = Some node → stats_NodeMetrics s !! name = Some metrics →
       (∀ k, during k → clock k - timeout < Timestamp metrics) →
       ∃ scored, scored ∈ scoredNodes
         ∧ sn_Node scored = node ∧ sn_NodeMetrics scored = metrics
         ∧ ∀ streamID stream,
             streamsOf (stats_Streams s) name !! streamID = Some stream →
             (∀ k, during k → clock k - timeout < Stream_Timestamp stream) →
             sn_Streams scored !! streamID = Some stream).
Proof.
  intros Hlaw Hvalid timeout scoredNodes during.
  assert (Hsound : ∀ scored, scored ∈ scoredNodes →
    ∃ name, Nodes c !! name = Some (sn_Node scored)
      ∧ stats_NodeMetrics s !! name = Some (sn_NodeMetrics scored)
      ∧ (∃ k, during k ∧ ¬ staleAt (clock k) (Timestamp (sn_NodeMetrics scored)) timeout)
      ∧ ∀ streamID stream, sn_Streams scored !! streamID = Some stream →
          streamsOf (stats_Streams s) name !! streamID = Some stream
          ∧ ∃ k, during k ∧ ¬ staleAt (clock k) (Stream_Timestamp stream) timeout).
  { intros scored Hin.
    destruct (createScoredNodes_sound c s w scored Hlaw Hin)
      as (name & Hnode & metrics & Hm & _ & <- & _ & _ & _ & _ & Hfresh & Hstreams & _).
    exists name. split_and!; try done.
    - destruct Hfresh as (k & Hk & Hf). exists k. split; [done|].
      intros Hs. apply (expired_iff _ _ _ Hvalid) in Hs. congruence.
    - intros id st Hst. destruct (Hstreams id st Hst) as (Hin' & k & Hk & Hf).
      split; [by apply rangeOrder_elem in Hin'|]. exists k. split; [done|].
      intros Hs. apply (expired_iff _ _ _ Hvalid) in Hs. congruence. }
  split_and!; try done.
  - intros timestamp w0. rewrite isStale_run. cbn [fst].
    apply (expired_iff _ _ _ Hvalid).
  - intros timestamp w0 ->. rewrite isStale_run. cbn [fst].
    apply (expired_iff _ _ _ Hvalid). unfold staleAt. lia.
  - intros Hkeyed name node metrics Hnode Hm Hstale scored Hin Hname.
    destruct (Hsound scored Hin) as (name' & Hnode' & Hm' & (k & Hk & Hfresh) & _).
    apply Hkeyed in Hnode' as Hkey. rewrite Hname in Hkey. subst name'.
    rewrite Hm in Hm'. injection Hm' as Heq. rewrite <- Heq in Hfresh.
    by apply Hfresh, Hstale.
  - intros scored id st Hin Hstale Hst.
    destruct (Hsound scored Hin) as (name & _ & _ & _ & Hstreams).
    destruct (Hstreams id st Hst) as (_ & k & Hk & Hfresh). by apply Hfresh, Hstale.
  - intros name node metrics Hnode Hm Hfresh.
    destruct (createScoredNodes_complete c s w name node metrics Hlaw Hnode Hm)
      as (scored & Hin & m' & Hm' & Hn & Hnm & _ & _ & _ & _ & _ & _ & Hcomplete).
    { intros k Hk. apply (not_expired_iff _ _ _ Hvalid). by apply Hfresh. }
    rewrite Hm in Hm'. injection Hm' as <-.
    exists scored. split_and!; try done.
    intros id st Hst Hyoung. apply Hcomplete.
    + by apply rangeOrder_NoDup.
    + by apply rangeOrder_elem.
    + intros k Hk. apply (not_expired_iff _ _ _ Hvalid). by apply Hyoung.
Qed.

(** ** Selection *)

Section Selection.
Context `{Runtime} `{GeoScoring}.
Implicit Types (w : World) (c : CataBalancer) (s : stats) (l nodes : list ScoredNode).

Lemma swap_Permutation l i j : swap l i j ≡ₚ l.
Proof.
  unfold swap. destruct (l !! i) as [x|] eqn:Hi; [|done].
  destruct (l !! j) as [y|] eqn:Hj; [|done].
  by apply Permutation_insert_swap.
Qed.

Lemma shuffleFrom_cons i l w :
  shuffleFrom (S i) l w
  = shuffleFrom i (swap l (S i) (draw (randDraws w) `mod` S (S i)))
      (mkWorld (clockReads w) (S (randDraws w)) (storeQueries w)).
Proof. reflexivity. Qed.

Lemma shuffleFrom_Permutation i l w : (shuffleFrom i l w).1 ≡ₚ l.
Proof.
  revert l w. induction i as [|i IH]; intros l w; [done|].
  rewrite shuffleFrom_cons, IH. apply swap_Permutation.
Qed.

Lemma shuffleFrom_world i l w :
  (shuffleFrom i l w).2 = mkWorld (clockReads w) (randDraws w + i) (storeQueries w).
Proof.
  revert l w. induction i as [|i IH]; intros l w.
  - destruct w. cbn. f_equal. lia.
  - rewrite shuffleFrom_cons, IH. cbn. f_equal. lia.
Qed.

Lemma shuffle_Permutation l w : (shuffle l w).1 ≡ₚ l.
Proof. apply shuffleFrom_Permutation. Qed.

Lemma truncateReturned_take l n : truncateReturned l n = take n l.
Proof.
  unfold truncateReturned. destruct (Nat.ltb_spec (length l) n); [|done].
  rewrite take_ge; [done|lia].
Qed.

Lemma truncateReturned_elem l n x : x ∈ truncateReturned l n → x ∈ l.
Proof. rewrite truncateReturned_take. apply subseteq_take. Qed.

Lemma weigh_Node streamID node : sn_Node (weigh streamID node) = sn_Node node.
Proof. unfold weigh. by destruct (HasStream _ _). Qed.

(** Whatever tier answers, the candidates returned stand for nodes that
    were among the candidates given. *)
Lemma selectTopNodes_nodes nodes streamID lat lon numNodes w x :
  geoLaw → sortLaw →
  x ∈ (selectTopNodes nodes streamID lat lon numNodes w).1 →
  ∃ y, y ∈ nodes ∧ sn_Node x = sn_Node y.
Proof.
  intros Hgeo Hsort. unfold selectTopNodes.
  set (scored := geoScores nodes lat lon).
  set (tier1 := omap _ scored). set (tier2 := List.filter _ scored).
  destruct (0 <? length tier1)%nat.
  - unfold mbind, M_bind. destruct (shuffle tier1 w) as [shuffled w'] eqn:E.
    cbn. intros Hx%truncateReturned_elem.
    assert (shuffled ≡ₚ tier1) as Hperm.
    { change shuffled with (shuffled, w').1. rewrite <- E. apply shuffle_Permutation. }
    rewrite Hperm in Hx. apply list_elem_of_omap in Hx as (z & Hz & Hsome).
    destruct (_ && _); [|done]. injection Hsome as <-.
    by apply Hgeo in Hz.
  - destruct (0 <? length tier2)%nat.
    + unfold mbind, M_bind. destruct (shuffle tier2 w) as [shuffled w'] eqn:E.
      cbn. intros Hx%truncateReturned_elem.
      assert (shuffled ≡ₚ tier2) as Hperm.
      { change shuffled with (shuffled, w').1. rewrite <- E. apply shuffle_Permutation. }
      rewrite Hperm in Hx. apply list_elem_of_In, filter_In in Hx as [Hx _].
      apply list_elem_of_In in Hx. by apply Hgeo in Hx.
    + cbn. intros Hx%truncateReturned_elem. rewrite (Hsort _ _) in Hx.
      apply list_elem_of_fmap in Hx as (z & -> & Hz). rewrite weigh_Node.
      by apply Hgeo in Hz.
Qed.

Lemma SelectNode_empty streamID lat lon w :
  SelectNode [] streamID lat lon w
  = ((mkNode "" "", Some (errorString "no nodes to select from")), w).
Proof. reflexivity. Qed.

(** A node [SelectNode] returns without error stands behind one of the
    candidates. *)
Lemma SelectNode_chosen nodes streamID lat lon w node w' :
  geoLaw → sortLaw →
  SelectNode nodes streamID lat lon w = ((node, None), w') →
  ∃ y, y ∈ nodes ∧ node = sn_Node y.
Proof.
  intros Hgeo Hsort. unfold SelectNode.
  destruct (length nodes =? 0)%nat; [done|].
  unfold mbind, M_bind.
  destruct (selectTopNodes nodes streamID lat lon 3 w) as [topNodes w1] eqn:E.
  destruct (Nat.eqb_spec (length topNodes) 0) as [|Hlen]; [done|].
  unfold rand_Intn.
  destruct (topNodes !! _) as [chosen|] eqn:Hchosen.
  - intros [= <- <-].
    destruct (selectTopNodes_nodes nodes streamID lat lon 3 w chosen Hgeo Hsort)
      as (y & Hy & Heq).
    { rewrite E. cbn. by eapply list_elem_of_lookup_2. }
    by exists y.
  - apply lookup_ge_None in Hchosen.
    pose proof (Nat.mod_upper_bound (draw (randDraws w1)) (length topNodes) Hlen). lia.
Qed.

(** *** [GetBestNode] once the refresh has succeeded *)

Lemma GetBestNode_refreshed c redirectPrefixes playbackID lat lon fallbackPrefix
    isStudioReq w s w1 :
  RefreshNodes c w = ((s, None), w1) →
  GetBestNode c redirectPrefixes playbackID lat lon fallbackPrefix isStudioReq w
  = match parseCoordinate lat with
    | Err err => (("", "", Some err), w1)
    | Ok latf =>
        match parseCoordinate lon with
        | Err err => (("", "", Some err), w1)
        | Ok lonf =>
            let scored := createScoredNodes c s w1 in
            if (0 <? length scored.1)%nat then
              let selected := SelectNode scored.1 playbackID latf lonf scored.2 in
              match selected.1.2 with
              | Some err => (("", "", Some err), selected.2)
              | None =>
                  ((Name selected.1.1,
                    redirectPrefix redirectPrefixes +:+ "+" +:+ playbackID, None),
                   selected.2)
              end
            else
              ((NodeName c, redirectPrefix redirectPrefixes +:+ "+" +:+ playbackID, None),
               scored.2)
        end
    end.
Proof.
  intros Hrefresh. unfold GetBestNode, mbind, M_bind. rewrite Hrefresh.
  destruct (parseCoordinate lat) as [latf|]; [|done].
  destruct (parseCoordinate lon) as [lonf|]; [|done].
  cbv zeta. destruct (createScoredNodes c s w1) as [scored w2]. cbn [fst snd].
  destruct (0 <? length scored)%nat; [|done].
  destruct (SelectNode scored playbackID latf lonf w2) as [[node err] w3]. cbn.
  by destruct err.
Qed.

Lemma GetBestNode_refresh_failed c redirectPrefixes playbackID lat lon fallbackPrefix
    isStudioReq w s err w1 :
  RefreshNodes c w = ((s, Some err), w1) →
  GetBestNode c redirectPrefixes playbackID lat lon fallbackPrefix isStudioReq w
  = (("", "", Some (Errorf_w "error refreshing nodes: " err)), w1).
Proof. intros Hrefresh. unfold GetBestNode, mbind, M_bind. by rewrite Hrefresh. Qed.

End Selection.

(** ** Stats store adapter *)

Section Refresh.
Context `{Runtime} `{GeoScoring}.
Implicit Types (w : World) (c : CataBalancer) (s : stats) (rs : list Row).

Lemma refreshRows_decoded c event rest s w :
  refreshRows c (Decoded event :: rest) s w
  = if expired (clock (clockReads w)) (Timestamp (ev_NodeMetrics event)) (metricTimeout c)
    then refreshRows c rest s (afterReading w)
    else refreshRows c rest (recordEvent event s (afterReading w)).1
           (recordEvent event s (afterReading w)).2.
Proof.
  cbn [refreshRows]. unfold mbind at 1. unfold M_bind at 1. rewrite isStale_run.
  destruct (expired _ _ _); [done|].
  unfold mbind, M_bind. by destruct (recordEvent event s (afterReading w)).
Qed.

(** A row that fails to decode ends the loop with an error that wraps
    the error of the first such row. *)
Lemma refreshRows_failing c rs s w :
  Exists failingRow rs →
  ∃ err cause,
    (refreshRows c rs s w).1.2 = Some err
    ∧ Unwrap err = Some cause
    ∧ ((ScanFails cause ∈ rs ∧ err = Errorf_w "failed to scan node stats row: " cause)
       ∨ (Undecodable cause ∈ rs
          ∧ err = Errorf_w "failed to unmarshal node update event: " cause)).
Proof.
  revert s w. induction rs as [|row rest IH]; intros s w Hex.
  { by apply Exists_nil in Hex. }
  destruct row as [cause|cause|event].
  - eexists _, cause. split_and!; [done..|]. left. split; [by left|done].
  - eexists _, cause. split_and!; [done..|]. right. split; [by left|done].
  - apply Exists_cons in Hex as [[]|Hex]. rewrite refreshRows_decoded.
    destruct (expired _ _ _).
    + destruct (IH s (afterReading w) Hex) as (err & cause & ? & ? & Hcase).
      exists err, cause. split_and!; [done..|].
      destruct Hcase as [[??]|[??]]; [left|right]; (split; [by right|done]).
    + match goal with |- context [refreshRows c rest ?s' ?w'] =>
        destruct (IH s' w' Hex) as (err & cause & ? & ? & Hcase) end.
      exists err, cause. split_and!; [done..|].
      destruct Hcase as [[??]|[??]]; [left|right]; (split; [by right|done]).
Qed.

Lemma RefreshNodes_nil_store c w :
  NodeStatsDB c = None →
  RefreshNodes c w = ((mkStats ∅ ∅ ∅, Some (errorString "node stats DB was nil")), w).
Proof. intros Hdb. unfold RefreshNodes. by rewrite Hdb. Qed.

Lemma RefreshNodes_query c db w :
  NodeStatsDB c = Some db →
  RefreshNodes c w
  = let w1 := mkWorld (clockReads w) (randDraws w) (S (storeQueries w)) in
    match db "SELECT stats FROM node_stats" with
    | Err err => ((mkStats ∅ ∅ ∅, Some (Errorf_w "failed to query node stats: " err)), w1)
    | Ok result_set =>
        let looped := refreshRows c (rows result_set) (mkStats ∅ ∅ ∅) w1 in
        match looped.1.2 with
        | Some err => ((looped.1.1, Some err), looped.2)
        | None => ((looped.1.1, rows_Err result_set), looped.2)
        end
    end.
Proof.
  intros Hdb. unfold RefreshNodes. rewrite Hdb. unfold mbind, M_bind, sql_Query.
  cbv zeta. destruct (db _) as [result_set|err]; [|done].
  destruct (refreshRows _ _ _ _) as [[s err] w2]. cbn.
  destruct err; [done|]. by destruct (rows_Err result_set).
Qed.

(** The refresh sends exactly one query to a store that is there, and
    none otherwise. *)
Lemma refreshRows_queries c rs s w :
  storeQueries (refreshRows c rs s w).2 = storeQueries w.
Proof.
  revert s w. induction rs as [|row rest IH]; intros s w; [done|].
  destruct row as [cause|cause|event]; [done..|].
  rewrite refreshRows_decoded. destruct (expired _ _ _); [by rewrite IH|].
  rewrite IH. unfold recordEvent, mbind, M_bind.
  generalize (mkStats (<[NodeID event:=∅]> (stats_Streams s))
    (<[NodeID event:=∅]> (stats_IngestStreams s))
    (<[NodeID event:=ev_NodeMetrics event]> (stats_NodeMetrics s))).
  intros s0.
  assert (Hadd : ∀ ids s1 w1,
    storeQueries (addStreams (NodeID event) ids s1 w1).2 = storeQueries w1).
  { induction ids as [|id ids IHids]; intros s1 w1; [done|].
    cbn [addStreams]. unfold mbind, M_bind, time_Now. by rewrite IHids. }
  assert (Hingest : ∀ ids s1 w1,
    storeQueries (addIngestStreams (NodeID event) ids s1 w1).2 = storeQueries w1).
  { induction ids as [|id ids IHids]; intros s1 w1; [done|].
    cbn [addIngestStreams]. unfold mbind, M_bind, time_Now. by rewrite IHids. }
  pose proof (Hadd (GetStreams event) s0 (afterReading w)) as Ha.
  destruct (addStreams _ _ _ _) as [s1 w1]. by rewrite Hingest.
Qed.


Lemma RefreshNodes_failing c db w :
  NodeStatsDB c = Some db →
  (∃ cause, db "SELECT stats FROM node_stats" = Err cause)
  ∨ (∃ result_set, db "SELECT stats FROM node_stats" = Ok result_set
                   ∧ Exists failingRow (rows result_set)) →
  ∃ err cause, (RefreshNodes c w).1.2 = Some err ∧ Unwrap err = Some cause.
Proof.
  intros Hdb Hfail. rewrite (RefreshNodes_query c db w Hdb). cbv zeta.
  destruct Hfail as [[cause ->]|(result_set & -> & Hex)].
  - by eexists _, cause.
  - match goal with |- context [refreshRows c ?rs ?s0 ?w0] =>
      destruct (refreshRows_failing c rs s0 w0 Hex) as (err & cause & Herr & Hcause & _) end.
    exists err, cause. by rewrite Herr.
Qed.

(** ** Ingest source lookup *)

Lemma MistUtilLoadSource_refresh_failed c streamID lat lon w s err w1 :
  RefreshNodes c w = ((s, Some err), w1) →
  MistUtilLoadSource c streamID lat lon w
  = (("", Some (Errorf_w "error refreshing nodes: " err)), w1).
Proof. intros Hrefresh. unfold MistUtilLoadSource, mbind, M_bind. by rewrite Hrefresh. Qed.

Lemma MistUtilLoadSource_refreshed c streamID lat lon w s w1 :
  RefreshNodes c w = ((s, None), w1) →
  MistUtilLoadSource c streamID lat lon w
  = let found := findIngestNode c s streamID (rangeOrder (Nodes c)).*1 w1 in
    match found.1 with
    | Some answer => (answer, found.2)
    | None => (("", Some (missingIngestError streamID)), found.2)
    end.
Proof.
  intros Hrefresh. unfold MistUtilLoadSource, mbind, M_bind. rewrite Hrefresh.
  cbv zeta. destruct (findIngestNode _ _ _ _ _) as [[answer|] w2]; done.
Qed.





End Refresh.

(** ** The operations the HTTP layer calls *)

Section Operations.
Context `{Runtime} `{GeoScoring}.
Implicit Types (w : World) (c : CataBalancer) (s : stats).


Lemma parseCoordinate_empty : parseCoordinate "" = Ok (S754_zero false).
Proof. reflexivity. Qed.

Lemma parseCoordinate_nonempty text : text ≠ "" → parseCoordinate text = ParseFloat text.
Proof.
  intros Hne. unfold parseCoordinate.
  destruct (String.eqb_spec text ""); [done|done].
Qed.

Lemma parseCoordinate_parses text :
  text = "" ∨ (∃ value, ParseFloat text = Ok value) → ∃ value, parseCoordinate text = Ok value.
Proof.
  intros [->|[value Hvalue]]; [by eexists|].
  unfold parseCoordinate. destruct (String.eqb text ""); by eexists.
Qed.

(** A store that is there has been queried once when the refresh returns. *)
Lemma RefreshNodes_queries c w :
  storeQueries (RefreshNodes c w).2
  = match NodeStatsDB c with
    | Some _ => S (storeQueries w)
    | None => storeQueries w
    end.
Proof.
  destruct (NodeStatsDB c) as [db|] eqn:Hdb.
  - rewrite (RefreshNodes_query c db w Hdb). cbv zeta.
    destruct (db _) as [result_set|err]; [|done].
    destruct (refreshRows _ _ _ _) as [[s err] w2] eqn:E. cbn.
    assert (storeQueries w2 = S (storeQueries w)) as Hq.
    { change w2 with ((s, err), w2).2. rewrite <- E. by rewrite refreshRows_queries. }
    by destruct err.
  - by rewrite RefreshNodes_nil_store.
Qed.

(** Without a registered node that has metrics there is no candidate. *)
Lemma createScoredNodes_nil c s w :
  rangeLaw →
  (∀ name, is_Some (Nodes c !! name) → stats_NodeMetrics s !! name = None) →
  (createScoredNodes c s w).1 = [].
Proof.
  intros Hlaw Hnone. destruct (createScoredNodes c s w).1 as [|scored rest] eqn:E; [done|].
  destruct (createScoredNodes_sound c s w scored Hlaw) as (name & Hnode & metrics & Hm & _).
  { rewrite E. by left. }
  rewrite Hnone in Hm; [done|]. by eexists.
Qed.

End Operations.

(** C6. When the store query fails, or the scan or the JSON decoding of
    any row fails, [RefreshNodes] returns an error that wraps the failure,
    and [GetBestNode] and [MistUtilLoadSource] return that error wrapped
    once more, with empty strings and no node: nothing of the rows read
    so far reaches the caller. *)
Theorem failed_refresh_reaches_callers_as_error `{Runtime} `{GeoScoring}
    (c : CataBalancer) (db : sql_DB) (w : World) :
  NodeStatsDB c = Some db →
  (∃ cause, db "SELECT stats FROM node_stats" = Err cause)
  ∨ (∃ result_set, db "SELECT stats FROM node_stats" = Ok result_set
                   ∧ Exists failingRow (rows result_set)) →
  ∃ err cause,
    (RefreshNodes c w).1.2 = Some err
    ∧ Unwrap err = Some cause
    ∧ (∀ redirectPrefixes playbackID lat lon fallbackPrefix isStudioReq,
         (GetBestNode c redirectPrefixes playbackID lat lon fallbackPrefix isStudioReq w).1
         = ("", "", Some (Errorf_w "error refreshing nodes: " err)))
    ∧ (∀ streamID lat lon,
         (MistUtilLoadSource c streamID lat lon w).1
         = ("", Some (Errorf_w "error refreshing nodes: " err)))
    ∧ Unwrap (Errorf_w "error refreshing nodes: " err) = Some err
    ∧ Error (Errorf_w "error refreshing nodes: " err)
      = "error refreshing nodes: " +:+ Error err.
Proof.
  intros Hdb Hfail.
  destruct (RefreshNodes_failing c db w Hdb Hfail) as (err & cause & Herr & Hcause).
  exists err, cause. destruct (RefreshNodes c w) as [[s err'] w1] eqn:E.
  cbn in Herr. subst err'. split_and!; try done.
  - intros. by erewrite GetBestNode_refresh_failed.
  - intros. by erewrite MistUtilLoadSource_refresh_failed.
Qed.

(** C5. When the refresh succeeds, latitude and longitude parse (or are
    empty) and there is no scored candidate, as when no registered node
    has metrics, [GetBestNode] returns the local node's own name and no
    error. *)
Theorem GetBestNode_falls_back_to_itself `{Runtime} `{GeoScoring}
    (c : CataBalancer) (redirectPrefixes : list string)
    (playbackID lat lon fallbackPrefix : string) (isStudioReq : bool)
    (w : World) (s : stats) (w1 : World) :
  RefreshNodes c w = ((s, None), w1) →
  lat = "" ∨ (∃ latf, ParseFloat lat = Ok latf) →
  lon = "" ∨ (∃ lonf, ParseFloat lon = Ok lonf) →
  let answer :=
    (GetBestNode c redirectPrefixes playbackID lat lon fallbackPrefix isStudioReq w).1 in
  let self :=
    (NodeName c, redirectPrefix redirectPrefixes +:+ "+" +:+ playbackID, @None error) in
  ((createScoredNodes c s w1).1 = [] → answer = self)
  ∧ (rangeLaw →
     (∀ name, is_Some (Nodes c !! name) → stats_NodeMetrics s !! name = None) →
     answer = self)
  ∧ (rangeLaw → Nodes c = ∅ → answer = self).
Proof.
  intros Hrefresh Hlat Hlon answer self.
  assert (Hnil : (createScoredNodes c s w1).1 = [] → answer = self).
  { intros Hnil. unfold answer.
    rewrite (GetBestNode_refreshed _ _ _ _ _ _ _ _ _ _ Hrefresh).
    destruct (parseCoordinate_parses lat Hlat) as [latf ->].
    destruct (parseCoordinate_parses lon Hlon) as [lonf ->].
    cbv zeta. by rewrite Hnil. }
  split_and!; [done| |].
  - intros Hlaw Hnone. by apply Hnil, createScoredNodes_nil.
  - intros Hlaw Hempty. apply Hnil, createScoredNodes_nil; [done|].
    intros name [node Hnode]. by rewrite Hempty in Hnode.
Qed.

(** C3 (as amended). [GetBestNode] refreshes from the store first. Once
    that has succeeded, a latitude that is not empty and does not parse
    makes it return the parse error and no node; so does such a
    longitude after a latitude that is empty or parses. An empty string
    stands for the coordinate 0.0: it is not parsed, and the call
    behaves as with any string that parses to 0.0. *)
Theorem GetBestNode_rejects_malformed_coordinates `{Runtime} `{GeoScoring}
    (c : CataBalancer) (redirectPrefixes : list string)
    (playbackID lat lon fallbackPrefix : string) (isStudioReq : bool)
    (w : World) (s : stats) (w1 : World) :
  RefreshNodes c w = ((s, None), w1) →
  let run lat lon :=
    GetBestNode c redirectPrefixes playbackID lat lon fallbackPrefix isStudioReq w in
  (∀ err, lat ≠ "" → ParseFloat lat = Err err → run lat lon = (("", "", Some err), w1))
  ∧ (∀ err, lat = "" ∨ (∃ latf, ParseFloat lat = Ok latf) →
       lon ≠ "" → ParseFloat lon = Err err →
       run lat lon = (("", "", Some err), w1))
  ∧ (∀ zero, zero ≠ "" → ParseFloat zero = Ok (S754_zero false) →
       run "" lon = run zero lon ∧ run lat "" = run lat zero)
  ∧ (∀ db, NodeStatsDB c = Some db → storeQueries w1 = S (storeQueries w)).
Proof.
  intros Hrefresh run. unfold run.
  split_and!.
  - intros err Hne Herr. rewrite (GetBestNode_refreshed _ _ _ _ _ _ _ _ _ _ Hrefresh).
    by rewrite (parseCoordinate_nonempty lat Hne), Herr.
  - intros err Hlat Hne Herr. rewrite (GetBestNode_refreshed _ _ _ _ _ _ _ _ _ _ Hrefresh).
    destruct (parseCoordinate_parses lat Hlat) as [latf ->].
    by rewrite (parseCoordinate_nonempty lon Hne), Herr.
  - intros zero Hne Hzero.
    rewrite !(GetBestNode_refreshed _ _ _ _ _ _ _ _ _ _ Hrefresh).
    by rewrite parseCoordinate_empty, (parseCoordinate_nonempty zero Hne), Hzero.
  - intros db Hdb. pose proof (RefreshNodes_queries c w) as Hq.
    by rewrite Hrefresh, Hdb in Hq.
Qed.

(** C4 (as amended). The node [GetBestNode] returns is the name of a node
    stored in the current registry, whatever the stats in the store refer
    to, unless there is no scored candidate: then it is the local node's
    own name, registered or not. *)
Theorem selected_node_is_registered_or_self `{Runtime} `{GeoScoring}
    (c : CataBalancer) (redirectPrefixes : list string)
    (playbackID lat lon fallbackPrefix : string) (isStudioReq : bool)
    (w : World) (nodeName fullStreamName : string) (w' : World) :
  rangeLaw → sortLaw → geoLaw →
  GetBestNode c redirectPrefixes playbackID lat lon fallbackPrefix isStudioReq w
  = ((nodeName, fullStreamName, None), w') →
  (∃ key node, Nodes c !! key = Some node ∧ Name node = nodeName
               ∧ (wellKeyed (Nodes c) → is_Some (Nodes c !! nodeName)))
  ∨ (nodeName = NodeName c
     ∧ ∃ s w1, RefreshNodes c w = ((s, None), w1) ∧ (createScoredNodes c s w1).1 = []).
Proof.
  intros Hrange Hsort Hgeo Hrun.
  destruct (RefreshNodes c w) as [[s [err|]] w1] eqn:Hrefresh.
  { by rewrite (GetBestNode_refresh_failed _ _ _ _ _ _ _ _ _ _ _ Hrefresh) in Hrun. }
  rewrite (GetBestNode_refreshed _ _ _ _ _ _ _ _ _ _ Hrefresh) in Hrun.
  destruct (parseCoordinate lat) as [latf|]; [|done].
  destruct (parseCoordinate lon) as [lonf|]; [|done].
  cbv zeta in Hrun.
  destruct (createScoredNodes c s w1).1 as [|first rest] eqn:Hscored.
  { cbn in Hrun. injection Hrun as <- _ _. right. split; [done|]. by exists s, w1. }
  cbn [length Nat.ltb Nat.leb] in Hrun.
  destruct (SelectNode _ _ _ _ _) as [[node err] w2] eqn:Hselect.
  cbn in Hrun. destruct err; [done|]. injection Hrun as <- _ _.
  destruct (SelectNode_chosen _ _ _ _ _ _ _ Hgeo Hsort Hselect) as (scored & Hin & ->).
  rewrite <- Hscored in Hin.
  destruct (createScoredNodes_sound c s w1 scored Hrange Hin) as (key & Hnode & _).
  left. exists key, (sn_Node scored). split_and!; [done..|].
  intros Hkeyed. rewrite (Hkeyed _ _ Hnode). by eexists.
Qed.

(** ** What a refresh records *)

Section Recording.
Context `{Runtime} `{GeoScoring}.
Implicit Types (w : World) (c : CataBalancer) (s : stats) (rs : list Row)
  (m : gmap string Streams) (ids : list string).

Lemma streamsOf_putStream m nodeID key stream other :
  streamsOf (putStream m nodeID key stream) other
  = if decide (nodeID = other) then <[key := stream]> (streamsOf m nodeID)
    else streamsOf m other.
Proof.
  unfold streamsOf, putStream. destruct (decide (nodeID = other)) as [->|Hne].
  - by rewrite lookup_insert_eq.
  - by rewrite lookup_insert_ne.
Qed.

Lemma stamped_widen w0 w1 w2 w3 streamID stream :
  (clockReads w0 ≤ clockReads w1)%nat → (clockReads w2 ≤ clockReads w3)%nat →
  stamped w1 w2 streamID stream → stamped w0 w3 streamID stream.
Proof.
  intros ?? (? & ? & k & Hk & ?). split_and!; [done..|].
  exists k. split; [|done]. by eapply readDuring_widen.
Qed.

(** *** The loop over the playback streams *)

Lemma addStreams_cons nodeID stream rest s w :
  addStreams nodeID (stream :: rest) s w
  = addStreams nodeID rest
      (mkStats
         (putStream (stats_Streams s) nodeID (getPlaybackID stream)
            (mkStream stream (getPlaybackID stream) (clock (clockReads w))))
         (stats_IngestStreams s) (stats_NodeMetrics s))
      (afterReading w).
Proof. reflexivity. Qed.

Lemma addStreams_world nodeID ids s w :
  (addStreams nodeID ids s w).2
  = mkWorld (clockReads w + length ids) (randDraws w) (storeQueries w).
Proof.
  revert s w. induction ids as [|id ids IH]; intros s w.
  - destruct w. cbn. f_equal. lia.
  - rewrite addStreams_cons, IH. cbn. f_equal. lia.
Qed.

Lemma addStreams_untouched nodeID ids s w :
  stats_IngestStreams (addStreams nodeID ids s w).1 = stats_IngestStreams s
  ∧ stats_NodeMetrics (addStreams nodeID ids s w).1 = stats_NodeMetrics s
  ∧ ∀ other, other ≠ nodeID →
      stats_Streams (addStreams nodeID ids s w).1 !! other = stats_Streams s !! other.
Proof.
  revert s w. induction ids as [|id ids IH]; intros s w; [done|].
  rewrite addStreams_cons.
  match goal with |- context [addStreams nodeID ids ?s' ?w'] =>
    destruct (IH s' w') as (-> & -> & Hother) end.
  split_and!; [done..|]. intros other Hne. rewrite Hother by done.
  cbn. unfold putStream. by rewrite lookup_insert_ne.
Qed.

Lemma addStreams_keeps nodeID ids s w key :
  (∀ id, id ∈ ids → getPlaybackID id ≠ key) →
  streamsOf (stats_Streams (addStreams nodeID ids s w).1) nodeID !! key
  = streamsOf (stats_Streams s) nodeID !! key.
Proof.
  revert s w. induction ids as [|id ids IH]; intros s w Hne; [done|].
  rewrite addStreams_cons, IH by (intros; apply Hne; by right). cbn.
  rewrite streamsOf_putStream, decide_True by done.
  rewrite lookup_insert_ne; [done|]. apply Hne. by left.
Qed.

(** *** The loop over the ingest streams *)

Lemma addIngestStreams_cons nodeID stream rest s w :
  addIngestStreams nodeID (stream :: rest) s w
  = addIngestStreams nodeID rest
      (mkStats
         (putStream (stats_Streams s) nodeID (getPlaybackID stream)
            (mkStream stream (getPlaybackID stream) (clock (clockReads w))))
         (putStream (stats_IngestStreams s) nodeID stream
            (mkStream stream (getPlaybackID stream) (clock (S (clockReads w)))))
         (stats_NodeMetrics s))
      (afterReading (afterReading w)).
Proof. reflexivity. Qed.

Lemma addIngestStreams_world nodeID ids s w :
  (addIngestStreams nodeID ids s w).2
  = mkWorld (clockReads w + 2 * length ids) (randDraws w) (storeQueries w).
Proof.
  revert s w. induction ids as [|id ids IH]; intros s w.
  - destruct w. cbn. f_equal. lia.
  - rewrite addIngestStreams_cons, IH. cbn. f_equal. lia.
Qed.

Lemma addIngestStreams_untouched nodeID ids s w :
  stats_NodeMetrics (addIngestStreams nodeID ids s w).1 = stats_NodeMetrics s
  ∧ ∀ other, other ≠ nodeID →
      stats_Streams (addIngestStreams nodeID ids s w).1 !! other
      = stats_Streams s !! other
      ∧ stats_IngestStreams (addIngestStreams nodeID ids s w).1 !! other
        = stats_IngestStreams s !! other.
Proof.
  revert s w. induction ids as [|id ids IH]; intros s w; [done|].
  rewrite addIngestStreams_cons.
  match goal with |- context [addIngestStreams nodeID ids ?s' ?w'] =>
    destruct (IH s' w') as (-> & Hother) end.
  split; [done|]. intros other Hne. destruct (Hother other Hne) as [-> ->].
  cbn. unfold putStream. by rewrite !lookup_insert_ne.
Qed.

(** Every ingest stream leaves an entry under its own ID in the ingest
    snapshot, stamped during the loop. *)
Lemma addIngestStreams_ingest nodeID ids s w key :
  let r := addIngestStreams nodeID ids s w in
  (key ∉ ids →
   streamsOf (stats_IngestStreams r.1) nodeID !! key
   = streamsOf (stats_IngestStreams s) nodeID !! key)
  ∧ (key ∈ ids →
     ∃ stream, streamsOf (stats_IngestStreams r.1) nodeID !! key = Some stream
               ∧ stamped w r.2 key stream).
Proof.
  revert s w. induction ids as [|id ids IH]; intros s w r.
  { split; [done|]. by intros ?%elem_of_nil. }
  unfold r. rewrite addIngestStreams_cons.
  match goal with |- context [addIngestStreams nodeID ids ?s' ?w'] =>
    destruct (IH s' w') as [Hout Hin]; cbv zeta in Hout, Hin;
    pose proof (addIngestStreams_world nodeID ids s' w') as Hworld end.
  split.
  - intros Hnot. apply not_elem_of_cons in Hnot as [Hne Hnot].
    rewrite Hout by done. cbn. rewrite streamsOf_putStream, decide_True by done.
    by rewrite lookup_insert_ne.
  - intros Hkey. destruct (decide (key ∈ ids)) as [Hrest|Hrest].
    + destruct (Hin Hrest) as (stream & Hstream & Hst). exists stream.
      split; [done|]. eapply stamped_widen; [| |exact Hst]; cbn; lia.
    + apply elem_of_cons in Hkey as [->|?]; [|done].
      rewrite Hout by done. cbn. rewrite streamsOf_putStream, decide_True by done.
      rewrite lookup_insert_eq. eexists. split; [done|].
      split_and!; [done..|]. exists (S (clockReads w)). split; [|done].
      unfold readDuring. rewrite Hworld. cbn. lia.
Qed.

(** Every ingest stream leaves an entry under its playback ID in the
    playback snapshot: its own, or that of a later ingest stream with
    the same playback ID. *)
Lemma addIngestStreams_playback nodeID ids s w key :
  let r := addIngestStreams nodeID ids s w in
  ((∀ id, id ∈ ids → getPlaybackID id ≠ key) →
   streamsOf (stats_Streams r.1) nodeID !! key
   = streamsOf (stats_Streams s) nodeID !! key)
  ∧ ((∃ id, id ∈ ids ∧ getPlaybackID id = key) →
     ∃ id stream, id ∈ ids ∧ getPlaybackID id = key
       ∧ streamsOf (stats_Streams r.1) nodeID !! key = Some stream
       ∧ stamped w r.2 id stream).
Proof.
  revert s w. induction ids as [|id0 ids IH]; intros s w r.
  { split; [done|]. by intros (? & ?%elem_of_nil & _). }
  unfold r. rewrite addIngestStreams_cons.
  match goal with |- context [addIngestStreams nodeID ids ?s' ?w'] =>
    destruct (IH s' w') as [Hout Hin]; cbv zeta in Hout, Hin;
    pose proof (addIngestStreams_world nodeID ids s' w') as Hworld end.
  split.
  - intros Hne. rewrite Hout by (intros; apply Hne; by right). cbn.
    rewrite streamsOf_putStream, decide_True by done.
    rewrite lookup_insert_ne; [done|]. apply Hne. by left.
  - intros (id & Hid & Hkey).
    destruct (decide (Exists (λ id, getPlaybackID id = key) ids)) as [Hex|Hnot].
    + apply Exists_exists in Hex as (id' & Hid' & Hkey').
      destruct Hin as (id'' & stream & ? & ? & ? & Hst); [by exists id'|].
      exists id'', stream. split_and!; [by right|done..|].
      eapply stamped_widen; [| |exact Hst]; cbn; lia.
    + assert (∀ id', id' ∈ ids → getPlaybackID id' ≠ key) as Hne.
      { intros id' Hid' Hkey'. apply Hnot, Exists_exists. by exists id'. }
      apply elem_of_cons in Hid as [->|Hid]; [|by destruct (Hne id Hid)].
      rewrite Hout by done. cbn. rewrite streamsOf_putStream, decide_True by done.
      rewrite Hkey, lookup_insert_eq. eexists id0, _. split_and!; [by left|done..|].
      rewrite <- Hkey. split_and!; [done..|]. exists (clockReads w). split; [|done].
      unfold readDuring. rewrite Hworld. cbn. lia.
Qed.


(** *** One recorded event *)

Lemma recordEvent_run event s w :
  recordEvent event s w
  = addIngestStreams (NodeID event) (GetIngestStreams event)
      (addStreams (NodeID event) (GetStreams event)
         (mkStats (<[NodeID event := ∅]> (stats_Streams s))
                  (<[NodeID event := ∅]> (stats_IngestStreams s))
                  (<[NodeID event := ev_NodeMetrics event]> (stats_NodeMetrics s)))
         w).1
      (addStreams (NodeID event) (GetStreams event)
         (mkStats (<[NodeID event := ∅]> (stats_Streams s))
                  (<[NodeID event := ∅]> (stats_IngestStreams s))
                  (<[NodeID event := ev_NodeMetrics event]> (stats_NodeMetrics s)))
         w).2.
Proof.
  unfold recordEvent, mbind, M_bind. by destruct (addStreams _ _ _ _).
Qed.

Lemma recordEvent_world event s w :
  (recordEvent event s w).2
  = mkWorld (clockReads w + length (GetStreams event)
             + 2 * length (GetIngestStreams event))
      (randDraws w) (storeQueries w).
Proof.
  rewrite recordEvent_run, addIngestStreams_world, addStreams_world. cbn. f_equal.
Qed.

Lemma recordEvent_metrics event s w :
  stats_NodeMetrics (recordEvent event s w).1
  = <[NodeID event := ev_NodeMetrics event]> (stats_NodeMetrics s).
Proof.
  rewrite recordEvent_run.
  match goal with |- context [addIngestStreams ?n ?ids ?s' ?w'] =>
    destruct (addIngestStreams_untouched n ids s' w') as [-> _] end.
  match goal with |- context [addStreams ?n ?ids ?s' ?w'] =>
    destruct (addStreams_untouched n ids s' w') as (_ & -> & _) end.
  done.
Qed.

Lemma recordEvent_other event s w other :
  other ≠ NodeID event →
  stats_Streams (recordEvent event s w).1 !! other = stats_Streams s !! other
  ∧ stats_IngestStreams (recordEvent event s w).1 !! other
    = stats_IngestStreams s !! other.
Proof.
  intros Hne. rewrite recordEvent_run.
  match goal with |- context [addIngestStreams ?n ?ids ?s' ?w'] =>
    destruct (addIngestStreams_untouched n ids s' w') as [_ Hother] end.
  destruct (Hother other Hne) as [-> ->].
  match goal with |- context [addStreams ?n ?ids ?s' ?w'] =>
    destruct (addStreams_untouched n ids s' w') as (-> & _ & Hplay) end.
  rewrite Hplay by done. cbn. by rewrite !lookup_insert_ne.
Qed.

(** The two entries an ingest stream of the event leaves behind. *)
Lemma recordEvent_ingest event s w streamID :
  streamID ∈ GetIngestStreams event →
  let r := recordEvent event s w in
  (∃ stream,
     streamsOf (stats_IngestStreams r.1) (NodeID event) !! streamID = Some stream
     ∧ stamped w r.2 streamID stream)
  ∧ (∃ id stream,
       id ∈ GetIngestStreams event
       ∧ getPlaybackID id = getPlaybackID streamID
       ∧ streamsOf (stats_Streams r.1) (NodeID event) !! getPlaybackID streamID
         = Some stream
       ∧ stamped w r.2 id stream).
Proof.
  intros Hin r. unfold r. rewrite recordEvent_run.
  set (s0 := mkStats _ _ _).
  pose proof (addStreams_world (NodeID event) (GetStreams event) s0 w) as Hw1.
  set (r1 := addStreams (NodeID event) (GetStreams event) s0 w) in *.
  split.
  - destruct (addIngestStreams_ingest (NodeID event) (GetIngestStreams event)
                r1.1 r1.2 streamID) as [_ Hingest].
    destruct (Hingest Hin) as (stream & Hstream & Hst).
    exists stream. split; [done|].
    eapply stamped_widen; [| |exact Hst]; [|done]. rewrite Hw1. cbn. lia.
  - destruct (addIngestStreams_playback (NodeID event) (GetIngestStreams event)
                r1.1 r1.2 (getPlaybackID streamID)) as [_ Hplay].
    destruct Hplay as (id & stream & ? & ? & ? & Hst); [by exists streamID|].
    exists id, stream. split_and!; [done..|].
    eapply stamped_widen; [| |exact Hst]; [|done]. rewrite Hw1. cbn. lia.
Qed.

(** *** The loop over the rows *)

Lemma refreshRows_clock c rs s w :
  (clockReads w ≤ clockReads (refreshRows c rs s w).2)%nat.
Proof.
  revert s w. induction rs as [|row rest IH]; intros s w; [done|].
  destruct row as [cause|cause|event]; [done..|].
  rewrite refreshRows_decoded. destruct (expired _ _ _).
  - etrans; [|apply IH]. cbn. lia.
  - etrans; [|apply IH]. rewrite recordEvent_world. cbn. lia.
Qed.


(** Rows about other nodes leave a node's snapshot as it is. *)
Lemma refreshRows_other c rs s w nodeID :
  (∀ event, Decoded event ∈ rs → NodeID event ≠ nodeID) →
  stats_Streams (refreshRows c rs s w).1.1 !! nodeID = stats_Streams s !! nodeID
  ∧ stats_IngestStreams (refreshRows c rs s w).1.1 !! nodeID
    = stats_IngestStreams s !! nodeID
  ∧ stats_NodeMetrics (refreshRows c rs s w).1.1 !! nodeID
    = stats_NodeMetrics s !! nodeID.
Proof.
  revert s w. induction rs as [|row rest IH]; intros s w Hother; [done|].
  destruct row as [cause|cause|event]; [done..|].
  assert (∀ event, Decoded event ∈ rest → NodeID event ≠ nodeID) as Hrest.
  { intros e He. apply Hother. by right. }
  assert (nodeID ≠ NodeID event) as Hne.
  { intros ->. by apply (Hother event); [left|]. }
  rewrite refreshRows_decoded. destruct (expired _ _ _); [by apply IH|].
  match goal with |- context [refreshRows c rest ?s' ?w'] =>
    destruct (IH s' w' Hrest) as (-> & -> & ->) end.
  destruct (recordEvent_other event s (afterReading w) nodeID Hne) as [-> ->].
  by rewrite recordEvent_metrics, lookup_insert_ne.
Qed.


End Recording.

(** ** The sample world obeys the laws *)

Section SampleWorld.
Variable clk : nat → Time.

Lemma sample_rangeLaw : @rangeLaw (sampleRuntimeWith clk).
Proof. intros A m. reflexivity. Qed.

Lemma sink_Permutation less x sorted : sink less x sorted ≡ₚ x :: sorted.
Proof.
  induction sorted as [|y rest IH]; [done|]. cbn [sink].
  destruct (less x y); [|done]. rewrite IH. apply Permutation_swap.
Qed.

Lemma insertionSort_Permutation less l : insertionSort less l ≡ₚ l.
Proof.
  unfold insertionSort. rewrite reverse_Permutation.
  assert (∀ sorted, foldl (λ sorted x, sink less x sorted) sorted l ≡ₚ sorted ++ l)
    as Hfold.
  { induction l as [|x l IH]; intros sorted; cbn [foldl].
    - by rewrite app_nil_r.
    - rewrite IH, sink_Permutation. simpl. apply Permutation_middle. }
  apply Hfold.
Qed.

Lemma sample_sortLaw : @sortLaw (sampleRuntimeWith clk).
Proof. intros less l. apply insertionSort_Permutation. Qed.

Lemma sample_geoLaw : @geoLaw sampleGeoScoring.
Proof.
  intros l lat lon x Hx. cbn in Hx.
  apply list_elem_of_fmap in Hx as (y & -> & Hy). by exists y.
Qed.

End SampleWorld.

Lemma collectMembers_wellKeyed members : wellKeyed (collectMembers members ∅).
Proof.
  intros key node Hnode. rewrite collectMembers_lookup in Hnode.
  destruct (last _) as [member|] eqn:Hlast; [|by rewrite lookup_empty in Hnode].
  apply last_filter_elem in Hlast as [_ [_ <-]]. by injection Hnode as <-.
Qed.

Lemma five_seconds_valid : validTimeout (5 * second).
Proof. unfold validTimeout, minDuration, maxDuration, second. lia. Qed.



(** A stream found under a node is in one of the snapshots of the map. *)
Lemma streamsOf_elem (m : gmap string Streams) name streamID stream :
  streamsOf m name !! streamID = Some stream →
  ∃ snapshot, (name, snapshot) ∈ map_to_list m ∧ snapshot !! streamID = Some stream.
Proof.
  unfold streamsOf. intros Hs. destruct (m !! name) as [snapshot|] eqn:Hm.
  - exists snapshot. split; [by apply elem_of_map_to_list|done].
  - cbn [default] in Hs. by rewrite lookup_empty in Hs.
Qed.

Lemma sampleBalancer_refreshes :
  @RefreshNodes sampleRuntime sampleBalancer world0 = ((sampleStats, None), sampleRefreshed).
Proof. vm_compute. reflexivity. Qed.

Section SampleSort.
Variable key : ScoredNode → Z.

Lemma sink_sorted x sorted :
  StronglySorted (λ a b, key a ≤ key b) sorted →
  StronglySorted (λ a b, key a ≤ key b) (sink (λ a b, key b <? key a) x sorted).
Proof.
  induction sorted as [|y rest IH]; intros Hs; cbn [sink].
  - apply StronglySorted_cons. split; constructor.
  - apply StronglySorted_cons in Hs as [Hy Hrest].
    destruct (Z.ltb_spec (key y) (key x)) as [Hlt|Hge].
    + apply StronglySorted_cons. split; [|by apply IH].
      rewrite sink_Permutation. constructor; [lia|done].
    + apply StronglySorted_cons. split.
      * constructor; [done|]. eapply Forall_impl; [exact Hy|]. cbn. intros. lia.
      * by apply StronglySorted_cons.
Qed.

Lemma reverse_sorted (l : list ScoredNode) :
  StronglySorted (λ a b, key a ≤ key b) l →
  StronglySorted (λ a b, key b ≤ key a) (reverse l).
Proof.
  induction l as [|x l IH]; intros Hs; [constructor|].
  apply StronglySorted_cons in Hs as [Hx Hl]. rewrite reverse_cons.
  apply StronglySorted_app. split_and!.
  - intros a b Ha Hb. apply list_elem_of_singleton in Hb as ->.
    rewrite elem_of_reverse in Ha. rewrite Forall_forall in Hx. by apply Hx.
  - by apply IH.
  - apply StronglySorted_cons. split; constructor.
Qed.

Lemma insertionSort_sorted l :
  StronglySorted (λ a b, key b ≤ key a) (insertionSort (λ a b, key b <? key a) l).
Proof.
  unfold insertionSort. apply reverse_sorted.
  assert (∀ sorted, StronglySorted (λ a b, key a ≤ key b) sorted →
            StronglySorted (λ a b, key a ≤ key b)
              (foldl (λ sorted x, sink (λ a b, key b <? key a) x sorted) sorted l))
    as Hfold.
  { induction l as [|x l IH]; intros sorted Hs; [done|]. cbn [foldl].
    by apply IH, sink_sorted. }
  apply Hfold. constructor.
Qed.

End SampleSort.

Lemma sample_sortedLaw clk : @sortedLaw (sampleRuntimeWith clk).
Proof. intros key l. apply insertionSort_sorted. Qed.
(** ** The properties on the sample fleet *)

Lemma staleness_is_inclusive_at_the_boundary_witness :
  (@isStale frozenRuntime (frozenClock 0 - 5 * second) (5 * second) world0).1 = true
  ∧ (∀ scored,
       scored ∈ (@createScoredNodes frozenRuntime (balancerWith None) boundaryStats world0).1 →
       Name (sn_Node scored) ≠ "node-b")
  ∧ (∃ scored,
       scored ∈ (@createScoredNodes frozenRuntime (balancerWith None) boundaryStats world0).1
       ∧ sn_Node scored = toNode memberA
       ∧ sn_Streams scored !! "abc"
         = Some (mkStream "video+abc" "abc" (frozenClock 0 - second))
       ∧ sn_Streams scored !! "old"
         ≠ Some (mkStream "video+old" "old" (frozenClock 0 - 5 * second))).
Proof.
  pose proof (@staleness_is_inclusive_at_the_boundary frozenRuntime sampleGeoScoring
                (balancerWith None) boundaryStats world0
                (sample_rangeLaw _) five_seconds_valid) as T.
  cbv zeta in T. destruct T as (_ & T2 & _ & T4 & T5 & T6).
  split_and!.
  - apply T2. reflexivity.
  - apply (T4 (collectMembers_wellKeyed _) "node-b" (toNode memberB)
              (idleMetrics (frozenClock 0 - 5 * second))); [reflexivity..|].
    intros k _. unfold staleAt. cbn. unfold frozenClock. lia.
  - destruct (T6 "node-a" (toNode memberA) (idleMetrics (frozenClock 0 - second)))
      as (scored & Hin & Hnode & _ & Hstreams); [reflexivity..| |].
    { intros k _. cbn. unfold frozenClock, second. lia. }
    exists scored. split_and!; [done..| |].
    + apply Hstreams; [reflexivity|]. intros k _. cbn. unfold frozenClock, second. lia.
    + apply T5; [done|]. intros k _. unfold staleAt. cbn. unfold frozenClock. lia.
Defined.

Lemma failed_refresh_reaches_callers_as_error_witness :
  (∃ err,
     (@RefreshNodes sampleRuntime (balancerWith (Some brokenStore)) world0).1.2 = Some err
     ∧ Unwrap err = Some (errorString "connection refused")
     ∧ (@GetBestNode sampleRuntime sampleGeoScoring (balancerWith (Some brokenStore))
          [] "abc" "" "" "" false world0).1
       = ("", "", Some (Errorf_w "error refreshing nodes: " err))
     ∧ (@MistUtilLoadSource sampleRuntime (balancerWith (Some brokenStore))
          "video+live" "" "" world0).1
       = ("", Some (Errorf_w "error refreshing nodes: " err)))
  ∧ (∃ err,
       (@RefreshNodes sampleRuntime (balancerWith (Some (storeOf undecodableRows)))
          world0).1.2 = Some err
       ∧ (@GetBestNode sampleRuntime sampleGeoScoring
            (balancerWith (Some (storeOf undecodableRows)))
            [] "abc" "" "" "" false world0).1
         = ("", "", Some (Errorf_w "error refreshing nodes: " err))).
Proof.
  split.
  - destruct (@failed_refresh_reaches_callers_as_error sampleRuntime sampleGeoScoring
                (balancerWith (Some brokenStore)) brokenStore world0 eq_refl)
      as (err & cause & Hrefresh & Hcause & Hbest & Hsource & _).
    { left. by eexists. }
    exists err. split_and!; [done| |apply Hbest|apply Hsource].
    rewrite Hcause. f_equal.
    vm_compute in Hrefresh. injection Hrefresh as <-.
    vm_compute in Hcause. by injection Hcause as <-.
  - destruct (@failed_refresh_reaches_callers_as_error sampleRuntime sampleGeoScoring
                (balancerWith (Some (storeOf undecodableRows)))
                (storeOf undecodableRows) world0 eq_refl)
      as (err & cause & Hrefresh & _ & Hbest & _).
    { right. eexists. split; [reflexivity|]. cbn. apply Exists_cons_tl, Exists_cons_hd.
      exact I. }
    exists err. split; [done|apply Hbest].
Defined.

Lemma GetBestNode_falls_back_to_itself_witness :
  (@GetBestNode sampleRuntime sampleGeoScoring
     (NewBalancer "self" (5 * second) (5 * second) (Some (storeOf sampleRows)))
     ["vod"] "abc" "" "52" "" false world0).1
  = ("self", "vod+abc", None).
Proof.
  set (c := NewBalancer "self" (5 * second) (5 * second) (Some (storeOf sampleRows))).
  set (s := (@RefreshNodes sampleRuntime c world0).1.1).
  set (w1 := (@RefreshNodes sampleRuntime c world0).2).
  assert (@RefreshNodes sampleRuntime c world0 = ((s, None), w1)) as Hrefresh
      by (vm_compute; reflexivity).
  pose proof (@GetBestNode_falls_back_to_itself sampleRuntime sampleGeoScoring
                c ["vod"] "abc" "" "52" "" false world0 s w1 Hrefresh) as T.
  cbv zeta in T. destruct T as (_ & _ & T3).
  - by left.
  - right. by eexists.
  - apply T3; [apply sample_rangeLaw|reflexivity].
Defined.

Lemma GetBestNode_rejects_malformed_coordinates_witness :
  @GetBestNode sampleRuntime sampleGeoScoring sampleBalancer
    [] "abc" "not-a-number" "" "" false world0
  = (("", "", Some (errorString ("strconv.ParseFloat: parsing " +:+ dquote
                                 +:+ "not-a-number" +:+ dquote +:+ ": invalid syntax"))),
     sampleRefreshed)
  ∧ @GetBestNode sampleRuntime sampleGeoScoring sampleBalancer
      [] "abc" "52" "north" "" false world0
    = (("", "", Some (errorString ("strconv.ParseFloat: parsing " +:+ dquote
                                   +:+ "north" +:+ dquote +:+ ": invalid syntax"))),
       sampleRefreshed)
  ∧ @GetBestNode sampleRuntime sampleGeoScoring sampleBalancer
      [] "abc" "" "" "" false world0
    = @GetBestNode sampleRuntime sampleGeoScoring sampleBalancer
        [] "abc" "0" "" "" false world0
  ∧ storeQueries sampleRefreshed = 1%nat.
Proof.
  pose proof (@GetBestNode_rejects_malformed_coordinates sampleRuntime sampleGeoScoring
                sampleBalancer [] "abc" "not-a-number" "" "" false world0
                sampleStats sampleRefreshed sampleBalancer_refreshes) as T.
  pose proof (@GetBestNode_rejects_malformed_coordinates sampleRuntime sampleGeoScoring
                sampleBalancer [] "abc" "52" "north" "" false world0
                sampleStats sampleRefreshed sampleBalancer_refreshes) as T'.
  cbv zeta in T, T'. destruct T as (T1 & _ & T3 & T4), T' as (_ & T2' & _).
  split_and!.
  - by apply T1.
  - apply T2'; [right; by eexists|done|done].
  - apply (T3 "0"); done.
  - apply (T4 (storeOf sampleRows)). reflexivity.
Defined.

Lemma selected_node_is_registered_or_self_witness :
  (∃ key node, Nodes sampleBalancer !! key = Some node ∧ Name node = "node-a"
               ∧ (wellKeyed (Nodes sampleBalancer)
                  → is_Some (Nodes sampleBalancer !! "node-a")))
  ∨ ("node-a" = NodeName sampleBalancer
     ∧ ∃ s w1, @RefreshNodes sampleRuntime sampleBalancer world0 = ((s, None), w1)
               ∧ (@createScoredNodes sampleRuntime sampleBalancer s w1).1 = []).
Proof.
  apply (@selected_node_is_registered_or_self sampleRuntime sampleGeoScoring
           sampleBalancer [] "abc" "" "" "" false world0 "node-a" "video+abc"
           (mkWorld 9 1 1) (sample_rangeLaw _) (sample_sortLaw _) sample_geoLaw).
  vm_compute. reflexivity.
Defined.


(** ** Where the specification goes too far *)

(** The store is queried before the coordinates are read: with a store
    that cannot be reached a malformed latitude is never looked at, and
    with a store that answers, the parse error comes after one query. *)
Lemma malformed_latitude_is_read_after_the_store :
  sampleParseFloat "not-a-number"
  = Err (errorString ("strconv.ParseFloat: parsing " +:+ dquote +:+ "not-a-number"
                      +:+ dquote +:+ ": invalid syntax"))
  ∧ (@GetBestNode sampleRuntime sampleGeoScoring (balancerWith (Some brokenStore))
       [] "abc" "not-a-number" "" "" false world0).1
    = ("", "",
       Some (Errorf_w "error refreshing nodes: "
               (Errorf_w "failed to query node stats: "
                  (errorString "connection refused"))))
  ∧ storeQueries
      (@GetBestNode sampleRuntime sampleGeoScoring (balancerWith (Some brokenStore))
         [] "abc" "not-a-number" "" "" false world0).2 = 1%nat
  ∧ storeQueries
      (@GetBestNode sampleRuntime sampleGeoScoring sampleBalancer
         [] "abc" "not-a-number" "" "" false world0).2 = 1%nat.
Proof. vm_compute. done. Qed.

(** A balancer whose own node is not in the registry returns its own name
    when no candidate is left to score. *)
Lemma unregistered_self_is_selected :
  (@GetBestNode sampleRuntime sampleGeoScoring (outsider (Some (storeOf [])))
     [] "abc" "" "" "" false world0).1
  = ("self", "video+abc", None)
  ∧ Nodes (outsider (Some (storeOf []))) !! "self" = None
  ∧ is_Some (Nodes (outsider (Some (storeOf []))) !! "node-a").
Proof. vm_compute. split_and!; [done..|by eexists]. Qed.

(** * Further properties *)

(** ** Event codec *)

Lemma Split_pieces s sep : Forall (λ piece, strings.Contains piece sep = false) (strings.Split s sep).
Proof.
  induction s as [|c s IH]; cbn [strings.Split].
  - by repeat constructor.
  - destruct (Ascii.eqb c sep) eqn:E.
    + by constructor.
    + destruct (strings.Split s sep) as [|piece pieces].
      * constructor; [|constructor]. cbn [strings.Contains]. by rewrite E.
      * apply Forall_cons in IH as [Hp Hps]. constructor; [|done].
        cbn [strings.Contains]. by rewrite E.
Qed.

Lemma Join_Split s sep : strings.Join (strings.Split s sep) (String sep "") = s.
Proof.
  induction s as [|c s IH]; [done|]. cbn [strings.Split].
  destruct (Ascii.eqb c sep) eqn:E.
  - apply Ascii.eqb_eq in E as ->.
    pose proof (Split_nonempty s sep) as Hne.
    destruct (strings.Split s sep) as [|piece pieces]; [done|].
    rewrite Join_cons2. cbn. by rewrite <- IH.
  - pose proof (Split_nonempty s sep) as Hne.
    destruct (strings.Split s sep) as [|piece pieces]; [done|].
    rewrite <- IH. by destruct pieces.
Qed.

Lemma Split_length_app a b sep :
  length (strings.Split (a +:+ String sep b) sep)
  = (length (strings.Split a sep) + length (strings.Split b sep))%nat.
Proof.
  induction a as [|c a IH].
  - change ("" +:+ String sep b) with (String sep b). cbn [strings.Split].
    by rewrite Ascii.eqb_refl.
  - change (String c a +:+ String sep b) with (String c (a +:+ String sep b)).
    cbn [strings.Split]. destruct (Ascii.eqb c sep).
    + cbn [length]. by rewrite IH.
    + pose proof (Split_nonempty a sep). pose proof (Split_nonempty (a +:+ String sep b) sep).
      destruct (strings.Split a sep), (strings.Split (a +:+ String sep b) sep); try done.
Qed.

Lemma getPlaybackID_prefixed prefix playbackID :
  strings.Contains prefix plus = false → strings.Contains playbackID plus = false →
  getPlaybackID (prefix +:+ "+" +:+ playbackID) = playbackID.
Proof.
  intros Hp Hid. unfold getPlaybackID.
  change (prefix +:+ "+" +:+ playbackID) with (prefix +:+ String plus playbackID).
  by rewrite Split_app, Split_without_sep.
Qed.

(** X1. [getPlaybackID] strips the prefix of a stream name made of a
    prefix, one "+" and a playback ID, and leaves every other string as
    it is: one without "+", and one with two or more. Hence applying it
    twice is the same as applying it once. *)
Theorem getPlaybackID_strips_one_prefix (streamID : string) :
  (strings.Contains streamID plus = false → getPlaybackID streamID = streamID)
  ∧ (∀ prefix playbackID,
       strings.Contains prefix plus = false → strings.Contains playbackID plus = false →
       streamID = prefix +:+ "+" +:+ playbackID → getPlaybackID streamID = playbackID)
  ∧ (∀ a b c, streamID = a +:+ "+" +:+ b +:+ "+" +:+ c → getPlaybackID streamID = streamID)
  ∧ getPlaybackID (getPlaybackID streamID) = getPlaybackID streamID
  ∧ (getPlaybackID streamID = streamID
     ∨ ∃ prefix, strings.Contains prefix plus = false
                 ∧ strings.Contains (getPlaybackID streamID) plus = false
                 ∧ streamID = prefix +:+ "+" +:+ getPlaybackID streamID).
Proof.
  assert (∀ s, strings.Contains s plus = false → getPlaybackID s = s) as Hplain.
  { intros s Hs. unfold getPlaybackID. by rewrite Split_without_sep. }
  assert (getPlaybackID streamID = streamID
          ∨ ∃ prefix, strings.Contains prefix plus = false
                      ∧ strings.Contains (getPlaybackID streamID) plus = false
                      ∧ streamID = prefix +:+ "+" +:+ getPlaybackID streamID) as Hcases.
  { unfold getPlaybackID.
    pose proof (Split_pieces streamID plus) as Hpieces.
    pose proof (Join_Split streamID plus) as Hjoin.
    destruct (strings.Split streamID plus) as [|p [|id [|? ?]]]; try (by left).
    right. exists p. apply Forall_cons in Hpieces as [Hp Hpieces].
    apply Forall_cons in Hpieces as [Hid _]. by rewrite <- Hjoin. }
  split_and!.
  - apply Hplain.
  - intros prefix playbackID Hp Hid ->. by apply getPlaybackID_prefixed.
  - intros a b c ->. unfold getPlaybackID.
    pose proof (Split_length_app a (b +:+ "+" +:+ c) plus) as Hlen.
    change (b +:+ "+" +:+ c) with (b +:+ String plus c) in Hlen.
    rewrite (Split_length_app b c plus) in Hlen.
    pose proof (Split_nonempty a plus). pose proof (Split_nonempty b plus).
    pose proof (Split_nonempty c plus).
    change (a +:+ "+" +:+ b +:+ "+" +:+ c) with (a +:+ String plus (b +:+ String plus c)).
    destruct (strings.Split a plus), (strings.Split b plus), (strings.Split c plus); try done.
    destruct (strings.Split _ plus) as [|? [|? [|? ?]]]; cbn in Hlen; try done; lia.
  - destruct Hcases as [Hsame|(prefix & _ & Hid & _)].
    + by rewrite !Hsame.
    + by apply Hplain.
  - exact Hcases.
Qed.

Lemma Cut_spec s sep :
  strings.Contains (strings.Cut s sep).1.1 sep = false
  ∧ (strings.Cut s sep).2 = strings.Contains s sep
  ∧ (if strings.Contains s sep
     then s = (strings.Cut s sep).1.1 +:+ String sep (strings.Cut s sep).1.2
     else (strings.Cut s sep).1.1 = s ∧ (strings.Cut s sep).1.2 = "").
Proof.
  induction s as [|c s IH]; [done|]. cbn [strings.Cut strings.Contains].
  destruct (Ascii.eqb c sep) eqn:E.
  - apply Ascii.eqb_eq in E as ->. done.
  - destruct (strings.Cut s sep) as [[before after] found]. cbn in *.
    rewrite E. destruct IH as (Hb & Hf & Hs). split_and!; [done..|].
    destruct (strings.Contains s sep).
    + by rewrite Hs at 1.
    + destruct Hs as [-> ->]. done.
Qed.

Lemma Join_decode s :
  strings.Join (if (0 <? String.length s)%nat then strings.Split s pipe else []) "|" = s.
Proof. destruct s; [done|]. apply (Join_Split _ pipe). Qed.

(** X2. Encoding the two lists decoded from an event gives the event
    back when its [Streams] field holds a "~", and the field followed by
    "~" when it holds none; either way the re-encoded event decodes to the
    same two lists. *)
Theorem reencoding_restores_Streams (n : NodeUpdateEvent) :
  let n' := SetStreams n (GetStreams n) (GetIngestStreams n) in
  Resource n' = Resource n ∧ NodeID n' = NodeID n ∧ ev_NodeMetrics n' = ev_NodeMetrics n
  ∧ (strings.Contains (ev_Streams n) tilde = true → n' = n)
  ∧ (strings.Contains (ev_Streams n) tilde = false → ev_Streams n' = ev_Streams n +:+ "~")
  ∧ GetStreams n' = GetStreams n
  ∧ GetIngestStreams n' = GetIngestStreams n.
Proof.
  intros n'. destruct n as [resource nodeID metrics encoded].
  assert (ev_Streams n'
          = (strings.Cut encoded tilde).1.1 +:+ String tilde (strings.Cut encoded tilde).1.2)
    as Hencoded.
  { unfold n', SetStreams, GetStreams, GetIngestStreams. cbn [ev_Streams].
    destruct (strings.Cut encoded tilde) as [[before after] found]. cbn [fst snd].
    by rewrite !Join_decode. }
  destruct (Cut_spec encoded tilde) as (Hbefore & _ & Hcut).
  assert (strings.Cut (ev_Streams n') tilde
          = ((strings.Cut encoded tilde).1.1, (strings.Cut encoded tilde).1.2, true)) as Hcut'.
  { rewrite Hencoded. by apply Cut_app. }
  split_and!; [done..| | | |].
  - intros Hfound. cbn [ev_Streams] in Hfound. rewrite Hfound in Hcut. unfold n', SetStreams. cbn [Resource NodeID ev_NodeMetrics].
    f_equal. transitivity (ev_Streams n'); [reflexivity|].
    rewrite Hencoded. symmetry. exact Hcut.
  - intros Hfound. cbn [ev_Streams] in Hfound. rewrite Hfound in Hcut. destruct Hcut as [Hb Ha].
    cbn [ev_Streams]. rewrite Hencoded, Hb, Ha. done.
  - unfold GetStreams. rewrite Hcut'. cbn [ev_Streams].
    by destruct (strings.Cut encoded tilde) as [[before after] found].
  - unfold GetIngestStreams. rewrite Hcut'. cbn [ev_Streams].
    by destruct (strings.Cut encoded tilde) as [[before after] found].
Qed.

(** X3. Each of the two lists is decoded from its own side of the "~":
    the playback list comes back whatever the ingest list holds, and the
    ingest list comes back even when its IDs hold a "~", as long as the
    playback IDs hold none. *)
Theorem decoding_one_list_ignores_the_other (n : NodeUpdateEvent) (a b : list string) :
  (Forall noSeparator a → a ≠ [""] → GetStreams (SetStreams n a b) = a)
  ∧ (Forall (λ id, strings.Contains id tilde = false) a →
     Forall (λ id, strings.Contains id pipe = false) b → b ≠ [""] →
     GetIngestStreams (SetStreams n a b) = b).
Proof.
  assert (Forall (λ id, strings.Contains id tilde = false) a →
          strings.Cut (ev_Streams (SetStreams n a b)) tilde
          = (strings.Join a "|", strings.Join b "|", true)) as Hcut.
  { intros Ha. simpl. by apply Cut_app, Contains_Join. }
  split.
  - intros Ha Hna. unfold GetStreams. rewrite Hcut.
    + apply decode_Join; [|done]. eapply Forall_impl; [exact Ha|]. by intros s [? _].
    + eapply Forall_impl; [exact Ha|]. by intros s [_ ?].
  - intros Ha Hb Hnb. unfold GetIngestStreams. rewrite Hcut by done. by apply decode_Join.
Qed.

Lemma decoding_one_list_ignores_the_other_witness :
  GetStreams (SetStreams zeroEvent ["video+abc"] ["x~y"; "|"]) = ["video+abc"]
  ∧ GetIngestStreams (SetStreams zeroEvent ["a|b"] ["x~y"]) = ["x~y"].
Proof.
  split.
  - apply decoding_one_list_ignores_the_other; [|done].
    repeat constructor.
  - apply decoding_one_list_ignores_the_other; [| |done]; by repeat constructor.
Defined.

(** ** Node registry *)

Lemma last_filter_unique {A B} `{!EqDecision B} (f : A → B) (P : A → Prop)
    `{!∀ x, Decision (P x)} (l : list A) key x :
  NoDup (f <$> l) →
  last (filter (λ y, P y ∧ f y = key) l) = Some x ↔ x ∈ l ∧ P x ∧ f x = key.
Proof.
  intros Hnd. split.
  - intros Hlast. apply last_filter_elem in Hlast. naive_solver.
  - intros (Hx & HP & Hf).
    destruct (last_filter_is_Some (λ y, P y ∧ f y = key) l x Hx) as [y Hy]; [done|].
    rewrite Hy. f_equal. apply last_filter_elem in Hy as (Hy & _ & Hfy).
    apply (NoDup_fmap_elem_inj f l); [done..|congruence].
Qed.

(** X4. When the members have distinct names the registry
    [UpdateMembers] builds depends neither on their order nor on the
    balancer's previous registry. *)
Theorem UpdateMembers_ignores_order (c c' : CataBalancer) (members members' : list Member) :
  NoDup (Member_Name <$> members) → members ≡ₚ members' →
  Nodes (UpdateMembers c members).1 = Nodes (UpdateMembers c' members').1.
Proof.
  intros Hnd Hperm. cbn [UpdateMembers fst Nodes]. apply map_eq. intros name.
  assert (NoDup (Member_Name <$> members')) as Hnd' by by rewrite <- Hperm.
  rewrite !collectMembers_lookup, !lookup_empty.
  destruct (last (filter _ members)) as [member|] eqn:Hlast.
  - apply (last_filter_unique Member_Name isMedia) in Hlast; [|done].
    rewrite Hperm in Hlast.
    apply (last_filter_unique Member_Name isMedia) in Hlast; [|done].
    by rewrite Hlast.
  - destruct (last (filter _ members')) as [member|] eqn:Hlast'; [|done].
    apply (last_filter_unique Member_Name isMedia) in Hlast'; [|done].
    rewrite <- Hperm in Hlast'.
    apply (last_filter_unique Member_Name isMedia) in Hlast'; [|done].
    congruence.
Qed.

Lemma UpdateMembers_ignores_order_witness :
  Nodes (UpdateMembers (NewBalancer "node-a" second second None)
           [memberA; memberB; memberTest]).1
  = Nodes (UpdateMembers (balancerWith None) [memberTest; memberB; memberA]).1.
Proof.
  apply UpdateMembers_ignores_order.
  - apply (bool_decide_unpack _). vm_compute. exact I.
  - apply NoDup_Permutation.
    + apply (NoDup_fmap_1 Member_Name), (bool_decide_unpack _). vm_compute. exact I.
    + apply (NoDup_fmap_1 Member_Name), (bool_decide_unpack _). vm_compute. exact I.
    + intros member. rewrite !elem_of_cons, !elem_of_nil. tauto.
Defined.

(** ** Load score *)

Lemma float64_gt_nan (y : float64) : float64_gt S754_nan y = false.
Proof. unfold float64_gt, SFltb, SFcompare. by destruct y. Qed.

(** X5. [GetLoadScore] is 0, 1 or 2, whatever the readings; it looks at
    the three usage percentages only; and a reading that is not a number
    never counts as load, so that a node whose three readings are NaN
    scores 2. *)
Theorem GetLoadScore_range (n : ScoredNode) :
  (GetLoadScore n = 0 ∨ GetLoadScore n = 1 ∨ GetLoadScore n = 2)
  ∧ (∀ n', CPUUsagePercentage (sn_NodeMetrics n') = CPUUsagePercentage (sn_NodeMetrics n) →
           RAMUsagePercentage (sn_NodeMetrics n') = RAMUsagePercentage (sn_NodeMetrics n) →
           BandwidthUsagePercentage (sn_NodeMetrics n')
           = BandwidthUsagePercentage (sn_NodeMetrics n) →
           GetLoadScore n' = GetLoadScore n)
  ∧ (CPUUsagePercentage (sn_NodeMetrics n) = S754_nan →
     RAMUsagePercentage (sn_NodeMetrics n) = S754_nan →
     BandwidthUsagePercentage (sn_NodeMetrics n) = S754_nan →
     GetLoadScore n = 2).
Proof.
  split_and!.
  - unfold GetLoadScore. cbv zeta. destruct (_ || _); [by left|].
    destruct (_ || _); [right; by left|right; by right].
  - intros n' Hcpu Hram Hbw. unfold GetLoadScore. cbv zeta. by rewrite Hcpu, Hram, Hbw.
  - intros Hcpu Hram Hbw. unfold GetLoadScore. cbv zeta.
    by rewrite Hcpu, Hram, Hbw, !float64_gt_nan.
Qed.

(** ** Selection engine *)

Section SelectionEngine.
Context `{Runtime} `{GeoScoring}.
Implicit Types (w : World) (nodes scoredNodes : list ScoredNode).

(** X6. [shuffle] rearranges the candidates it is given: none is lost,
    added or altered. It draws one random number per position but the
    first, and touches neither the clock nor the store. *)
Theorem shuffle_permutes scoredNodes w :
  (shuffle scoredNodes w).1 ≡ₚ scoredNodes
  ∧ length (shuffle scoredNodes w).1 = length scoredNodes
  ∧ randDraws (shuffle scoredNodes w).2 = (randDraws w + (length scoredNodes - 1))%nat
  ∧ clockReads (shuffle scoredNodes w).2 = clockReads w
  ∧ storeQueries (shuffle scoredNodes w).2 = storeQueries w.
Proof.
  pose proof (shuffleFrom_Permutation (length scoredNodes - 1) scoredNodes w) as Hperm.
  unfold shuffle. rewrite shuffleFrom_world. split_and!; [done| |done..].
  by rewrite Hperm.
Qed.

(** X7. [truncateReturned] keeps the first [numNodes] candidates, in
    their order, and all of them when there are no more than [numNodes]. *)
Theorem truncateReturned_is_a_prefix scoredNodes (numNodes : nat) :
  truncateReturned scoredNodes numNodes `prefix_of` scoredNodes
  ∧ length (truncateReturned scoredNodes numNodes) = (length scoredNodes `min` numNodes)%nat
  ∧ ((length scoredNodes ≤ numNodes)%nat →
     truncateReturned scoredNodes numNodes = scoredNodes).
Proof.
  rewrite truncateReturned_take. split_and!.
  - apply prefix_take.
  - rewrite length_take. lia.
  - intros Hlen. by apply take_ge.
Qed.

Lemma selectTopNodes_length nodes streamID lat lon (numNodes : nat) w :
  (length (selectTopNodes nodes streamID lat lon numNodes w).1 ≤ numNodes)%nat.
Proof.
  assert (∀ l, (length (truncateReturned l numNodes) ≤ numNodes)%nat) as Hcut.
  { intros l. rewrite truncateReturned_take, length_take. lia. }
  unfold selectTopNodes. cbv zeta.
  destruct (0 <? length (omap _ _))%nat.
  - unfold mbind, M_bind. destruct (shuffle _ w) as [shuffled w']. apply Hcut.
  - destruct (0 <? length (List.filter _ _))%nat.
    + unfold mbind, M_bind. destruct (shuffle _ w) as [shuffled w']. apply Hcut.
    + apply Hcut.
Qed.

Lemma GetLoadScore_withStreamScore node streamScore :
  GetLoadScore (withStreamScore node streamScore) = GetLoadScore node.
Proof. reflexivity. Qed.

Lemma truncateReturned_nonempty l (n : nat) :
  l ≠ [] → (0 < n)%nat → truncateReturned l n ≠ [].
Proof.
  intros Hl Hn. rewrite truncateReturned_take. destruct l, n; try done; lia.
Qed.

Lemma shuffle_elem l w x : x ∈ (shuffle l w).1 ↔ x ∈ l.
Proof. by rewrite shuffle_Permutation. Qed.

Lemma shuffle_nonempty l w : l ≠ [] → (shuffle l w).1 ≠ [].
Proof.
  intros Hl Hnil. apply Hl. apply Permutation_nil_r.
  rewrite <- Hnil. symmetry. apply shuffle_Permutation.
Qed.

Lemma length_pos_nonempty {A} (l : list A) : (0 <? length l)%nat = true ↔ l ≠ [].
Proof. destruct l; cbn; [split; [discriminate|done]|split; [done|reflexivity]]. Qed.

Lemma selectTopNodes_tiers nodes streamID lat lon (numNodes : nat) w :
  let scored := geoScores nodes lat lon in
  let top := (selectTopNodes nodes streamID lat lon numNodes w).1 in
  let local node := GeoScore node = 2 ∧ GetLoadScore node = 2 in
  ((∃ node, node ∈ scored ∧ local node ∧ HasStream node streamID = true) →
   ∀ x, x ∈ top →
        local x ∧ HasStream x streamID = true ∧ StreamScore x = 2
        ∧ ∃ node, node ∈ scored ∧ x = withStreamScore node 2)
  ∧ ((∃ node, node ∈ scored ∧ local node) → ∀ x, x ∈ top → local x)
  ∧ ((∃ node, node ∈ scored ∧ local node) → (0 < numNodes)%nat → top ≠ []).
Proof.
  intros scored top local. unfold top, selectTopNodes. cbv zeta. fold scored.
  set (tier1 := omap _ scored). set (tier2 := List.filter _ scored).
  assert (∀ x, x ∈ tier1 ↔ ∃ node, node ∈ scored ∧ local node
                            ∧ HasStream node streamID = true
                            ∧ x = withStreamScore node 2) as Htier1.
  { intros x. unfold tier1. rewrite list_elem_of_omap. unfold local. split.
    - intros (node & Hnode & Hx). exists node.
      destruct (GeoScore node =? 2) eqn:Hg; [|done].
      destruct (HasStream node streamID) eqn:Hs; [|done].
      destruct (GetLoadScore node =? 2) eqn:Hl; [|done].
      cbn in Hx. injection Hx as <-. apply Z.eqb_eq in Hg, Hl. done.
    - intros (node & Hnode & [Hg Hl] & Hs & ->). exists node. split; [done|].
      apply Z.eqb_eq in Hg, Hl. by rewrite Hg, Hs, Hl. }
  assert (∀ x, x ∈ tier2 ↔ x ∈ scored ∧ local x) as Htier2.
  { intros x. unfold tier2. rewrite list_elem_of_In, filter_In, <- list_elem_of_In.
    unfold local. rewrite andb_true_iff, !Z.eqb_eq. done. }
  destruct (0 <? length tier1)%nat eqn:E1.
  - apply length_pos_nonempty in E1. unfold mbind, M_bind.
    pose proof (shuffle_nonempty tier1 w E1) as Hne.
    pose proof (shuffle_elem tier1 w) as Helem.
    destruct (shuffle tier1 w) as [shuffled w']. cbn in *.
    assert (∀ x, x ∈ truncateReturned shuffled numNodes
                 → local x ∧ HasStream x streamID = true ∧ StreamScore x = 2
                   ∧ ∃ node, node ∈ scored ∧ x = withStreamScore node 2) as Hin.
    { intros x Hx%truncateReturned_elem.
      apply Helem, Htier1 in Hx as (node & Hnode & Hlocal & Hs & ->).
      split_and!; [done..|by exists node]. }
    split_and!.
    + intros _ x Hx. by apply Hin.
    + intros _ x Hx. by apply Hin.
    + intros _ Hn. by apply truncateReturned_nonempty.
  - assert (tier1 = []) as Hnil1.
    { destruct tier1; [done|discriminate]. }
    split_and!.
    + intros (node & Hnode & Hlocal & Hs). exfalso.
      assert (withStreamScore node 2 ∈ tier1) as Hin by (apply Htier1; by exists node).
      rewrite Hnil1 in Hin. by apply elem_of_nil in Hin.
    + intros (node & Hnode & Hlocal).
      assert (node ∈ tier2) as Hin by by apply Htier2.
      destruct (0 <? length tier2)%nat eqn:E2.
      * unfold mbind, M_bind. pose proof (shuffle_elem tier2 w) as Helem.
        destruct (shuffle tier2 w) as [shuffled w']. cbn in *.
        intros x Hx%truncateReturned_elem.
        by apply Helem, Htier2 in Hx as [_ ?].
      * destruct tier2; [by apply elem_of_nil in Hin|discriminate].
    + intros (node & Hnode & Hlocal) Hn.
      assert (node ∈ tier2) as Hin by by apply Htier2.
      destruct (0 <? length tier2)%nat eqn:E2.
      * apply length_pos_nonempty in E2. unfold mbind, M_bind.
        pose proof (shuffle_nonempty tier2 w E2) as Hne.
        destruct (shuffle tier2 w) as [shuffled w']. cbn in *.
        by apply truncateReturned_nonempty.
      * destruct tier2; [by apply elem_of_nil in Hin|discriminate].
Qed.

(** X8. [selectTopNodes] never returns more than [numNodes] candidates.
    When some candidate is local (geo score 2), not loaded (load score
    2) and has the stream, only such candidates are returned, with stream
    score 2; when some candidate is local and not loaded, only local, not
    loaded candidates are returned; and in both cases at least one is
    returned when one is asked for. *)
Theorem selectTopNodes_prefers_local_nodes nodes streamID lat lon (numNodes : nat) w :
  let scored := geoScores nodes lat lon in
  let top := (selectTopNodes nodes streamID lat lon numNodes w).1 in
  let local node := GeoScore node = 2 ∧ GetLoadScore node = 2 in
  (length top ≤ numNodes)%nat
  ∧ ((∃ node, node ∈ scored ∧ local node ∧ HasStream node streamID = true) →
     ∀ x, x ∈ top →
          local x ∧ HasStream x streamID = true ∧ StreamScore x = 2
          ∧ ∃ node, node ∈ scored ∧ x = withStreamScore node 2)
  ∧ ((∃ node, node ∈ scored ∧ local node) → ∀ x, x ∈ top → local x)
  ∧ ((∃ node, node ∈ scored ∧ local node) → (0 < numNodes)%nat → top ≠ []).
Proof.
  split; [apply selectTopNodes_length|apply selectTopNodes_tiers].
Qed.

End SelectionEngine.

Section LeastBad.
Context `{Runtime} `{GeoScoring}.
Implicit Types (w : World) (nodes scoredNodes : list ScoredNode).

Lemma int64_small x : - 2 ^ 63 ≤ x < 2 ^ 63 → int64 x = x.
Proof.
  intros Hx. unfold int64.
  assert (2 ^ 63 = 9223372036854775808) as E63 by reflexivity.
  assert (2 ^ 64 = 18446744073709551616) as E64 by reflexivity.
  rewrite E63, E64 in *. rewrite Z.mod_small; lia.
Qed.

Lemma GetLoadScore_bounds node : 0 ≤ GetLoadScore node ≤ 2.
Proof.
  unfold GetLoadScore. cbv zeta. destruct (_ || _); [lia|]. destruct (_ || _); lia.
Qed.

(** X9. One turn of the weighing loop adds to a candidate's score its
    geo score, its load score, and 2 when it has the stream, in which
    case its stream score becomes 2; nothing else of the candidate
    changes. The sums are those of int64, so this holds for scores far
    from the ends of its range. *)
Theorem weigh_adds_up (streamID : string) (node : ScoredNode) :
  - 2 ^ 61 ≤ Score node ≤ 2 ^ 61 → - 2 ^ 61 ≤ GeoScore node ≤ 2 ^ 61 →
  let weighed := weigh streamID node in
  Score weighed
  = Score node + GeoScore node + GetLoadScore node
    + (if HasStream node streamID then 2 else 0)
  ∧ StreamScore weighed = (if HasStream node streamID then 2 else StreamScore node)
  ∧ GeoScore weighed = GeoScore node
  ∧ GeoDistance weighed = GeoDistance node
  ∧ sn_Node weighed = sn_Node node
  ∧ sn_Streams weighed = sn_Streams node
  ∧ sn_IngestStreams weighed = sn_IngestStreams node
  ∧ sn_NodeMetrics weighed = sn_NodeMetrics node.
Proof.
  intros Hscore Hgeo weighed. unfold weighed, weigh. cbv zeta.
  pose proof (GetLoadScore_bounds node) as Hload.
  assert (2 ^ 61 = 2305843009213693952) as E62 by reflexivity.
  assert (2 ^ 63 = 9223372036854775808) as E63 by reflexivity.
  change (GetLoadScore (withScore node (int64 (Score node + GeoScore node))))
    with (GetLoadScore node).
  change (HasStream (withScore (withScore node (int64 (Score node + GeoScore node))) _)
            streamID) with (HasStream node streamID).
  cbn [Score withScore]. rewrite E62 in Hscore, Hgeo.
  rewrite (int64_small (Score node + GeoScore node)) by (rewrite E63; lia).
  rewrite (int64_small (Score node + GeoScore node + GetLoadScore node))
    by (rewrite E63; lia).
  destruct (HasStream node streamID); cbn; [|by rewrite Z.add_0_r].
  rewrite int64_small by (rewrite E63; lia). done.
Qed.

Lemma selectTopNodes_least_bad_run nodes streamID lat lon (numNodes : nat) w :
  (∀ node, node ∈ geoScores nodes lat lon →
           ¬ (GeoScore node = 2 ∧ GetLoadScore node = 2)) →
  selectTopNodes nodes streamID lat lon numNodes w
  = (truncateReturned
       (sort_Slice (λ a b, Score b <? Score a)
          (map (weigh streamID) (geoScores nodes lat lon))) numNodes, w).
Proof.
  intros Hnone. unfold selectTopNodes. cbv zeta.
  set (scored := geoScores nodes lat lon) in *.
  destruct (omap _ scored) as [|x tier1] eqn:E1.
  - destruct (List.filter _ scored) as [|x tier2] eqn:E2; [done|].
    assert (x ∈ List.filter
                  (λ node, (GeoScore node =? 2) && (GetLoadScore node =? 2)) scored)
      as Hx by (rewrite E2; by left).
    apply list_elem_of_In, filter_In in Hx as [Hx Hlocal].
    apply list_elem_of_In in Hx. apply andb_true_iff in Hlocal as [Hg Hl].
    apply Z.eqb_eq in Hg, Hl. by destruct (Hnone x Hx).
  - assert (x ∈ omap
                  (λ node, if (GeoScore node =? 2) && HasStream node streamID
                              && (GetLoadScore node =? 2)
                           then Some (withStreamScore node 2) else None) scored)
      as Hx by (rewrite E1; by left).
    apply list_elem_of_omap in Hx as (node & Hnode & Hsome).
    destruct (GeoScore node =? 2) eqn:Hg; [|done].
    destruct (HasStream node streamID); [|done].
    destruct (GetLoadScore node =? 2) eqn:Hl; [|done].
    apply Z.eqb_eq in Hg, Hl. by destruct (Hnone node Hnode).
Qed.

(** X10. When no candidate is both local and not loaded,
    [selectTopNodes] weighs every candidate, sorts them, and returns the
    first [numNodes]: the candidates returned are in descending order of
    score, none of those left out scores more than one returned, and no
    random number is drawn. *)
Theorem selectTopNodes_least_bad nodes streamID lat lon (numNodes : nat) w :
  sortLaw → sortedLaw →
  (∀ node, node ∈ geoScores nodes lat lon →
           ¬ (GeoScore node = 2 ∧ GetLoadScore node = 2)) →
  let top := (selectTopNodes nodes streamID lat lon numNodes w).1 in
  (selectTopNodes nodes streamID lat lon numNodes w).2 = w
  ∧ length top = (length (geoScores nodes lat lon) `min` numNodes)%nat
  ∧ StronglySorted (λ a b, Score b ≤ Score a) top
  ∧ ∃ rest, top ++ rest ≡ₚ weigh streamID <$> geoScores nodes lat lon
            ∧ ∀ x y, x ∈ top → y ∈ rest → Score y ≤ Score x.
Proof.
  intros Hsort Hsorted Hnone top. unfold top.
  rewrite selectTopNodes_least_bad_run by done. cbn [fst snd].
  rewrite truncateReturned_take.
  set (sorted := sort_Slice _ _).
  assert (StronglySorted (λ a b, Score b ≤ Score a) sorted) as Hs by apply Hsorted.
  assert (sorted ≡ₚ weigh streamID <$> geoScores nodes lat lon) as Hperm by apply Hsort.
  rewrite <- (take_drop numNodes sorted) in Hs, Hperm.
  split_and!; [done| | |].
  - rewrite length_take. apply Permutation_length in Hperm.
    rewrite take_drop, length_fmap in Hperm. lia.
  - by apply StronglySorted_app_1_l in Hs.
  - exists (drop numNodes sorted). split; [done|].
    intros x y Hx Hy. by apply (StronglySorted_app_1_elem_of _ _ _ _ _ Hs).
Qed.

Lemma selectTopNodes_nonempty nodes streamID lat lon (numNodes : nat) w :
  sortLaw → geoScores nodes lat lon ≠ [] → (0 < numNodes)%nat →
  (selectTopNodes nodes streamID lat lon numNodes w).1 ≠ [].
Proof.
  intros Hsort Hne Hn.
  destruct (decide (Exists (λ node, GeoScore node = 2 ∧ GetLoadScore node = 2)
                      (geoScores nodes lat lon))) as [Hlocal|Hnone].
  - apply Exists_exists in Hlocal.
    by apply (selectTopNodes_tiers nodes streamID lat lon numNodes w).
  - rewrite selectTopNodes_least_bad_run.
    + cbn [fst]. apply truncateReturned_nonempty; [|done].
      intros Hnil. apply Hne. pose proof (Hsort (λ a b, Score b <? Score a)
                                            (map (weigh streamID) (geoScores nodes lat lon)))
        as Hperm.
      rewrite Hnil in Hperm. apply Permutation_nil_l in Hperm. symmetry in Hperm.
      by apply (fmap_nil_inv (weigh streamID)) in Hperm.
    + intros node Hnode Hlocal. apply Hnone, Exists_exists. by exists node.
Qed.

Lemma SelectNode_chooses nodes streamID lat lon w :
  nodes ≠ [] → (selectTopNodes nodes streamID lat lon 3 w).1 ≠ [] →
  let top := selectTopNodes nodes streamID lat lon 3 w in
  ∃ chosen, chosen ∈ top.1
    ∧ SelectNode nodes streamID lat lon w
      = ((sn_Node chosen, None),
         mkWorld (clockReads top.2) (S (randDraws top.2)) (storeQueries top.2)).
Proof.
  intros Hnodes Hne. cbv zeta. unfold SelectNode.
  destruct (Nat.eqb_spec (length nodes) 0) as [Hnil|_].
  { by destruct nodes. }
  unfold mbind, M_bind.
  destruct (selectTopNodes nodes streamID lat lon 3 w) as [topNodes w1].
  cbn [fst snd] in *.
  destruct (Nat.eqb_spec (length topNodes) 0) as [Hlen|Hlen].
  { by destruct topNodes. }
  unfold rand_Intn.
  destruct (topNodes !! _) as [chosen|] eqn:Hchosen.
  - exists chosen. split; [by eapply list_elem_of_lookup_2|done].
  - apply lookup_ge_None in Hchosen.
    pose proof (Nat.mod_upper_bound (draw (randDraws w1)) (length topNodes) Hlen). lia.
Qed.

(** X11. [SelectNode] fails on no candidates without drawing a random
    number, and fails when [geoScores] hands back none; otherwise it
    answers with the node of one of the (at most three) top candidates,
    chosen by one more random draw. *)
Theorem SelectNode_answers nodes streamID lat lon w :
  (nodes = [] →
   SelectNode nodes streamID lat lon w
   = ((mkNode "" "", Some (errorString "no nodes to select from")), w))
  ∧ (sortLaw → nodes ≠ [] → geoScores nodes lat lon = [] →
     SelectNode nodes streamID lat lon w
     = ((mkNode "" "", Some (errorString "selectTopNodes returned no nodes")), w))
  ∧ (sortLaw → nodes ≠ [] → geoScores nodes lat lon ≠ [] →
     let top := selectTopNodes nodes streamID lat lon 3 w in
     ∃ chosen, chosen ∈ top.1
       ∧ (length top.1 ≤ 3)%nat
       ∧ (SelectNode nodes streamID lat lon w).1 = (sn_Node chosen, None)
       ∧ randDraws (SelectNode nodes streamID lat lon w).2 = S (randDraws top.2)
       ∧ clockReads (SelectNode nodes streamID lat lon w).2 = clockReads top.2
       ∧ storeQueries (SelectNode nodes streamID lat lon w).2 = storeQueries top.2).
Proof.
  split_and!.
  - by intros ->.
  - intros Hsort Hnodes Hgeo. unfold SelectNode.
    destruct nodes as [|node nodes]; [done|]. cbn [length Nat.eqb].
    unfold mbind, M_bind.
    rewrite selectTopNodes_least_bad_run by (rewrite Hgeo; by intros ? ?%elem_of_nil).
    rewrite Hgeo. cbn [map]. pose proof (Hsort (λ a b, Score b <? Score a) []) as Hperm.
    apply Permutation_nil_r in Hperm. rewrite Hperm. done.
  - intros Hsort Hnodes Hgeo. cbv zeta.
    pose proof (selectTopNodes_nonempty nodes streamID lat lon 3 w Hsort Hgeo) as Hne.
    destruct (SelectNode_chooses nodes streamID lat lon w Hnodes) as (chosen & Hin & ->);
      [apply Hne; lia|].
    exists chosen. split_and!; [done|apply selectTopNodes_length|done..].
Qed.

(** X12. A viewer is sent to a node that has the stream whenever one is
    at hand: when the refresh succeeds, the coordinates parse and some
    candidate is local, not loaded and has the stream, [GetBestNode]
    answers with the name of such a candidate and no error. *)
Theorem GetBestNode_sends_viewers_to_the_stream (c : CataBalancer)
    (redirectPrefixes : list string) (playbackID lat lon fallbackPrefix : string)
    (isStudioReq : bool) w (s : stats) w1 (latf lonf : float64) :
  geoLaw →
  RefreshNodes c w = ((s, None), w1) →
  parseCoordinate lat = Ok latf → parseCoordinate lon = Ok lonf →
  let candidates := geoScores (createScoredNodes c s w1).1 latf lonf in
  let fits node :=
    node ∈ candidates ∧ GeoScore node = 2 ∧ GetLoadScore node = 2
    ∧ HasStream node playbackID = true in
  (∃ node, fits node) →
  ∃ node, fits node
    ∧ (GetBestNode c redirectPrefixes playbackID lat lon fallbackPrefix isStudioReq w).1
      = (Name (sn_Node node), redirectPrefix redirectPrefixes +:+ "+" +:+ playbackID,
         None).
Proof.
  intros Hgeo Hrefresh Hlat Hlon candidates fits (node & Hin & Hg & Hl & Hs).
  rewrite (GetBestNode_refreshed _ _ _ _ _ _ _ _ _ _ Hrefresh), Hlat, Hlon. cbv zeta.
  destruct (createScoredNodes c s w1) as [scored w2]. cbn [fst snd] in *.
  assert (scored ≠ []) as Hscored.
  { intros ->. destruct (Hgeo [] latf lonf node Hin) as (y & Hy & _).
    by apply elem_of_nil in Hy. }
  assert ((0 <? length scored)%nat = true) as -> by by apply length_pos_nonempty.
  destruct (selectTopNodes_tiers scored playbackID latf lonf 3 w2) as (Htier & _ & Hne).
  destruct (SelectNode_chooses scored playbackID latf lonf w2 Hscored)
    as (chosen & Hchosen & ->).
  { apply Hne; [by exists node|lia]. }
  cbn [fst snd].
  destruct (Htier) with (x := chosen) as (_ & _ & _ & node' & Hin' & ->);
    [by exists node|done|].
  destruct (Htier) with (x := withStreamScore node' 2) as ([Hg' Hl'] & Hs' & _);
    [by exists node|done|].
  exists node'. split; [|done]. split_and!; done.
Qed.

End LeastBad.

(** ** Stats store adapter *)

Section RefreshInvariants.
Context `{Runtime} `{GeoScoring}.
Implicit Types (w : World) (c : CataBalancer) (s : stats) (rs : list Row)
  (ids : list string).

Lemma stampedStats_widen w0 w1 w2 w3 s :
  (clockReads w0 ≤ clockReads w1)%nat → (clockReads w2 ≤ clockReads w3)%nat →
  stampedStats w1 w2 s → stampedStats w0 w3 s.
Proof.
  intros Hlo Hhi [Hplay Hingest]. split.
  - intros name key stream Hs. destruct (Hplay name key stream Hs) as (id & ? & Hst).
    exists id. split; [done|]. by eapply stamped_widen.
  - intros name key stream Hs. eapply stamped_widen; [done..|]. by eapply Hingest.
Qed.

Lemma streamsOf_eq (m m' : gmap string Streams) name :
  m !! name = m' !! name → streamsOf m name = streamsOf m' name.
Proof. unfold streamsOf. by intros ->. Qed.

(** What the loop over the playback streams leaves under a key: what was
    there, or the entry of one of the streams. *)
Lemma addStreams_sound nodeID ids s w key stream :
  streamsOf (stats_Streams (addStreams nodeID ids s w).1) nodeID !! key = Some stream →
  streamsOf (stats_Streams s) nodeID !! key = Some stream
  ∨ ∃ id, id ∈ ids ∧ key = getPlaybackID id
          ∧ stamped w (addStreams nodeID ids s w).2 id stream.
Proof.
  revert s w. induction ids as [|id ids IH]; intros s w; [by left|].
  rewrite addStreams_cons. intros Hs.
  match type of Hs with context [addStreams nodeID ids ?s' ?w'] =>
    pose proof (addStreams_world nodeID ids s' w') as Hworld;
    destruct (IH s' w' Hs) as [Hold|(id' & Hid' & Hkey & Hst)] end.
  - cbn in Hold. rewrite streamsOf_putStream, decide_True in Hold by done.
    destruct (decide (key = getPlaybackID id)) as [->|Hne].
    + rewrite lookup_insert_eq in Hold. injection Hold as <-. right.
      exists id. split_and!; [by left|done|]. split_and!; [done..|].
      exists (clockReads w). split; [|done]. unfold readDuring. rewrite Hworld. cbn. lia.
    + rewrite lookup_insert_ne in Hold by done. by left.
  - right. exists id'. split_and!; [by right|done|].
    eapply stamped_widen; [| |exact Hst]; cbn; lia.
Qed.

Lemma addIngestStreams_sound nodeID ids s w key stream :
  let r := addIngestStreams nodeID ids s w in
  (streamsOf (stats_Streams r.1) nodeID !! key = Some stream →
   streamsOf (stats_Streams s) nodeID !! key = Some stream
   ∨ ∃ id, id ∈ ids ∧ key = getPlaybackID id ∧ stamped w r.2 id stream)
  ∧ (streamsOf (stats_IngestStreams r.1) nodeID !! key = Some stream →
     streamsOf (stats_IngestStreams s) nodeID !! key = Some stream
     ∨ (key ∈ ids ∧ stamped w r.2 key stream)).
Proof.
  revert s w. induction ids as [|id ids IH]; intros s w r; [split; by left|].
  unfold r. rewrite addIngestStreams_cons.
  match goal with |- context [addIngestStreams nodeID ids ?s' ?w'] =>
    pose proof (addIngestStreams_world nodeID ids s' w') as Hworld;
    destruct (IH s' w') as [Hplay Hingest]; cbv zeta in Hplay, Hingest end.
  split; intros Hs.
  - destruct (Hplay Hs) as [Hold|(id' & Hid' & Hkey & Hst)].
    + cbn in Hold. rewrite streamsOf_putStream, decide_True in Hold by done.
      destruct (decide (key = getPlaybackID id)) as [->|Hne].
      * rewrite lookup_insert_eq in Hold. injection Hold as <-. right.
        exists id. split_and!; [by left|done|]. split_and!; [done..|].
        exists (clockReads w). split; [|done]. unfold readDuring. rewrite Hworld. cbn. lia.
      * rewrite lookup_insert_ne in Hold by done. by left.
    + right. exists id'. split_and!; [by right|done|].
      eapply stamped_widen; [| |exact Hst]; cbn; lia.
  - destruct (Hingest Hs) as [Hold|[Hin Hst]].
    + cbn in Hold. rewrite streamsOf_putStream, decide_True in Hold by done.
      destruct (decide (key = id)) as [->|Hne].
      * rewrite lookup_insert_eq in Hold. injection Hold as <-. right.
        split; [by left|]. split_and!; [done..|].
        exists (S (clockReads w)). split; [|done].
        unfold readDuring. rewrite Hworld. cbn. lia.
      * rewrite lookup_insert_ne in Hold by done. by left.
    + right. split; [by right|]. eapply stamped_widen; [| |exact Hst]; cbn; lia.
Qed.

(** The snapshots of the node of a recorded event hold the streams of
    that event only. *)
Lemma recordEvent_sound event s w key stream :
  let r := recordEvent event s w in
  (streamsOf (stats_Streams r.1) (NodeID event) !! key = Some stream →
   ∃ id, id ∈ GetStreams event ++ GetIngestStreams event
         ∧ key = getPlaybackID id ∧ stamped w r.2 id stream)
  ∧ (streamsOf (stats_IngestStreams r.1) (NodeID event) !! key = Some stream →
     key ∈ GetIngestStreams event ∧ stamped w r.2 key stream).
Proof.
  intros r. unfold r. rewrite recordEvent_run.
  set (s0 := mkStats _ _ _).
  pose proof (addStreams_world (NodeID event) (GetStreams event) s0 w) as Hw1.
  pose proof (addStreams_sound (NodeID event) (GetStreams event) s0 w key stream) as Hfirst.
  pose proof (addStreams_untouched (NodeID event) (GetStreams event) s0 w) as (Hsame & _).
  set (r1 := addStreams (NodeID event) (GetStreams event) s0 w) in *.
  pose proof (addIngestStreams_world (NodeID event) (GetIngestStreams event) r1.1 r1.2)
    as Hw2.
  destruct (addIngestStreams_sound (NodeID event) (GetIngestStreams event) r1.1 r1.2
              key stream) as [Hplay Hingest]. cbv zeta in Hplay, Hingest.
  assert (streamsOf (stats_Streams s0) (NodeID event) = ∅) as Hempty1.
  { unfold streamsOf, s0. cbn. by rewrite lookup_insert_eq. }
  assert (streamsOf (stats_IngestStreams s0) (NodeID event) = ∅) as Hempty2.
  { unfold streamsOf, s0. cbn. by rewrite lookup_insert_eq. }
  split; intros Hs.
  - destruct (Hplay Hs) as [Hold|(id & Hid & Hkey & Hst)].
    + destruct (Hfirst Hold) as [Hinit|(id & Hid & Hkey & Hst)].
      * by rewrite Hempty1, lookup_empty in Hinit.
      * exists id. split_and!; [apply elem_of_app; by left|done|].
        eapply stamped_widen; [| |exact Hst]; [done|]. rewrite Hw2. cbn. lia.
    + exists id. split_and!; [apply elem_of_app; by right|done|].
      eapply stamped_widen; [| |exact Hst]; [|done]. rewrite Hw1. cbn. lia.
  - destruct (Hingest Hs) as [Hold|[Hin Hst]].
    + by rewrite Hsame, Hempty2, lookup_empty in Hold.
    + split; [done|]. eapply stamped_widen; [| |exact Hst]; [|done].
      rewrite Hw1. cbn. lia.
Qed.

Lemma recordEvent_stamps event s w0 w :
  (clockReads w0 ≤ clockReads w)%nat →
  stampedStats w0 w s → stampedStats w0 (recordEvent event s w).2 (recordEvent event s w).1.
Proof.
  intros Hlo Hinv.
  assert (clockReads w ≤ clockReads (recordEvent event s w).2)%nat as Hhi.
  { rewrite recordEvent_world. cbn. lia. }
  apply (stampedStats_widen w0 w0 w (recordEvent event s w).2) in Hinv as [Hplay Hingest];
    [|done..].
  split; intros name key stream Hs.
  - destruct (decide (name = NodeID event)) as [->|Hne].
    + destruct (recordEvent_sound event s w key stream) as [Hnew _].
      destruct (Hnew Hs) as (id & _ & Hkey & Hst). exists id. split; [done|].
      by eapply stamped_widen; [| |exact Hst].
    + destruct (recordEvent_other event s w name Hne) as [Heq _].
      rewrite (streamsOf_eq _ _ _ Heq) in Hs. by eapply Hplay.
  - destruct (decide (name = NodeID event)) as [->|Hne].
    + destruct (recordEvent_sound event s w key stream) as [_ Hnew].
      destruct (Hnew Hs) as [_ Hst]. by eapply stamped_widen; [| |exact Hst].
    + destruct (recordEvent_other event s w name Hne) as [_ Heq].
      rewrite (streamsOf_eq _ _ _ Heq) in Hs. by eapply Hingest.
Qed.

Lemma refreshRows_stamps c rs s w0 w :
  (clockReads w0 ≤ clockReads w)%nat →
  stampedStats w0 w s →
  stampedStats w0 (refreshRows c rs s w).2 (refreshRows c rs s w).1.1.
Proof.
  revert s w. induction rs as [|row rest IH]; intros s w Hlo Hinv; [done|].
  destruct row as [cause|cause|event]; [done..|].
  rewrite refreshRows_decoded. destruct (expired _ _ _).
  - apply IH; [cbn; lia|]. eapply stampedStats_widen; [| |exact Hinv]; cbn; lia.
  - apply IH.
    + rewrite recordEvent_world. cbn. lia.
    + apply recordEvent_stamps; [cbn; lia|].
      eapply stampedStats_widen; [| |exact Hinv]; cbn; lia.
Qed.

Lemma stampedStats_empty w w' : stampedStats w w' (mkStats ∅ ∅ ∅).
Proof.
  split; intros name key stream Hs; unfold streamsOf in Hs; cbn in Hs;
    by rewrite lookup_empty in Hs.
Qed.

(** The stats [RefreshNodes] returns are the empty ones or those of the
    loop over the rows. *)
Lemma RefreshNodes_stats c w :
  ((RefreshNodes c w).1.1 = mkStats ∅ ∅ ∅
   ∧ (clockReads w ≤ clockReads (RefreshNodes c w).2)%nat)
  ∨ ∃ db result_set,
      NodeStatsDB c = Some db
      ∧ db "SELECT stats FROM node_stats" = Ok result_set
      ∧ let looped := refreshRows c (rows result_set) (mkStats ∅ ∅ ∅)
                        (mkWorld (clockReads w) (randDraws w) (S (storeQueries w))) in
        (RefreshNodes c w).1.1 = looped.1.1 ∧ (RefreshNodes c w).2 = looped.2.
Proof.
  destruct (NodeStatsDB c) as [db|] eqn:Hdb.
  - rewrite (RefreshNodes_query c db w Hdb). cbv zeta.
    destruct (db _) as [result_set|err] eqn:Hq; [|left; done].
    right. exists db, result_set. split_and!; [done..| |];
      by destruct (refreshRows _ _ _ _).1.2.
  - left. by rewrite RefreshNodes_nil_store.
Qed.

(** X13. Whatever [RefreshNodes] returns, with or without an error, every
    entry of its two snapshot maps carries a time read from the clock
    during that very refresh, never a time of the event; a playback entry
    is kept under the playback ID of its stream ID and an ingest entry
    under its stream ID. *)
Theorem RefreshNodes_stamps_every_stream c w :
  let s := (RefreshNodes c w).1.1 in
  let w' := (RefreshNodes c w).2 in
  (∀ name key stream,
     streamsOf (stats_Streams s) name !! key = Some stream →
     key = PlaybackID stream
     ∧ PlaybackID stream = getPlaybackID (ID stream)
     ∧ ∃ k, readDuring w w' k ∧ Stream_Timestamp stream = clock k)
  ∧ (∀ name key stream,
       streamsOf (stats_IngestStreams s) name !! key = Some stream →
       key = ID stream
       ∧ PlaybackID stream = getPlaybackID (ID stream)
       ∧ ∃ k, readDuring w w' k ∧ Stream_Timestamp stream = clock k).
Proof.
  intros s w'.
  assert (stampedStats w w' s) as [Hplay Hingest].
  { unfold s, w'.
    destruct (RefreshNodes_stats c w) as [[-> _]|(db & result_set & _ & _ & Hrun)].
    - apply stampedStats_empty.
    - cbv zeta in Hrun. destruct Hrun as [-> ->].
      set (w1 := mkWorld (clockReads w) (randDraws w) (S (storeQueries w))).
      apply (stampedStats_widen w w1 (refreshRows c (rows result_set) (mkStats ∅ ∅ ∅) w1).2
               (refreshRows c (rows result_set) (mkStats ∅ ∅ ∅) w1).2); [done..|].
      apply refreshRows_stamps; [done|apply stampedStats_empty]. }
  split; intros name key stream Hs.
  - destruct (Hplay name key stream Hs) as (id & -> & Hid & Hpid & Hk).
    by rewrite Hpid, Hid.
  - destruct (Hingest name key stream Hs) as (Hid & Hpid & Hk). by rewrite Hpid, Hid.
Qed.

End RefreshInvariants.

Section RefreshRuns.
Context `{Runtime} `{GeoScoring}.
Implicit Types (w : World) (c : CataBalancer) (s : stats) (rs : list Row)
  (ids : list string).

Lemma addStreams_present nodeID ids s w :
  is_Some (stats_Streams s !! nodeID) →
  is_Some (stats_Streams (addStreams nodeID ids s w).1 !! nodeID).
Proof.
  revert s w. induction ids as [|id ids IH]; intros s w Hs; [done|].
  rewrite addStreams_cons. apply IH. cbn. unfold putStream. by rewrite lookup_insert_eq.
Qed.

Lemma addIngestStreams_present nodeID ids s w :
  is_Some (stats_Streams s !! nodeID) → is_Some (stats_IngestStreams s !! nodeID) →
  is_Some (stats_Streams (addIngestStreams nodeID ids s w).1 !! nodeID)
  ∧ is_Some (stats_IngestStreams (addIngestStreams nodeID ids s w).1 !! nodeID).
Proof.
  revert s w. induction ids as [|id ids IH]; intros s w Hs Hi; [done|].
  rewrite addIngestStreams_cons. apply IH; cbn; unfold putStream; by rewrite lookup_insert_eq.
Qed.

Lemma recordEvent_present event s w :
  is_Some (stats_Streams (recordEvent event s w).1 !! NodeID event)
  ∧ is_Some (stats_IngestStreams (recordEvent event s w).1 !! NodeID event).
Proof.
  rewrite recordEvent_run. apply addIngestStreams_present.
  - apply addStreams_present. cbn. by rewrite lookup_insert_eq.
  - match goal with |- context [addStreams ?n ?ids ?s' ?w'] =>
      destruct (addStreams_untouched n ids s' w') as (-> & _ & _) end.
    cbn. by rewrite lookup_insert_eq.
Qed.

Lemma recordEvent_aligned event s w :
  alignedStats s → alignedStats (recordEvent event s w).1.
Proof.
  intros Hinv name. destruct (decide (name = NodeID event)) as [->|Hne].
  - destruct (recordEvent_present event s w) as [Hplay Hingest].
    rewrite recordEvent_metrics, lookup_insert_eq. split_and!; [done..|].
    intros key [stream Hstream].
    destruct (recordEvent_sound event s w key stream) as [_ Hnew].
    destruct (Hnew Hstream) as [Hin _].
    destruct (recordEvent_ingest event s w key Hin) as [_ (id & stream' & _ & _ & Hs & _)].
    by eexists.
  - destruct (recordEvent_other event s w name Hne) as [Hplay Hingest].
    rewrite recordEvent_metrics, lookup_insert_ne by done.
    rewrite Hplay, Hingest, (streamsOf_eq _ _ _ Hplay), (streamsOf_eq _ _ _ Hingest).
    apply Hinv.
Qed.

Lemma refreshRows_aligned c rs s w :
  alignedStats s → alignedStats (refreshRows c rs s w).1.1.
Proof.
  revert s w. induction rs as [|row rest IH]; intros s w Hinv; [done|].
  destruct row as [cause|cause|event]; [done..|].
  rewrite refreshRows_decoded. destruct (expired _ _ _); [by apply IH|].
  by apply IH, recordEvent_aligned.
Qed.

Lemma alignedStats_empty : alignedStats (mkStats ∅ ∅ ∅).
Proof.
  intros name. cbn. rewrite !lookup_empty. split_and!; [done..|].
  intros key [stream Hs]. unfold streamsOf in Hs. cbn in Hs.
  by rewrite !lookup_empty in Hs.
Qed.

(** X14. Whatever [RefreshNodes] returns, its three maps know the same
    nodes (a node has metrics exactly when it has a playback snapshot and
    an ingest snapshot), and every stream of a node's ingest snapshot is
    in its playback snapshot under its playback ID. *)
Theorem RefreshNodes_keeps_maps_aligned c w :
  let s := (RefreshNodes c w).1.1 in
  ∀ name,
    (is_Some (stats_Streams s !! name) ↔ is_Some (stats_NodeMetrics s !! name))
    ∧ (is_Some (stats_IngestStreams s !! name) ↔ is_Some (stats_NodeMetrics s !! name))
    ∧ ∀ streamID, is_Some (streamsOf (stats_IngestStreams s) name !! streamID) →
                  is_Some (streamsOf (stats_Streams s) name !! getPlaybackID streamID).
Proof.
  intros s. change (alignedStats s). unfold s.
  destruct (RefreshNodes_stats c w) as [[-> _]|(db & result_set & _ & _ & Hrun)].
  - apply alignedStats_empty.
  - cbv zeta in Hrun. destruct Hrun as [-> _].
    apply refreshRows_aligned, alignedStats_empty.
Qed.

Lemma refreshRows_draws c rs s w :
  randDraws (refreshRows c rs s w).2 = randDraws w.
Proof.
  revert s w. induction rs as [|row rest IH]; intros s w; [done|].
  destruct row as [cause|cause|event]; [done..|].
  rewrite refreshRows_decoded. destruct (expired _ _ _); rewrite IH; [done|].
  by rewrite recordEvent_world.
Qed.

(** The loop over the rows ends without an error exactly when no row
    fails to decode. *)
Lemma refreshRows_succeeds c rs s w :
  (refreshRows c rs s w).1.2 = None ↔ Forall (λ row, ¬ failingRow row) rs.
Proof.
  split.
  - intros Hnone. apply Forall_forall. intros row Hrow Hfail.
    destruct (refreshRows_failing c rs s w) as (err & _ & Herr & _).
    { apply Exists_exists. by exists row. }
    congruence.
  - revert s w. induction rs as [|row rest IH]; intros s w Hall; [done|].
    apply Forall_cons in Hall as [Hrow Hall].
    destruct row as [cause|cause|event]; [by destruct Hrow..|].
    rewrite refreshRows_decoded. destruct (expired _ _ _); by apply IH.
Qed.

Lemma RefreshNodes_draws c w : randDraws (RefreshNodes c w).2 = randDraws w.
Proof.
  destruct (NodeStatsDB c) as [db|] eqn:Hdb; [|by rewrite RefreshNodes_nil_store].
  rewrite (RefreshNodes_query c db w Hdb). cbv zeta.
  destruct (db _) as [result_set|err]; [|done].
  pose proof (refreshRows_draws c (rows result_set) (mkStats ∅ ∅ ∅)
                (mkWorld (clockReads w) (randDraws w) (S (storeQueries w)))) as Hdraws.
  by destruct (refreshRows _ _ _ _).1.2.
Qed.

(** X15. What a call of [RefreshNodes] does to the world: it draws no
    random number; without a store it returns the error "node stats DB
    was nil" and empty stats, having neither queried nor read the clock;
    with a store it sends exactly one query, and when that query fails it
    returns empty stats and the cause wrapped, without reading the
    clock. *)
Theorem RefreshNodes_effects c w :
  randDraws (RefreshNodes c w).2 = randDraws w
  ∧ (clockReads w ≤ clockReads (RefreshNodes c w).2)%nat
  ∧ (NodeStatsDB c = None →
     RefreshNodes c w
     = ((mkStats ∅ ∅ ∅, Some (errorString "node stats DB was nil")), w))
  ∧ (is_Some (NodeStatsDB c) → storeQueries (RefreshNodes c w).2 = S (storeQueries w))
  ∧ (∀ db cause,
       NodeStatsDB c = Some db → db "SELECT stats FROM node_stats" = Err cause →
       RefreshNodes c w
       = ((mkStats ∅ ∅ ∅, Some (Errorf_w "failed to query node stats: " cause)),
          mkWorld (clockReads w) (randDraws w) (S (storeQueries w)))).
Proof.
  split_and!.
  - apply RefreshNodes_draws.
  - destruct (NodeStatsDB c) as [db|] eqn:Hdb; [|by rewrite RefreshNodes_nil_store].
    rewrite (RefreshNodes_query c db w Hdb). cbv zeta.
    destruct (db _) as [result_set|err]; [|done].
    pose proof (refreshRows_clock c (rows result_set) (mkStats ∅ ∅ ∅)
                  (mkWorld (clockReads w) (randDraws w) (S (storeQueries w)))) as Hclock.
    by destruct (refreshRows _ _ _ _).1.2.
  - apply RefreshNodes_nil_store.
  - intros [db Hdb]. by rewrite RefreshNodes_queries, Hdb.
  - intros db cause Hdb Hq. rewrite (RefreshNodes_query c db w Hdb). cbv zeta.
    by rewrite Hq.
Qed.

(** X16. [RefreshNodes] returns no error exactly when there is a store,
    the query succeeds, no row fails to scan or to unmarshal, and the
    result set reports no error at its end. *)
Theorem RefreshNodes_succeeds_iff c w :
  (RefreshNodes c w).1.2 = None
  ↔ ∃ db result_set,
      NodeStatsDB c = Some db
      ∧ db "SELECT stats FROM node_stats" = Ok result_set
      ∧ Forall (λ row, ¬ failingRow row) (rows result_set)
      ∧ rows_Err result_set = None.
Proof.
  destruct (NodeStatsDB c) as [db|] eqn:Hdb.
  - rewrite (RefreshNodes_query c db w Hdb). cbv zeta.
    destruct (db _) as [result_set|err] eqn:Hq.
    + pose proof (refreshRows_succeeds c (rows result_set) (mkStats ∅ ∅ ∅)
                    (mkWorld (clockReads w) (randDraws w) (S (storeQueries w)))) as Hiff.
      destruct (refreshRows _ _ _ _).1.2 as [err|] eqn:Herr; cbn [fst snd].
      * split; [done|]. intros (db' & rs' & [= <-] & Hq' & Hall & _).
        rewrite Hq in Hq'. injection Hq' as <-. by apply Hiff in Hall.
      * split.
        -- intros Hnone. exists db, result_set. split_and!; [done..| |done].
           by apply Hiff.
        -- intros (db' & rs' & [= <-] & Hq' & _ & Hnone).
           rewrite Hq in Hq'. by injection Hq' as <-.
    + split; [done|]. intros (db' & rs' & [= <-] & Hq' & _). congruence.
  - rewrite RefreshNodes_nil_store by done. split; [done|]. by intros (? & ? & ? & _).
Qed.

(** X17. An error the result set reports after its last row reaches the
    caller of [RefreshNodes] as it is, not wrapped, together with the
    stats of all the rows; [GetBestNode] and [MistUtilLoadSource] wrap it
    once. *)
Theorem rows_error_is_returned_as_it_is c db result_set err w :
  NodeStatsDB c = Some db →
  db "SELECT stats FROM node_stats" = Ok result_set →
  Forall (λ row, ¬ failingRow row) (rows result_set) →
  rows_Err result_set = Some err →
  let looped := refreshRows c (rows result_set) (mkStats ∅ ∅ ∅)
                  (mkWorld (clockReads w) (randDraws w) (S (storeQueries w))) in
  RefreshNodes c w = ((looped.1.1, Some err), looped.2)
  ∧ (∀ redirectPrefixes playbackID lat lon fallbackPrefix isStudioReq,
       GetBestNode c redirectPrefixes playbackID lat lon fallbackPrefix isStudioReq w
       = (("", "", Some (Errorf_w "error refreshing nodes: " err)), looped.2))
  ∧ (∀ streamID lat lon,
       MistUtilLoadSource c streamID lat lon w
       = (("", Some (Errorf_w "error refreshing nodes: " err)), looped.2)).
Proof.
  intros Hdb Hq Hall Herr looped.
  assert (RefreshNodes c w = ((looped.1.1, Some err), looped.2)) as Hrefresh.
  { rewrite (RefreshNodes_query c db w Hdb). cbv zeta. rewrite Hq. fold looped.
    apply (refreshRows_succeeds c) with (s := mkStats ∅ ∅ ∅)
      (w := mkWorld (clockReads w) (randDraws w) (S (storeQueries w))) in Hall.
    fold looped in Hall. by rewrite Hall, Herr. }
  split_and!; [done| |].
  - intros. by apply GetBestNode_refresh_failed with (s := looped.1.1).
  - intros. by apply MistUtilLoadSource_refresh_failed with (s := looped.1.1).
Qed.

(** X18. Rows whose metrics are stale whenever they are looked at are
    skipped: a result set of such rows only costs one reading of the
    clock per row and leaves the stats empty. *)
Theorem stale_rows_are_skipped c db result_set w :
  NodeStatsDB c = Some db →
  db "SELECT stats FROM node_stats" = Ok result_set →
  (∀ row, row ∈ rows result_set →
     ∃ event, row = Decoded event
       ∧ ∀ k, (clockReads w ≤ k)%nat →
              expired (clock k) (Timestamp (ev_NodeMetrics event)) (metricTimeout c)
              = true) →
  RefreshNodes c w
  = ((mkStats ∅ ∅ ∅, rows_Err result_set),
     mkWorld (clockReads w + length (rows result_set)) (randDraws w) (S (storeQueries w))).
Proof.
  intros Hdb Hq Hstale. rewrite (RefreshNodes_query c db w Hdb). cbv zeta. rewrite Hq.
  assert (∀ rs s w1,
            (∀ row, row ∈ rs →
               ∃ event, row = Decoded event
                 ∧ ∀ k, (clockReads w1 ≤ k)%nat →
                        expired (clock k) (Timestamp (ev_NodeMetrics event))
                          (metricTimeout c) = true) →
            refreshRows c rs s w1
            = ((s, None),
               mkWorld (clockReads w1 + length rs) (randDraws w1) (storeQueries w1)))
    as Hloop.
  { induction rs as [|row rest IH]; intros s w1 Hrows.
    - destruct w1. cbn. do 2 f_equal. lia.
    - destruct (Hrows row) as (event & -> & Hexpired); [by left|].
      rewrite refreshRows_decoded, Hexpired by done. rewrite IH.
      + cbn. do 2 f_equal. lia.
      + intros row Hrow. destruct (Hrows row) as (event' & -> & Hexpired'); [by right|].
        exists event'. split; [done|]. intros k Hk. apply Hexpired'. cbn in Hk. lia. }
  rewrite Hloop by done. done.
Qed.

End RefreshRuns.

(** ** Scored candidates *)

Section Candidates.
Context `{Runtime} `{GeoScoring}.
Implicit Types (w : World) (c : CataBalancer) (s : stats).

(** The nodes of the candidates, in order: those already in the list,
    then some of the entries, in the order of the entries. *)
Lemma scoreNodes_sublist c s entries nodesList w :
  ∃ added, sn_Node <$> (scoreNodes c s entries nodesList w).1
           = (sn_Node <$> nodesList) ++ added
    ∧ added `sublist_of` entries.*2.
Proof.
  revert nodesList w. induction entries as [|[nodeName node] rest IH]; intros nodesList w.
  { exists []. by rewrite app_nil_r. }
  rewrite scoreNodes_cons. cbn [fmap list_fmap snd].
  destruct (stats_NodeMetrics s !! nodeName) as [metrics|].
  - destruct (expired _ _ _).
    + destruct (IH nodesList (afterReading w)) as (added & -> & Hsub).
      exists added. split; [done|]. by apply sublist_cons.
    + cbv zeta.
      match goal with |- context [scoreNodes c s rest ?l ?w'] =>
        destruct (IH l w') as (added & -> & Hsub) end.
      exists (node :: added). rewrite fmap_app, <- app_assoc. split; [done|].
      by apply sublist_skip.
  - destruct (IH nodesList w) as (added & -> & Hsub).
    exists added. split; [done|]. by apply sublist_cons.
Qed.

(** X19. The candidates of [createScoredNodes] stand for registry
    entries, in the order the registry is ranged over and each entry at
    most once; they start with the three scores at zero and no ingest
    streams; and making them draws no random number and sends no query. *)
Theorem createScoredNodes_candidates c s w :
  rangeLaw →
  let scoredNodes := (createScoredNodes c s w).1 in
  (∀ scored, scored ∈ scoredNodes →
     Score scored = 0 ∧ GeoScore scored = 0 ∧ StreamScore scored = 0
     ∧ sn_IngestStreams scored = ∅)
  ∧ (sn_Node <$> scoredNodes) `sublist_of` (rangeOrder (Nodes c)).*2
  ∧ (length scoredNodes ≤ size (Nodes c))%nat
  ∧ (wellKeyed (Nodes c) → NoDup (Name <$> (sn_Node <$> scoredNodes)))
  ∧ randDraws (createScoredNodes c s w).2 = randDraws w
  ∧ storeQueries (createScoredNodes c s w).2 = storeQueries w.
Proof.
  intros Hlaw scoredNodes.
  assert ((sn_Node <$> scoredNodes) `sublist_of` (rangeOrder (Nodes c)).*2) as Hsub.
  { unfold scoredNodes, createScoredNodes.
    destruct (scoreNodes_sublist c s (rangeOrder (Nodes c)) [] w) as (added & -> & Hsub).
    done. }
  split_and!.
  - intros scored Hin. apply createScoredNodes_sound in Hin as (name & _ & Hsb); [|done].
    destruct Hsb as (metrics & _ & _ & _ & ? & ? & ? & ? & _). done.
  - done.
  - apply sublist_length in Hsub. rewrite !length_fmap in Hsub.
    rewrite (Permutation_length (Hlaw _ (Nodes c))), length_map_to_list in Hsub. done.
  - intros Hkeyed. apply (sublist_NoDup _ (Name <$> (rangeOrder (Nodes c)).*2)).
    + assert (Name <$> (rangeOrder (Nodes c)).*2 = (rangeOrder (Nodes c)).*1) as ->.
      { rewrite <- list_fmap_compose. apply Forall_fmap_ext_1, Forall_forall.
        intros [key node] Hin. apply rangeOrder_elem in Hin; [|done].
        cbn. by apply Hkeyed. }
      by apply rangeOrder_NoDup.
    + by apply fmap_sublist.
  - apply scoreNodes_world.
  - apply scoreNodes_world.
Qed.

End Candidates.

(** ** Staleness at the ends of the range *)

Section Edges.
Context `{Runtime} `{GeoScoring}.
Implicit Types (w : World) (c : CataBalancer) (s : stats).

(** X20. [isStale] reads the clock once and does nothing else. With a
    timeout of zero or less every entry that is not from the future is
    stale; with a timeout above zero an entry stamped with the present
    reading or a later one is fresh; an entry older than the longest
    [Duration] is stale under every timeout; and under the most negative
    timeout everything is stale. *)
Theorem isStale_edges (timestamp : Time) (timeout : Duration) w :
  let now := clock (clockReads w) in
  (isStale timestamp timeout w).2 = afterReading w
  ∧ (timeout ≤ 0 → timestamp ≤ now → (isStale timestamp timeout w).1 = true)
  ∧ (0 < timeout → now ≤ timestamp → (isStale timestamp timeout w).1 = false)
  ∧ (timeout ≤ maxDuration → maxDuration < now - timestamp →
     (isStale timestamp timeout w).1 = true)
  ∧ (timeout = minDuration → (isStale timestamp timeout w).1 = true).
Proof.
  intros now. rewrite isStale_run. cbn [fst snd]. unfold expired. fold now.
  assert (minDuration < 0 < maxDuration) as Hrange by (unfold minDuration, maxDuration; lia).
  split_and!; [done|..].
  - intros Ht Hts. apply Z.leb_le.
    destruct (time_Since_cases now timestamp) as [[? ->]|[[? ->]|[[??] ->]]]; lia.
  - intros Ht Hts. apply Z.leb_gt.
    destruct (time_Since_cases now timestamp) as [[? ->]|[[? ->]|[[??] ->]]]; lia.
  - intros Ht Hts. apply Z.leb_le.
    destruct (time_Since_cases now timestamp) as [[? ->]|[[? ->]|[[??] ->]]]; lia.
  - intros ->. apply Z.leb_le.
    destruct (time_Since_cases now timestamp) as [[? ->]|[[? ->]|[[??] ->]]]; lia.
Qed.

(** ** Answers of the two entry points *)

(** X21. [GetBestNode] answers with an error and two empty strings, or
    with a node name and the stream name made of the first redirect
    prefix ("video" when there is none), a "+" and the playback ID, from
    which [getPlaybackID] gives the playback ID back; [fallbackPrefix] and
    [isStudioReq] play no part in the answer. *)
Theorem GetBestNode_names_the_stream c (redirectPrefixes : list string)
    (playbackID lat lon fallbackPrefix : string) (isStudioReq : bool) w :
  let answer :=
    (GetBestNode c redirectPrefixes playbackID lat lon fallbackPrefix isStudioReq w).1 in
  (∀ nodeName fullStreamName,
     answer = (nodeName, fullStreamName, None) →
     fullStreamName = redirectPrefix redirectPrefixes +:+ "+" +:+ playbackID
     ∧ (strings.Contains (redirectPrefix redirectPrefixes) plus = false →
        strings.Contains playbackID plus = false →
        getPlaybackID fullStreamName = playbackID))
  ∧ (∀ nodeName fullStreamName err,
       answer = (nodeName, fullStreamName, Some err) →
       nodeName = "" ∧ fullStreamName = "")
  ∧ (∀ fallbackPrefix' isStudioReq',
       GetBestNode c redirectPrefixes playbackID lat lon fallbackPrefix' isStudioReq' w
       = GetBestNode c redirectPrefixes playbackID lat lon fallbackPrefix isStudioReq w).
Proof.
  intros answer.
  assert ((∃ err, answer = ("", "", Some err))
          ∨ ∃ nodeName,
              answer = (nodeName, redirectPrefix redirectPrefixes +:+ "+" +:+ playbackID,
                        None)) as Hcases.
  { unfold answer.
    destruct (RefreshNodes c w) as [[s err] w1] eqn:Hrefresh. destruct err as [err|].
    - rewrite (GetBestNode_refresh_failed _ _ _ _ _ _ _ _ _ _ _ Hrefresh).
      left. by eexists.
    - rewrite (GetBestNode_refreshed _ _ _ _ _ _ _ _ _ _ Hrefresh).
      destruct (parseCoordinate lat); [|left; by eexists].
      destruct (parseCoordinate lon); [|left; by eexists].
      cbv zeta. destruct (0 <? _)%nat; [|right; by eexists].
      destruct (SelectNode _ _ _ _ _).1.2; [left|right]; by eexists. }
  split_and!.
  - intros nodeName fullStreamName Hanswer.
    destruct Hcases as [[err Herr]|[name Hname]]; [congruence|].
    rewrite Hname in Hanswer. injection Hanswer as _ <-. split; [done|].
    intros Hprefix Hid.
    by apply getPlaybackID_prefixed.
  - intros nodeName fullStreamName err Hanswer.
    destruct Hcases as [[err' Herr]|[name Hname]]; [|congruence].
    rewrite Herr in Hanswer. by injection Hanswer as <- <- _.
  - reflexivity.
Qed.

Lemma findIngestNode_world c s streamID nodeNames w :
  (findIngestNode c s streamID nodeNames w).2 = w
  ∨ (findIngestNode c s streamID nodeNames w).2 = afterReading w.
Proof.
  induction nodeNames as [|name rest IH]; [by left|]. cbn [findIngestNode].
  destruct (streamsOf _ _ !! _) as [stream|]; [|done].
  right. unfold mbind, M_bind. rewrite isStale_run. by destruct (expired _ _ _).
Qed.

Lemma findIngestNode_answer c s streamID nodeNames w address err :
  (findIngestNode c s streamID nodeNames w).1 = Some (address, Some err) → address = "".
Proof.
  induction nodeNames as [|name rest IH]; [done|]. cbn [findIngestNode].
  destruct (streamsOf _ _ !! _) as [stream|]; [|done].
  unfold mbind, M_bind. rewrite isStale_run. destruct (expired _ _ _); cbn; congruence.
Qed.

(** X22. [MistUtilLoadSource] makes no use of the coordinates it is
    given; it draws no random number, sends one query when there is a
    store, reads the clock at most once after the refresh; and when it
    answers with an error the address is empty. *)
Theorem MistUtilLoadSource_effects c (streamID lat lon : string) w :
  let run := MistUtilLoadSource c streamID lat lon w in
  (∀ lat' lon', MistUtilLoadSource c streamID lat' lon' w = run)
  ∧ randDraws run.2 = randDraws w
  ∧ (is_Some (NodeStatsDB c) → storeQueries run.2 = S (storeQueries w))
  ∧ (clockReads (RefreshNodes c w).2 ≤ clockReads run.2
     ≤ S (clockReads (RefreshNodes c w).2))%nat
  ∧ (∀ address err, run.1 = (address, Some err) → address = "").
Proof.
  intros run. split; [done|]. unfold run.
  pose proof (RefreshNodes_draws c w) as Hdraws.
  assert (is_Some (NodeStatsDB c) → storeQueries (RefreshNodes c w).2 = S (storeQueries w))
    as Hqueries.
  { intros [db Hdb]. by rewrite RefreshNodes_queries, Hdb. }
  destruct (RefreshNodes c w) as [[s err] w1] eqn:Hrefresh. cbn [snd] in *.
  destruct err as [err|].
  - rewrite (MistUtilLoadSource_refresh_failed _ _ _ _ _ _ _ _ Hrefresh). cbn [fst snd].
    split; [|split; [|split]]; [done..|lia|]. by intros address err' [= <- _].
  - rewrite (MistUtilLoadSource_refreshed _ _ _ _ _ _ _ Hrefresh). cbv zeta.
    pose proof (findIngestNode_world c s streamID (rangeOrder (Nodes c)).*1 w1) as Hworld.
    pose proof (findIngestNode_answer c s streamID (rangeOrder (Nodes c)).*1 w1) as Hanswer.
    destruct (findIngestNode _ _ _ _ _) as [[answer|] w2]; cbn [fst snd] in *.
    + split; [|split; [|split]].
      * destruct Hworld as [->| ->]; done.
      * intros Hdb. destruct Hworld as [->| ->]; by apply Hqueries.
      * destruct Hworld as [->| ->]; cbn; lia.
      * intros address err ->. by eapply Hanswer.
    + split; [|split; [|split]].
      * destruct Hworld as [->| ->]; done.
      * intros Hdb. destruct Hworld as [->| ->]; by apply Hqueries.
      * destruct Hworld as [->| ->]; cbn; lia.
      * by intros address err [= <- _].
Qed.

(** X23. A balancer fresh from [NewBalancer] keeps the name, the timeouts
    and the store it was given and has no node: it scores no candidate,
    and once a refresh succeeds it answers every [GetBestNode] with its
    own name and every [MistUtilLoadSource] with the plain not-found
    error. *)
Theorem NewBalancer_has_no_nodes (nodeName : string)
    (metricTimeout' ingestStreamTimeout' : Duration) (nodeStatsDB : option sql_DB) :
  let c := NewBalancer nodeName metricTimeout' ingestStreamTimeout' nodeStatsDB in
  NodeName c = nodeName ∧ Nodes c = ∅
  ∧ metricTimeout c = metricTimeout' ∧ ingestStreamTimeout c = ingestStreamTimeout'
  ∧ NodeStatsDB c = nodeStatsDB
  ∧ (rangeLaw → ∀ s w, createScoredNodes c s w = ([], w))
  ∧ (rangeLaw → ∀ w s w1, RefreshNodes c w = ((s, None), w1) →
       (∀ redirectPrefixes playbackID fallbackPrefix isStudioReq,
          GetBestNode c redirectPrefixes playbackID "" "" fallbackPrefix isStudioReq w
          = ((nodeName, redirectPrefix redirectPrefixes +:+ "+" +:+ playbackID, None), w1))
       ∧ (∀ streamID lat lon,
            MistUtilLoadSource c streamID lat lon w
            = (("", Some (missingIngestError streamID)), w1))).
Proof.
  intros c.
  assert (rangeLaw → ∀ s w, createScoredNodes c s w = ([], w)) as Hnone.
  { intros Hlaw s w. unfold createScoredNodes. by rewrite (rangeOrder_empty (Nodes c)). }
  split_and!; [done..|].
  intros Hlaw w s w1 Hrefresh. split.
  - intros. rewrite (GetBestNode_refreshed _ _ _ _ _ _ _ _ _ _ Hrefresh).
    rewrite parseCoordinate_empty. cbv zeta. by rewrite Hnone.
  - intros. rewrite (MistUtilLoadSource_refreshed _ _ _ _ _ _ _ Hrefresh). cbv zeta.
    by rewrite (rangeOrder_empty (Nodes c)).
Qed.

End Edges.

(** ** The further properties on the sample fleet *)

Lemma weigh_adds_up_witness :
  Score (weigh "abc" sampleBest) = 6 ∧ StreamScore (weigh "abc" sampleBest) = 2
  ∧ Score (weigh "xyz" sampleBest) = 4.
Proof.
  destruct (weigh_adds_up "abc" sampleBest) as (Hscore & Hstream & _);
    [vm_compute; split; discriminate..|].
  destruct (weigh_adds_up "xyz" sampleBest) as (Hscore' & _);
    [vm_compute; split; discriminate..|].
  rewrite Hscore, Hstream, Hscore'. vm_compute. repeat split.
Defined.

Lemma selectTopNodes_least_bad_witness :
  StronglySorted (λ a b, Score b ≤ Score a)
    (@selectTopNodes sampleRuntime sampleGeoScoring sampleCandidates "abc"
       (float64_of_Z 52) (S754_zero false) 3 world0).1
  ∧ length (@selectTopNodes sampleRuntime sampleGeoScoring sampleCandidates "abc"
              (float64_of_Z 52) (S754_zero false) 3 world0).1 = 2%nat.
Proof.
  destruct (@selectTopNodes_least_bad sampleRuntime sampleGeoScoring sampleCandidates
              "abc" (float64_of_Z 52) (S754_zero false) 3 world0
              (sample_sortLaw _) (sample_sortedLaw _)) as (_ & Hlen & Hsorted & _).
  - intros node Hin [Hgeo _]. vm_compute in Hin.
    apply elem_of_cons in Hin as [->|Hin]; [discriminate Hgeo|].
    apply elem_of_cons in Hin as [->|Hin]; [discriminate Hgeo|].
    exact (proj1 (elem_of_nil _) Hin).
  - split; [exact Hsorted|]. rewrite Hlen. vm_compute. reflexivity.
Defined.

Lemma GetBestNode_sends_viewers_to_the_stream_witness :
  ∃ node,
    (node ∈ sampleScored ∧ GeoScore node = 2 ∧ GetLoadScore node = 2
     ∧ HasStream node "abc" = true)
    ∧ (@GetBestNode sampleRuntime sampleGeoScoring sampleBalancer
         [] "abc" "" "" "" false world0).1
      = (Name (sn_Node node), "video+abc", None).
Proof.
  apply (@GetBestNode_sends_viewers_to_the_stream sampleRuntime sampleGeoScoring
           sampleBalancer [] "abc" "" "" "" false world0 sampleStats sampleRefreshed
           (S754_zero false) (S754_zero false) sample_geoLaw sampleBalancer_refreshes
           eq_refl eq_refl).
  exists sampleBest. split_and!.
  - vm_compute. apply list_elem_of_here.
  - vm_compute. reflexivity.
  - vm_compute. reflexivity.
  - vm_compute. reflexivity.
Defined.

Lemma rows_error_is_returned_as_it_is_witness :
  (@RefreshNodes sampleRuntime (balancerWith (Some interruptedStore)) world0).1.2
  = Some (errorString "driver: bad connection")
  ∧ (@GetBestNode sampleRuntime sampleGeoScoring (balancerWith (Some interruptedStore))
       [] "abc" "" "" "" false world0).1
    = ("", "", Some (Errorf_w "error refreshing nodes: "
                       (errorString "driver: bad connection"))).
Proof.
  destruct (@rows_error_is_returned_as_it_is sampleRuntime sampleGeoScoring
              (balancerWith (Some interruptedStore)) interruptedStore
              (mkRows sampleRows (Some (errorString "driver: bad connection")))
              (errorString "driver: bad connection") world0 eq_refl eq_refl)
    as (Hrefresh & Hbest & _).
  - repeat constructor; by intros [].
  - reflexivity.
  - split; [by rewrite Hrefresh|by rewrite Hbest].
Defined.

Lemma stale_rows_are_skipped_witness :
  @RefreshNodes frozenRuntime (balancerWith (Some (storeOf staleRows))) world0
  = ((mkStats ∅ ∅ ∅, None), mkWorld 2 0 1).
Proof.
  apply (@stale_rows_are_skipped frozenRuntime
           (balancerWith (Some (storeOf staleRows))) (storeOf staleRows)
           (mkRows staleRows None) world0 eq_refl eq_refl).
  intros row Hrow. cbn [rows staleRows] in Hrow.
  apply elem_of_cons in Hrow as [->|Hrow]; [|apply elem_of_cons in Hrow as [->|Hrow]].
  - eexists. split; [reflexivity|]. intros k _.
    apply (expired_iff _ _ _ five_seconds_valid). unfold staleAt. cbn.
    unfold frozenClock. lia.
  - eexists. split; [reflexivity|]. intros k _.
    apply (expired_iff _ _ _ five_seconds_valid). unfold staleAt. cbn.
    unfold frozenClock, second. lia.
  - exfalso. exact (proj1 (elem_of_nil _) Hrow).
Defined.

Lemma createScoredNodes_candidates_witness :
  (length sampleCandidates ≤ size (Nodes sampleBalancer))%nat
  ∧ NoDup (Name <$> (sn_Node <$> sampleCandidates))
  ∧ ∀ scored, scored ∈ sampleCandidates → Score scored = 0 ∧ GeoScore scored = 0
                                           ∧ StreamScore scored = 0
                                           ∧ sn_IngestStreams scored = ∅.
Proof.
  destruct (@createScoredNodes_candidates sampleRuntime sampleBalancer
              sampleStats sampleRefreshed (sample_rangeLaw _))
    as (Hzero & _ & Hlen & Hnodup & _).
  split_and!; [exact Hlen| |exact Hzero].
  apply Hnodup, collectMembers_wellKeyed.
Defined.

(** ** Which node answers for an ingest stream *)

Section IngestSource.
Context `{Runtime} `{GeoScoring}.
Implicit Types (w : World) (c : CataBalancer) (s : stats).



End IngestSource.



